(** * vibe-notify: idle detection and command extraction

    A shallow embedding of the core of the extension:
    - [Config.matchesChat]            (src/config.ts)
    - the debounced [ChatIdleDetector] (src/detection/chatIdleDetector.ts)
    - [extractCommands] and its helpers (src/parse/extractCommands.ts)

    JavaScript strings are modelled as sequences of 8-bit code units
    (the Latin-1 range of UTF-16): [string] for the opaque texts handled by
    the detector, [list ascii] where the extractor takes texts apart. *)

From Stdlib Require Import Ascii String List QArith Lia.
From stdpp Require Import base option list sorting gmap strings pretty.

Close Scope Q_scope.
Open Scope string_scope.
Open Scope list_scope.
Open Scope nat_scope.

(** ** The host (VS Code) objects the core reads *)

Module Vscode.

(** A [vscode.TextDocument] as seen at one instant.  [uri] stands for
    [document.uri.toString()], [scheme] for [document.uri.scheme] and
    [getText] for the result of [document.getText()]. *)
Record TextDocument := mkTextDocument {
  uri : string;
  languageId : string;
  scheme : string;
  fileName : string;
  version : nat;
  getText : string
}.

(** A [vscode.TextDocumentChangeEvent]; only the length of the
    [contentChanges] array is ever inspected. *)
Record TextDocumentChangeEvent := mkChangeEvent {
  document : TextDocument;
  contentChanges : nat
}.

End Vscode.

(** ** Completions: a value or a thrown exception *)

Module Js.

Inductive Error :=
| SyntaxError (pattern : string).

Inductive Completion (A : Type) :=
| Normal (a : A)
| Throw (e : Error).
Arguments Normal {A} a.
Arguments Throw {A} e.

Definition bind {A B} (c : Completion A) (k : A -> Completion B) : Completion B :=
  match c with
  | Normal a => k a
  | Throw e => Throw e
  end.

(** [try { body } catch (error) { handler(error) }] *)
Definition try_catch {A} (body : Completion A) (handler : Error -> Completion A)
  : Completion A :=
  match body with
  | Normal a => Normal a
  | Throw e => handler e
  end.

(** The regular-expression engine of the host.  [new_RegExp p] is
    [new RegExp(p)], which throws a SyntaxError on a malformed pattern;
    [RegExp_test r s] is [r.test(s)] for a freshly built, non-global [r]. *)
Class RegExpEngine := {
  RegExp : Type;
  compile : string -> option RegExp;
  RegExp_test : RegExp -> string -> bool
}.

Definition new_RegExp `{RegExpEngine} (pattern : string) : Completion RegExp :=
  match compile pattern with
  | Some r => Normal r
  | None => Throw (SyntaxError pattern)
  end.

(** [a || ''] on strings: the empty string is the only falsy string. *)
Definition or_empty (a : string) : string :=
  if decide (a = "") then "" else a.

End Js.

#[export] Instance completion_bind : MBind Js.Completion := fun A B k c => Js.bind c k.

(** ** src/config.ts *)

Module Config.
Import Vscode Js.

Record ChatMatcher := mkChatMatcher {
  languageIdRegex : string;
  schemeRegex : string;
  titleRegex : string
}.

(** The part of the workspace configuration the core reads through the
    getters [enabled], [silenceMs] and [chatMatchers]. *)
Record Settings := mkSettings {
  enabled : bool;
  silenceMs : nat;
  chatMatchers : list ChatMatcher
}.

(** One [console.warn] call of [matchesChat]. *)
Record Warning := mkWarning {
  warnMatcher : ChatMatcher;
  warnError : Error
}.

(** The body of the [try] block: the three regular expressions are built
    and tested in order, then combined. *)
Definition tryMatcher `{RegExpEngine} (matcher : ChatMatcher) (document : TextDocument)
  : Completion bool :=
  languageRe ← new_RegExp (languageIdRegex matcher);
  let languageMatch := RegExp_test languageRe (languageId document) in
  schemeRe ← new_RegExp (schemeRegex matcher);
  let schemeMatch := RegExp_test schemeRe (scheme document) in
  titleRe ← new_RegExp (titleRegex matcher);
  let titleMatch := RegExp_test titleRe (or_empty (fileName document)) in
  Normal (languageMatch && schemeMatch && titleMatch).

(** What one iteration of the [for] loop decides. *)
Inductive Iteration :=
| ReturnTrue
| Continue (warnings : list Warning).

Definition iteration `{RegExpEngine} (matcher : ChatMatcher) (document : TextDocument)
  : Completion Iteration :=
  try_catch
    (ok ← tryMatcher matcher document;
     Normal (if ok : bool then ReturnTrue else Continue []))
    (fun error => Normal (Continue [mkWarning matcher error])).

(** [matchesChat(document)]: the completion of the call together with the
    warnings written to the console. *)
Fixpoint matchesChat `{RegExpEngine} (matchers : list ChatMatcher) (document : TextDocument)
  : Completion bool * list Warning :=
  match matchers with
  | [] => (Normal false, [])
  | matcher :: rest =>
      match iteration matcher document with
      | Normal ReturnTrue => (Normal true, [])
      | Normal (Continue ws) =>
          let '(r, ws') := matchesChat rest document in (r, ws ++ ws')
      | Throw e => (Throw e, [])
      end
  end.

(** The declarative reading: a matcher matches when all three patterns
    compile and all three tests succeed. *)
Definition matcherMatches `{RegExpEngine} (matcher : ChatMatcher) (document : TextDocument)
  : bool :=
  match compile (languageIdRegex matcher), compile (schemeRegex matcher),
        compile (titleRegex matcher) with
  | Some l, Some s, Some t =>
      RegExp_test l (languageId document) && RegExp_test s (scheme document)
      && RegExp_test t (or_empty (fileName document))
  | _, _, _ => false
  end.

End Config.

(** ** src/detection/chatIdleDetector.ts *)

Module ChatIdleDetector.
Import Vscode Js Config.

(** [IdleEvent].  The constant field [reason: 'idle'] is left out.  A
    document object is referred to by its uri: the host keeps one live
    [TextDocument] per uri. *)
Record IdleEvent := mkIdleEvent {
  eventDocument : string;
  previousContent : string;
  currentContent : string;
  changesSinceLastIdle : nat
}.

(** [DocumentState]; [timeout] holds the handle returned by [setTimeout],
    [source] the reference to the document object. *)
Record DocumentState := mkDocumentState {
  timeout : option nat;
  lastLength : nat;
  lastVersion : nat;
  lastContent : string;
  changeCount : nat;
  source : string
}.

(** A timer pending in the host: its handle, the instant it is due, and the
    two variables captured by the callback
    [() => this.onDocumentIdle(documentKey, currentContent)]. *)
Record Timer := mkTimer {
  handle : nat;
  due : nat;
  timerKey : string;
  timerContent : string
}.

(** The detector instance ([isEnabled], [documentStates], the events fired
    on [onIdleEmitter]) together with the host it runs in: the
    configuration, the clock (ms), the pending timers in firing order, the
    next fresh timer handle and the open documents. *)
Record World := mkWorld {
  settings : Settings;
  clock : nat;
  timers : list Timer;
  nextHandle : nat;
  documents : gmap string TextDocument;
  isEnabled : bool;
  documentStates : gmap string DocumentState;
  emitted : list IdleEvent
}.

Definition with_timers (ts : list Timer) (w : World) : World :=
  mkWorld (settings w) (clock w) ts (nextHandle w) (documents w)
          (isEnabled w) (documentStates w) (emitted w).

Definition with_states (m : gmap string DocumentState) (w : World) : World :=
  mkWorld (settings w) (clock w) (timers w) (nextHandle w) (documents w)
          (isEnabled w) m (emitted w).

Definition with_enabled (b : bool) (w : World) : World :=
  mkWorld (settings w) (clock w) (timers w) (nextHandle w) (documents w)
          b (documentStates w) (emitted w).

Definition with_documents (ds : gmap string TextDocument) (w : World) : World :=
  mkWorld (settings w) (clock w) (timers w) (nextHandle w) ds
          (isEnabled w) (documentStates w) (emitted w).

Definition with_settings (s : Settings) (w : World) : World :=
  mkWorld s (clock w) (timers w) (nextHandle w) (documents w)
          (isEnabled w) (documentStates w) (emitted w).

Definition with_clock (t : nat) (w : World) : World :=
  mkWorld (settings w) t (timers w) (nextHandle w) (documents w)
          (isEnabled w) (documentStates w) (emitted w).

(** [onIdleEmitter.fire(e)] *)
Definition fire (e : IdleEvent) (w : World) : World :=
  mkWorld (settings w) (clock w) (timers w) (nextHandle w) (documents w)
          (isEnabled w) (documentStates w) (emitted w ++ [e]).

(** *** Host timers *)

(** Pending timers are kept in the order they will fire: by due time, and
    by registration order among equal due times. *)
Fixpoint schedule (t : Timer) (ts : list Timer) : list Timer :=
  match ts with
  | [] => [t]
  | u :: rest => if due t <? due u then t :: u :: rest else u :: schedule t rest
  end.

(** The longest delay the host's [setTimeout] waits as it is given:
    2^31 - 1 ms. *)
Definition TIMEOUT_MAX : Z := 2147483647.

(** The delay the host really waits: a delay below 1 or above
    [TIMEOUT_MAX] is replaced by 1. *)
Definition timerDelay (ms : nat) : nat :=
  if (1 <=? ms) && (Z.of_nat ms <=? TIMEOUT_MAX)%Z then ms else 1.

(** [setTimeout(() => this.onDocumentIdle(key, content), ms)] *)
Definition setTimeout (key content : string) (ms : nat) (w : World) : nat * World :=
  let h := nextHandle w in
  let t := mkTimer h (clock w + timerDelay ms) key content in
  (h, mkWorld (settings w) (clock w) (schedule t (timers w)) (S h) (documents w)
              (isEnabled w) (documentStates w) (emitted w)).

(** [clearTimeout(h)] *)
Definition clearTimeout (h : nat) (w : World) : World :=
  with_timers (filter (fun t => handle t ≠ h) (timers w)) w.

(** [if (state.timeout) { clearTimeout(state.timeout); }] *)
Definition clearStateTimeout (st : DocumentState) (w : World) : World :=
  match timeout st with
  | Some h => clearTimeout h w
  | None => w
  end.

(** *** The handlers *)

Definition getDocumentKey (document : TextDocument) : string := uri document.

Definition onDocumentIdle (documentKey currentContent : string) (w : World) : World :=
  match documentStates w !! documentKey with
  | None => w
  | Some state =>
      let idleEvent :=
        mkIdleEvent (source state) (lastContent state) currentContent
                    (changeCount state) in
      let state' :=
        mkDocumentState None (lastLength state) (lastVersion state)
                        currentContent 0 (source state) in
      fire idleEvent (with_states (<[documentKey := state']> (documentStates w)) w)
  end.

Definition onTextDocumentChange `{RegExpEngine} (event : TextDocumentChangeEvent)
    (w : World) : World :=
  if negb (isEnabled w) then w else
  let document := document event in
  match fst (matchesChat (chatMatchers (settings w)) document) with
  | Throw _ => w
  | Normal false => w
  | Normal true =>
      if contentChanges event =? 0 then w else
      let documentKey := getDocumentKey document in
      let currentState := documentStates w !! documentKey in
      let currentContent := getText document in
      let currentLength := String.length currentContent in
      let currentVersion := version document in
      let w1 :=
        match currentState with
        | None =>
            with_states
              (<[documentKey :=
                   mkDocumentState None currentLength currentVersion
                                   currentContent 1 (uri document)]>
                 (documentStates w)) w
        | Some st =>
            let w' := clearStateTimeout st w in
            with_states
              (<[documentKey :=
                   mkDocumentState (timeout st) currentLength currentVersion
                                   (lastContent st) (S (changeCount st))
                                   (uri document)]>
                 (documentStates w')) w'
        end in
      let silenceMs := silenceMs (settings w1) in
      let '(h, w2) := setTimeout documentKey currentContent silenceMs w1 in
      with_states
        (alter (fun st => mkDocumentState (Some h) (lastLength st) (lastVersion st)
                            (lastContent st) (changeCount st) (source st))
               documentKey (documentStates w2)) w2
  end.

Definition onTextDocumentClose (document : TextDocument) (w : World) : World :=
  let documentKey := getDocumentKey document in
  match documentStates w !! documentKey with
  | Some state =>
      let w' := clearStateTimeout state w in
      with_states (delete documentKey (documentStates w')) w'
  | None => w
  end.

(** The loop clears the timer of every entry; the order of the entries
    does not matter for the result. *)
Definition clearAllStates (w : World) : World :=
  let w' :=
    foldr (fun '(_, state) acc => clearStateTimeout state acc) w
          (map_to_list (documentStates w)) in
  with_states ∅ w'.

Definition onConfigurationChange (w : World) : World :=
  let wasEnabled := isEnabled w in
  let w1 := with_enabled (enabled (settings w)) w in
  if negb (isEnabled w1) && wasEnabled then clearAllStates w1 else w1.

Definition setEnabled (enabled : bool) (w : World) : World :=
  if Bool.eqb (isEnabled w) enabled then w else
  let w1 := with_enabled enabled w in
  if negb enabled then clearAllStates w1 else w1.

Definition triggerIdleForDocument (document : TextDocument) (w : World) : World :=
  if negb (isEnabled w) then w else
  let documentKey := getDocumentKey document in
  match documentStates w !! documentKey with
  | Some state =>
      onDocumentIdle documentKey (getText document) (clearStateTimeout state w)
  | None => w
  end.

Definition isTrackingDocument (document : TextDocument) (w : World) : bool :=
  bool_decide (is_Some (documentStates w !! getDocumentKey document)).

Definition getChangeCount (document : TextDocument) (w : World) : nat :=
  match documentStates w !! getDocumentKey document with
  | Some state => changeCount state
  | None => 0
  end.

(** *** The event loop *)

(** The host takes a due timer out of its table and runs the callback. *)
Definition runTimer (t : Timer) (w : World) : World :=
  onDocumentIdle (timerKey t) (timerContent t)
                 (with_timers (filter (fun u => handle u ≠ handle t) (timers w)) w).

Definition isDue (target : nat) (t : Timer) : bool := due t <=? target.

(** Letting [ms] milliseconds pass runs, in firing order, every timer that
    has come due, then leaves the clock at the new instant. *)
Definition elapse (ms : nat) (w : World) : World :=
  let target := clock w + ms in
  with_clock target
    (fold_left (fun acc t => runTimer t acc) (filter (isDue target) (timers w)) w).

(** What can happen to a running detector.  For a document change or close
    the host has already updated its own table of open documents when the
    listener is called. *)
Inductive Action :=
| DidChangeTextDocument (event : TextDocumentChangeEvent)
| DidCloseTextDocument (document : TextDocument)
| DidChangeConfiguration (s : Settings)
| Elapse (ms : nat)
| SetEnabled (enabled : bool)
| TriggerIdle (document : TextDocument).

Definition step `{RegExpEngine} (a : Action) (w : World) : World :=
  match a with
  | DidChangeTextDocument event =>
      onTextDocumentChange event
        (with_documents (<[uri (document event) := document event]> (documents w)) w)
  | DidCloseTextDocument document =>
      onTextDocumentClose document
        (with_documents (delete (uri document) (documents w)) w)
  | DidChangeConfiguration s => onConfigurationChange (with_settings s w)
  | Elapse ms => elapse ms w
  | SetEnabled enabled => setEnabled enabled w
  | TriggerIdle document => triggerIdleForDocument document w
  end.

Definition run `{RegExpEngine} (acts : list Action) (w : World) : World :=
  fold_left (fun acc a => step a acc) acts w.

(** The detector right after its constructor has run. *)
Definition initial (s : Settings) : World :=
  mkWorld s 0 [] 0 ∅ (enabled s) ∅ [].

Inductive reachable `{RegExpEngine} : World -> Prop :=
| reachable_initial s : reachable (initial s)
| reachable_step a w : reachable w -> reachable (step a w).

(** The events fired for one document. *)
Definition eventsFor (k : string) (es : list IdleEvent) : list IdleEvent :=
  filter (fun e => eventDocument e = k) es.

(** The pending timers whose callback targets one document. *)
Definition timersFor (k : string) (ts : list Timer) : list Timer :=
  filter (fun t => timerKey t = k) ts.

End ChatIdleDetector.

(** ** JavaScript string primitives on code-unit lists *)

Module JsString.

Definition lit (s : string) : list ascii := list_ascii_of_string s.

Definition code (c : ascii) : nat := nat_of_ascii c.

Definition between (lo hi : nat) (c : ascii) : bool :=
  (lo <=? code c) && (code c <=? hi).

Definition isUpper (c : ascii) : bool := between 65 90 c.
Definition isLower (c : ascii) : bool := between 97 122 c.
Definition isDigit (c : ascii) : bool := between 48 57 c.

(** [[a-zA-Z]] *)
Definition isAsciiLetter (c : ascii) : bool := isUpper c || isLower c.

(** [\w] *)
Definition isWordChar (c : ascii) : bool :=
  isAsciiLetter c || isDigit c || (code c =? 95).

(** [\s], which is also the set [String.prototype.trim] strips: TAB, LF,
    VT, FF, CR, SPACE and NBSP are the members below 256. *)
Definition isWhiteSpace (c : ascii) : bool :=
  between 9 13 c || (code c =? 32) || (code c =? 160).

(** The complement of [.]: LF and CR are the line terminators below 256. *)
Definition isLineTerminator (c : ascii) : bool :=
  (code c =? 10) || (code c =? 13).

(** [toLowerCase] on one code unit: A-Z, and the Latin-1 capitals
    U+00C0..U+00DE except the multiplication sign U+00D7. *)
Definition toLowerChar (c : ascii) : ascii :=
  if isUpper c || (between 192 222 c && negb (code c =? 215))
  then ascii_of_nat (code c + 32) else c.

Definition toLowerCase (s : list ascii) : list ascii := map toLowerChar s.

(** Case folding of the [i] flag against an ASCII letter of the pattern:
    only A-Z and a-z are identified. *)
Definition foldAscii (c : ascii) : ascii :=
  if isUpper c then ascii_of_nat (code c + 32) else c.

Fixpoint dropWhile (p : ascii -> bool) (s : list ascii) : list ascii :=
  match s with
  | [] => []
  | c :: r => if p c then dropWhile p r else s
  end.

Fixpoint takeWhile (p : ascii -> bool) (s : list ascii) : list ascii :=
  match s with
  | [] => []
  | c :: r => if p c then c :: takeWhile p r else []
  end.

Definition trimStart (s : list ascii) : list ascii := dropWhile isWhiteSpace s.
Definition trimEnd (s : list ascii) : list ascii := rev (dropWhile isWhiteSpace (rev s)).
Definition trim (s : list ascii) : list ascii := trimEnd (trimStart s).

(** [s.startsWith(p)] and the text left after the prefix. *)
Fixpoint stripPrefix (p s : list ascii) : option (list ascii) :=
  match p, s with
  | [], _ => Some s
  | _ :: _, [] => None
  | a :: p', b :: s' => if Ascii.eqb a b then stripPrefix p' s' else None
  end.

Definition startsWith (p s : list ascii) : bool :=
  match stripPrefix p s with Some _ => true | None => false end.

(** [s.split(sep)] for a one-character separator: never empty. *)
Fixpoint split (sep : ascii) (s : list ascii) : list (list ascii) :=
  match s with
  | [] => [[]]
  | c :: r =>
      if Ascii.eqb c sep then [] :: split sep r
      else match split sep r with
           | l :: ls => (c :: l) :: ls
           | [] => [[c]]
           end
  end.

(** [parts.join(sep)] *)
Fixpoint join (sep : list ascii) (parts : list (list ascii)) : list ascii :=
  match parts with
  | [] => []
  | [p] => p
  | p :: rest => p ++ sep ++ join sep rest
  end.

(** [s.substring(a, b)] *)
Definition substring (a b : nat) (s : list ascii) : list ascii :=
  let a' := Nat.min a (length s) in
  let b' := Nat.min b (length s) in
  take (Nat.max a' b' - Nat.min a' b') (drop (Nat.min a' b') s).

Definition LF : ascii := ascii_of_nat 10.

(** *** Pieces of regular expressions

    A piece consumes a prefix of the input and gives back the rest.  The
    greedy pieces below never need to give characters back, because in
    every pattern of the program the piece that follows cannot start with
    a character the greedy piece accepts. *)
Definition Piece := list ascii -> option (list ascii).

Definition literal (p : string) : Piece := stripPrefix (lit p).

(** A literal under the [i] flag; the pattern text is lower-case ASCII. *)
Fixpoint stripPrefixCI (p s : list ascii) : option (list ascii) :=
  match p, s with
  | [], _ => Some s
  | _ :: _, [] => None
  | a :: p', b :: s' => if Ascii.eqb a (foldAscii b) then stripPrefixCI p' s' else None
  end.

Definition literalCI (p : string) : Piece := stripPrefixCI (lit p).

(** [c+] for a character class [c], greedy *)
Definition plus (class : ascii -> bool) : Piece :=
  fun s => match s with
           | c :: r => if class c then Some (dropWhile class r) else None
           | [] => None
           end.

(** [c*] for a character class [c], greedy *)
Definition star (class : ascii -> bool) : Piece :=
  fun s => Some (dropWhile class s).

Definition seq (p q : Piece) : Piece :=
  fun s => match p s with Some r => q r | None => None end.

(** [(a|b|...)]: the first alternative, in order, after which [k] accepts. *)
Definition alt (ps : list Piece) (k : list ascii -> bool) (s : list ascii) : bool :=
  existsb (fun p => match p s with Some r => k r | None => false end) ps.

(** [.*>] greedy: up to the last [>] that no line terminator precedes. *)
Fixpoint dotStarGt (s : list ascii) : option (list ascii) :=
  match s with
  | [] => None
  | c :: r =>
      if isLineTerminator c then None
      else match dotStarGt r with
           | Some r' => Some r'
           | None => if Ascii.eqb c ">" then Some r else None
           end
  end.

(** [.*\]]: some [\]] that no line terminator precedes. *)
Fixpoint dotStarBracket (s : list ascii) : bool :=
  match s with
  | [] => false
  | c :: r =>
      if isLineTerminator c then false
      else Ascii.eqb c "]" || dotStarBracket r
  end.

Definition isWordCharAt (c : option ascii) : bool :=
  match c with Some c => isWordChar c | None => false end.

(** [\b] between the character [prev] (if any) and the head of [s] *)
Definition wordBoundary (prev : option ascii) (s : list ascii) : bool :=
  xorb (isWordCharAt prev) (isWordCharAt (head s)).

(** [\b] right after a matched word character *)
Definition wordEnd (s : list ascii) : bool := negb (isWordCharAt (head s)).

Definition anything (s : list ascii) : bool := true.

(** An unanchored [test]: the pattern [m] is tried at every position,
    [prev] being the character before the position. *)
Fixpoint search (m : option ascii -> list ascii -> bool)
    (prev : option ascii) (s : list ascii) : bool :=
  m prev s ||
  match s with
  | [] => false
  | c :: r => search m (Some c) r
  end.

End JsString.

(** ** src/parse/extractCommands.ts *)

Module ExtractCommands.
Import JsString.

Inductive ShellLanguage := bash | sh | zsh | powershell | pwsh | cmd.

Definition shellLanguageName (l : ShellLanguage) : list ascii :=
  match l with
  | bash => lit "bash"
  | sh => lit "sh"
  | zsh => lit "zsh"
  | powershell => lit "powershell"
  | pwsh => lit "pwsh"
  | cmd => lit "cmd"
  end.

Definition shellLanguages : list ShellLanguage :=
  [bash; sh; zsh; powershell; pwsh; cmd].

(** [shellLanguages.includes(language)], giving the member found, which is
    what [language as ShellLanguage] then denotes. *)
Definition asShellLanguage (language : list ascii) : option ShellLanguage :=
  find (fun l => bool_decide (shellLanguageName l = language)) shellLanguages.

Record Block := mkBlock {
  language : list ascii;
  content : list ascii;
  startIndex : nat;
  endIndex : nat
}.

Record ExtractedCommands := mkExtracted {
  commands : list (list ascii);
  languageHint : option ShellLanguage;
  rawBlocks : list Block
}.

(** *** The fence scan *)

(** [[\s\S]*?```]: the text before the first closing fence. *)
Fixpoint untilFence (s : list ascii) : option (list ascii) :=
  if startsWith (lit "```") s then Some []
  else match s with
       | [] => None
       | c :: r => cons c <$> untilFence r
       end.

(** One attempt of [fencedBlockRegex] at the head of [s]: the captures
    [match[1]] and [match[2]] and the length of [match[0]]. *)
Definition matchFenceAt (s : list ascii) : option (list ascii * list ascii * nat) :=
  match stripPrefix (lit "```") s with
  | None => None
  | Some r1 =>
      let tag := takeWhile isAsciiLetter r1 in
      match dropWhile isAsciiLetter r1 with
      | c :: r3 =>
          if Ascii.eqb c LF then
            match untilFence r3 with
            | Some inner => Some (tag, inner, 3 + length tag + 1 + length inner + 3)
            | None => None
            end
          else None
      | [] => None
      end
  end.

(** The [while ((match = fencedBlockRegex.exec(text)) !== null)] loop.
    [pos] is the index of the head of [s] in the text; [skip] counts the
    characters still covered by the previous match, where the next search
    may not start. *)
Fixpoint scanBlocks (skip pos : nat) (s : list ascii) : list Block :=
  match s with
  | [] => []
  | _ :: r =>
      match skip with
      | S k => scanBlocks k (S pos) r
      | O =>
          match matchFenceAt s with
          | None => scanBlocks 0 (S pos) r
          | Some (tag, inner, len) =>
              let language := toLowerCase tag in
              let content := trim inner in
              let later := scanBlocks (len - 1) (S pos) r in
              match content with
              | [] => later
              | _ :: _ => mkBlock language content pos (pos + len) :: later
              end
          end
      end
  end.

Definition fencedBlocks (text : list ascii) : list Block := scanBlocks 0 0 text.

(** *** looksLikeShellCommands *)

Definition shellPatterns : list (list ascii -> bool) :=
  [ (* /^(npm|yarn|pnpm|bun)\s+/ *)
    alt [literal "npm"; literal "yarn"; literal "pnpm"; literal "bun"]
        (fun r => bool_decide (is_Some (plus isWhiteSpace r)));
    (* /^(git|docker|kubectl)\s+/ *)
    alt [literal "git"; literal "docker"; literal "kubectl"]
        (fun r => bool_decide (is_Some (plus isWhiteSpace r)));
    (* /^(ls|cd|mkdir|rm|cp|mv|cat|grep|find|curl|wget)\b/ *)
    alt [literal "ls"; literal "cd"; literal "mkdir"; literal "rm"; literal "cp";
         literal "mv"; literal "cat"; literal "grep"; literal "find";
         literal "curl"; literal "wget"] wordEnd;
    (* /^(dir|copy|move|del|type)\b/ *)
    alt [literal "dir"; literal "copy"; literal "move"; literal "del";
         literal "type"] wordEnd;
    (* /^[a-zA-Z][a-zA-Z0-9_-]*\s+/ *)
    (fun s => match s with
              | c :: r =>
                  isAsciiLetter c &&
                  bool_decide (is_Some
                    (seq (star (fun x => isWordChar x || (code x =? 45)))
                         (plus isWhiteSpace) r))
              | [] => false
              end);
    (* /^\$\s+/ *)
    (fun s => bool_decide (is_Some (seq (literal "$") (plus isWhiteSpace) s)));
    (* /^PS\s*>\s*/ *)
    (fun s => bool_decide (is_Some
       (seq (literal "PS") (seq (star isWhiteSpace)
            (seq (literal ">") (star isWhiteSpace))) s)));
    (* /^C:\\.*>\s*/ *)
    (fun s => bool_decide (is_Some
       (seq (literal "C:\") (seq dotStarGt (star isWhiteSpace)) s)))
  ].

(** The non-empty trimmed lines of a block. *)
Definition trimmedLines (content : list ascii) : list (list ascii) :=
  filter (fun line => line ≠ []) (map trim (split LF content)).

Definition isCommandLike (line : list ascii) : bool :=
  existsb (fun pattern => pattern line) shellPatterns.

(** The quotient of the two lengths is an exact rational here; both are
    far below 2^53, where the double-precision quotient compares with 0.5
    the same way. *)
Definition looksLikeShellCommands (content : list ascii) : bool :=
  let lines := trimmedLines content in
  if length lines =? 0 then false else
  let commandLikeLines := filter (fun line => isCommandLike line = true) lines in
  let ratio := Qdiv (inject_Z (Z.of_nat (length commandLikeLines)))
                    (inject_Z (Z.of_nat (length lines))) in
  negb (Qle_bool ratio (1 # 2)).

(** *** parseCommandsFromBlock *)

(** [line.replace(/^\$\s+/, '')] *)
Definition stripBashPrompt (line : list ascii) : list ascii :=
  match seq (literal "$") (plus isWhiteSpace) line with
  | Some r => r
  | None => line
  end.

(** [line.replace(/^PS\s*>\s*/, '')] *)
Definition stripPowerShellPrompt (line : list ascii) : list ascii :=
  match seq (literal "PS") (seq (star isWhiteSpace)
             (seq (literal ">") (star isWhiteSpace))) line with
  | Some r => r
  | None => line
  end.

(** [line.replace(/^C:\\.*>\s*/, '')] *)
Definition stripCmdPrompt (line : list ascii) : list ascii :=
  match seq (literal "C:\") (seq dotStarGt (star isWhiteSpace)) line with
  | Some r => r
  | None => line
  end.

(** [line.replace(/^>\s+/, '')] *)
Definition stripGenericPrompt (line : list ascii) : list ascii :=
  match seq (literal ">") (plus isWhiteSpace) line with
  | Some r => r
  | None => line
  end.

(** [/^(\s*\||\s*\+|\s*-|\s*\*|\s*>|\s*<)/.test(line)] *)
Definition looksLikeOutput (line : list ascii) : bool :=
  match dropWhile isWhiteSpace line with
  | c :: _ => existsb (Ascii.eqb c) (lit "|+-*><")
  | [] => false
  end.

(** One turn of the [for] loop: the command pushed, if any. *)
Definition parseLine (line : list ascii) : option (list ascii) :=
  let line := trim line in
  if bool_decide (line = []) || startsWith (lit "#") line || startsWith (lit "//") line
  then None else
  let line := stripBashPrompt line in
  let line := stripPowerShellPrompt line in
  let line := stripCmdPrompt line in
  let line := stripGenericPrompt line in
  if bool_decide (line = []) then None else
  if looksLikeOutput line then None else
  Some line.

Definition parseCommandsFromBlock (content : list ascii) : list (list ascii) :=
  fold_left
    (fun commands line =>
       match parseLine line with
       | Some command => commands ++ [command]
       | None => commands
       end)
    (split LF content) [].

(** *** inferShellLanguage *)

Definition powerShellVerb : option ascii -> list ascii -> bool :=
  (* /\b(get-|set-|new-|remove-|invoke-|test-|start-|stop-)/ *)
  fun prev s =>
    wordBoundary prev s &&
    alt [literal "get-"; literal "set-"; literal "new-"; literal "remove-";
         literal "invoke-"; literal "test-"; literal "start-"; literal "stop-"]
        anything s.

Definition variableAssignment : option ascii -> list ascii -> bool :=
  (* /\$\w+\s*=/ *)
  fun _ s =>
    bool_decide (is_Some
      (seq (literal "$") (seq (plus isWordChar) (seq (star isWhiteSpace) (literal "="))) s)).

Definition bracketPair : option ascii -> list ascii -> bool :=
  (* /\[.*\]/ *)
  fun _ s => match s with
             | c :: r => Ascii.eqb c "[" && dotStarBracket r
             | [] => false
             end.

Definition cmdBuiltin : option ascii -> list ascii -> bool :=
  (* /\b(dir|copy|move|del|type|echo\s+off|set\s+\w+=)/ *)
  fun prev s =>
    wordBoundary prev s &&
    alt [literal "dir"; literal "copy"; literal "move"; literal "del"; literal "type";
         seq (literal "echo") (seq (plus isWhiteSpace) (literal "off"));
         seq (literal "set") (seq (plus isWhiteSpace) (seq (plus isWordChar) (literal "=")))]
        anything s.

Definition unixBuiltin : option ascii -> list ascii -> bool :=
  (* /\b(ls|cd|mkdir|rm|cp|mv|cat|grep|find|chmod|chown)/ *)
  fun prev s =>
    wordBoundary prev s &&
    alt [literal "ls"; literal "cd"; literal "mkdir"; literal "rm"; literal "cp";
         literal "mv"; literal "cat"; literal "grep"; literal "find";
         literal "chmod"; literal "chown"]
        anything s.

Definition inferShellLanguage (commands : list (list ascii)) : option ShellLanguage :=
  let allCommands := toLowerCase (join (lit " ") commands) in
  if search powerShellVerb None allCommands
     || search variableAssignment None allCommands
     || search bracketPair None allCommands
  then Some powershell
  else if search cmdBuiltin None allCommands then Some cmd
  else if search unixBuiltin None allCommands then Some bash
  else Some bash.

(** *** extractCommands *)

Definition isShellBlock (block : Block) : bool :=
  bool_decide (is_Some (asShellLanguage (language block))).

Definition genericLanguages : list (list ascii) :=
  [lit "text"; lit "plain"; lit "terminal"; lit "console"; lit "shell"].

(** [!block.language || [...].includes(block.language)] *)
Definition isGenericBlock (block : Block) : bool :=
  bool_decide (language block = []) ||
  existsb (fun g => bool_decide (g = language block)) genericLanguages.

Definition executionKeywords : option ascii -> list ascii -> bool :=
  (* /\b(run|execute|command|terminal|shell|type|enter)\b/i *)
  fun prev s =>
    wordBoundary prev s &&
    alt [literalCI "run"; literalCI "execute"; literalCI "command";
         literalCI "terminal"; literalCI "shell"; literalCI "type"; literalCI "enter"]
        wordEnd s.

Definition isKeywordPreceded (text : list ascii) (block : Block) : bool :=
  let beforeBlock :=
    substring (Nat.max 0 (startIndex block - 200)) (startIndex block) text in
  search executionKeywords None beforeBlock && looksLikeShellCommands (content block).

(** The three stages of the fallback chain, each as the filter the code
    applies to the scanned blocks. *)
Definition stageA (blocks : list Block) : list Block :=
  filter (fun block => isShellBlock block = true) blocks.

Definition stageB (blocks : list Block) : list Block :=
  filter (fun block => looksLikeShellCommands (content block) = true)
         (filter (fun block => isGenericBlock block = true) blocks).

Definition stageC (text : list ascii) (blocks : list Block) : list Block :=
  filter (fun block => isKeywordPreceded text block = true) blocks.

Definition candidates (text : list ascii) (blocks : list Block) : list Block :=
  let shellBlocks := stageA blocks in
  let candidateBlocks := shellBlocks in
  let candidateBlocks :=
    if length candidateBlocks =? 0 then stageB blocks else candidateBlocks in
  let candidateBlocks :=
    if length candidateBlocks =? 0 then stageC text blocks else candidateBlocks in
  candidateBlocks.

(** The body of the loop over [targetBlocks], on the pair of the commands
    and the hint gathered so far. *)
Definition addBlock (acc : list (list ascii) * option ShellLanguage) (block : Block)
  : list (list ascii) * option ShellLanguage :=
  let '(cmds, hint) := acc in
  let cmds := cmds ++ parseCommandsFromBlock (content block) in
  let hint :=
    match hint, asShellLanguage (language block) with
    | None, Some l => Some l
    | _, _ => hint
    end in
  (cmds, hint).

Definition extractCommands (text : list ascii) (recentTextOnly : bool) : ExtractedCommands :=
  let blocks := fencedBlocks text in
  let candidateBlocks := candidates text blocks in
  if length candidateBlocks =? 0 then mkExtracted [] None candidateBlocks else
  let targetBlocks :=
    if recentTextOnly
    then match last candidateBlocks with Some b => [b] | None => [] end
    else candidateBlocks in
  let '(cmds, hint) := fold_left addBlock targetBlocks ([], None) in
  let hint :=
    match hint with
    | None => if 0 <? length cmds then inferShellLanguage cmds else None
    | Some _ => hint
    end in
  mkExtracted cmds hint candidateBlocks.

Definition extractCommandsFromDiff (oldText newText : list ascii) : ExtractedCommands :=
  if length oldText <? length newText
  then extractCommands (substring (length oldText) (length newText) newText) true
  else extractCommands newText true.

End ExtractCommands.

(** ** src/detection/chatIdleDetector.ts, the debugging interface *)

Module ChatIdleDetectorDebug.
Import Vscode Js Config ChatIdleDetector.

Record DebugInfo := mkDebugInfo {
  debugEnabled : bool;
  trackedDocuments : nat;
  activeTimeouts : nat
}.

(** [getDebugInfo()]: the loop counts the entries whose [timeout] is set. *)
Definition getDebugInfo (w : World) : DebugInfo :=
  let activeTimeouts :=
    foldr (fun '(_, state) count =>
             match timeout state with
             | Some _ => S count
             | None => count
             end)
          0 (map_to_list (documentStates w)) in
  mkDebugInfo (isEnabled w) (size (documentStates w)) activeTimeouts.

End ChatIdleDetectorDebug.

(** ** src/parse/extractCommands.ts, the description of a result *)

Module CommandDescription.
Import JsString ExtractCommands.

(** [getCommandDescription(extracted)].  A number is rendered in decimal;
    [languageHint || 'shell'] is the hint whenever there is one, since no
    hint is the empty string; [if (cmd)] tests that the command [cmd] is not
    the empty string. *)
Definition getCommandDescription (extracted : ExtractedCommands) : list ascii :=
  if length (commands extracted) =? 0 then lit "No commands found" else
  let commandCount := length (commands extracted) in
  let language :=
    match languageHint extracted with
    | Some l => shellLanguageName l
    | None => lit "shell"
    end in
  let plural :=
    lit "Run " ++ lit (pretty commandCount) ++ lit " " ++ language ++ lit " commands" in
  if commandCount =? 1 then
    match commands extracted with
    | command :: _ =>
        if bool_decide (command = []) then plural else
        let shortCmd :=
          if 50 <? length command then substring 0 47 command ++ lit "..."
          else command in
        lit "Run " ++ language ++ lit " command: " ++ shortCmd
    | [] => plural
    end
  else plural.

End CommandDescription.

(** ** src/terminal/terminalRunner.ts *)

Module TerminalRunner.
Import JsString ExtractCommands.

(** [preprocessCommand(command, languageHint)].  Every branch of the
    [switch] on the hint is empty, on Windows as elsewhere, so neither the
    hint nor the platform reaches the result.  [lines[0]] is tested for
    being a non-empty string. *)
Definition preprocessCommand (isWindows : bool) (command : list ascii)
    (languageHint : option ShellLanguage) : list ascii :=
  let processedCommand := trim command in
  if existsb (Ascii.eqb LF) processedCommand then
    let lines :=
      filter (fun line => line ≠ []) (map trim (split LF processedCommand)) in
    match lines with
    | first :: _ => if bool_decide (first = []) then processedCommand else first
    | [] => processedCommand
    end
  else processedCommand.

(** A terminal object of the host is referred to by a number; its name
    and its [exitStatus] ([None] while it runs) are read through the host,
    as is the list [vscode.window.terminals]. *)
Record TerminalHost := mkTerminalHost {
  terminalName : nat -> string;
  exitStatus : nat -> option Z;
  windowTerminals : list nat;
  nextTerminal : nat
}.

Definition isAlive (host : TerminalHost) (t : nat) : bool :=
  bool_decide (exitStatus host t = None).

(** [vscode.window.createTerminal({ name, cwd })]: a new running terminal
    with that name joins the terminals of the window.  The working
    directory plays no part in what follows. *)
Definition createTerminal (name : string) (host : TerminalHost) : nat * TerminalHost :=
  let t := nextTerminal host in
  (t, mkTerminalHost
        (fun i => if decide (i = t) then name else terminalName host i)
        (fun i => if decide (i = t) then None else exitStatus host i)
        (windowTerminals host ++ [t])
        (S t)).

(** [getOrCreateTerminal()], given the configured terminal name: the
    terminal returned, the map [this.terminals] and the host afterwards. *)
Definition getOrCreateTerminal (name : string) (terminals : gmap string nat)
    (host : TerminalHost) : nat * gmap string nat * TerminalHost :=
  let reuseOrCreate :=
    match find (fun t => bool_decide (terminalName host t = name) && isAlive host t)
               (windowTerminals host) with
    | Some existingTerminal => (existingTerminal, <[name := existingTerminal]> terminals, host)
    | None =>
        let '(newTerminal, host') := createTerminal name host in
        (newTerminal, <[name := newTerminal]> terminals, host')
    end in
  match terminals !! name with
  | Some cachedTerminal =>
      if isAlive host cachedTerminal then (cachedTerminal, terminals, host)
      else reuseOrCreate
  | None => reuseOrCreate
  end.

End TerminalRunner.

(** ** src/terminal/taskRunner.ts *)

Module TaskRunner.
Import JsString ExtractCommands.

Definition DQUOTE : ascii := ascii_of_nat 34.

(** [escapeForBash(command)]: the global [replace] puts a backslash before
    every double quote and leaves every other character as it is. *)
Definition escapeForBash (command : list ascii) : list ascii :=
  flat_map (fun c => if Ascii.eqb c DQUOTE then lit "\" ++ [DQUOTE] else [c]) command.

(** A [vscode.Task] as far as the runner looks at it. *)
Record Task := mkTask {
  taskName : string;
  taskSource : string
}.

Record TaskInfo := mkTaskInfo {
  infoCommands : list (list ascii);
  startTime : nat
}.

Record TaskCompletionEvent := mkTaskCompletionEvent {
  completedTask : Task;
  completedExitCode : option Z;
  success : bool;
  completedCommands : list (list ascii)
}.

(** [vscode.TaskProcessEndEvent]: [e.execution.task] and [e.exitCode]. *)
Record TaskProcessEndEvent := mkTaskProcessEndEvent {
  endedTask : Task;
  exitCode : option Z
}.

(** The fields of the runner the handlers use, with the events fired on
    [onTaskCompletionEmitter]. *)
Record Runner := mkRunner {
  taskCounter : nat;
  runningTasks : gmap string TaskInfo;
  completions : list TaskCompletionEvent
}.

Definition onTaskProcessEnd (e : TaskProcessEndEvent) (r : Runner) : Runner :=
  let task := endedTask e in
  if bool_decide (taskSource task ≠ "VibeNotify") then r else
  match runningTasks r !! taskName task with
  | None => r
  | Some taskInfo =>
      let success := bool_decide (exitCode e = Some 0%Z) in
      mkRunner (taskCounter r) (delete (taskName task) (runningTasks r))
               (completions r
                ++ [mkTaskCompletionEvent task (exitCode e) success
                                          (infoCommands taskInfo)])
  end.

Definition hasRunningTasks (r : Runner) : bool := 0 <? size (runningTasks r).

End TaskRunner.

(** ** Concrete inputs used by the examples *)

Module Examples.
Import Vscode Js Config ChatIdleDetector.

Fixpoint includes (p s : string) : bool :=
  String.prefix p s ||
  match s with
  | EmptyString => false
  | String _ r => includes p r
  end.

Definition isMetaChar (c : ascii) : bool :=
  existsb (Ascii.eqb c) (list_ascii_of_string "\^$.|?*+()[]{}").

(** An engine for the patterns of the examples: a pattern without
    metacharacters is searched for as a substring, which is what it means
    in JavaScript; a pattern with metacharacters is refused, as JavaScript
    refuses the unterminated group ["("]. *)
Definition literalEngine : RegExpEngine :=
  {| RegExp := string;
     compile := fun p => if existsb isMetaChar (list_ascii_of_string p)
                         then None else Some p;
     RegExp_test := fun r s => includes r s |}.

Definition brokenMatcher : ChatMatcher := mkChatMatcher "(" "" "".
Definition chatMatcher : ChatMatcher := mkChatMatcher "chat" "" "".

Definition demoSettings : Settings :=
  mkSettings true 1500 [brokenMatcher; chatMatcher].

Definition chatDoc (v : nat) (text : string) : TextDocument :=
  mkTextDocument "vscode-chat:/session1" "copilot-chat" "vscode-chat" "/session1" v text.

Definition notesDoc (v : nat) (text : string) : TextDocument :=
  mkTextDocument "file:///notes.txt" "plaintext" "file" "/notes.txt" v text.

Definition edit (d : TextDocument) : Action :=
  DidChangeTextDocument (mkChangeEvent d 1).

End Examples.

(** ** Notions used to state the properties *)

Module DetectorSpec.
Import Vscode Js Config ChatIdleDetector.

(** The link between the detector's table and the host's timers. *)
Record Inv (w : World) : Prop := mkInv {
  inv_owner : ∀ t, t ∈ timers w →
    ∃ st, documentStates w !! timerKey t = Some st ∧ timeout st = Some (handle t);
  inv_live : ∀ k st h, documentStates w !! k = Some st → timeout st = Some h →
    ∃ t, t ∈ timers w ∧ handle t = h ∧ timerKey t = k;
  inv_fresh : ∀ t, t ∈ timers w → handle t < nextHandle w;
  inv_nodup : NoDup (map handle (timers w));
  inv_idle : ∀ k st, documentStates w !! k = Some st → timeout st = None →
    changeCount st = 0;
  inv_source : ∀ k st, documentStates w !! k = Some st → source st = k
}.

(** The entry left behind by [onDocumentIdle]. *)
Definition rested (st : DocumentState) (content : string) : DocumentState :=
  mkDocumentState None (lastLength st) (lastVersion st) content 0 (source st).

(** The event the callback of timer [t] fires in world [w]. *)
Definition idleEventOf (w : World) (t : Timer) : option IdleEvent :=
  st ← documentStates w !! timerKey t;
  Some (mkIdleEvent (source st) (lastContent st) (timerContent t) (changeCount st)).

(** Two worlds that differ at most in the detector's table, the timers and
    the fired events. *)
Definition sameHost (w w' : World) : Prop :=
  settings w' = settings w ∧ clock w' = clock w ∧ nextHandle w' = nextHandle w ∧
  documents w' = documents w ∧ isEnabled w' = isEnabled w.

(** Whether [onTextDocumentChange] goes past its three early returns. *)
Definition accepted `{RegExpEngine} (event : TextDocumentChangeEvent) (w : World) : bool :=
  isEnabled w &&
  match fst (matchesChat (chatMatchers (settings w)) (document event)) with
  | Normal true => true
  | _ => false
  end &&
  negb (contentChanges event =? 0).

(** The entry written by an accepted change. *)
Definition armed (old : option DocumentState) (d : TextDocument) (h : nat) : DocumentState :=
  match old with
  | None => mkDocumentState (Some h) (String.length (getText d)) (version d) (getText d) 1 (uri d)
  | Some st => mkDocumentState (Some h) (String.length (getText d)) (version d)
                               (lastContent st) (S (changeCount st)) (uri d)
  end.

(** Whether an action is a change notification for document [k]. *)
Definition changes (k : string) (a : Action) : bool :=
  match a with
  | DidChangeTextDocument event => bool_decide (uri (document event) = k)
  | _ => false
  end.

(** A burst of edits to one document: a first change, then further changes
    each preceded by the time elapsed since the one before. *)
Definition burst (first : TextDocumentChangeEvent)
    (rest : list (nat * TextDocumentChangeEvent)) : list Action :=
  DidChangeTextDocument first
  :: flat_map (fun '(gap, event) => [Elapse gap; DidChangeTextDocument event]) rest.

(** An edit of the burst: for document [k], accepted by the detector, and
    arriving before the silence period is over. *)
Definition inBurst `{RegExpEngine} (k : string) (w : World)
    (step : nat * TextDocumentChangeEvent) : Prop :=
  fst step < silenceMs (settings w) ∧
  uri (document (snd step)) = k ∧
  accepted (snd step) w = true.

(** Every pending timer of document [k] holds the text the document has
    now in the host. *)
Definition holdsLiveText (k : string) (w : World) : Prop :=
  ∀ t, t ∈ timers w → timerKey t = k →
       ∃ d, documents w !! k = Some d ∧ timerContent t = getText d.

(** The chat document is edited, the matchers are then emptied in the
    settings, and the document is edited again: the second edit is not
    tracked and the timer armed by the first keeps running. *)
Definition staleWorld : World :=
  run (H := Examples.literalEngine)
      [Examples.edit (Examples.chatDoc 1 "hello");
       DidChangeConfiguration (mkSettings true 1500 []);
       Examples.edit (Examples.chatDoc 2 "hello world")]
      (initial Examples.demoSettings).

(** A configured silence period of 2^31 ms, one more than the host's
    timers wait. *)
Definition overlongSilence : nat := Z.to_nat 2147483648.

(** The document an action is about, for the actions about one document. *)
Definition concerns (a : Action) : option string :=
  match a with
  | DidChangeTextDocument event => Some (uri (document event))
  | DidCloseTextDocument document => Some (uri document)
  | TriggerIdle document => Some (uri document)
  | _ => None
  end.

(** The last edit of a burst. *)
Definition lastEdit (first : TextDocumentChangeEvent)
    (rest : list (nat * TextDocumentChangeEvent)) : TextDocumentChangeEvent :=
  default first (last (map snd rest)).

End DetectorSpec.

Module ExtractSpec.
Import JsString ExtractCommands.

Definition noLead (s : list ascii) : Prop :=
  match s with
  | c :: _ => isWhiteSpace c = false
  | [] => True
  end.

Definition noTrail (s : list ascii) : Prop := noLead (rev s).

(** A line is clean when it neither starts nor ends with white space. *)
Definition Clean (s : list ascii) : Prop := noLead s ∧ noTrail s.

(** The tag of the first target block that carries a recognised one. *)
Definition firstTag (bs : list Block) : option ShellLanguage :=
  head (omap (fun b => asShellLanguage (language b)) bs).

(** The blocks the commands are taken from. *)
Definition targetBlocks (text : list ascii) (recentTextOnly : bool) : list Block :=
  let candidateBlocks := candidates text (fencedBlocks text) in
  if recentTextOnly
  then match last candidateBlocks with Some b => [b] | None => [] end
  else candidateBlocks.

Definition twoBlocks : list ascii :=
  lit "Install:" ++ [LF] ++ lit "```bash" ++ [LF] ++ lit "npm install" ++ [LF]
  ++ lit "```" ++ [LF] ++ lit "then" ++ [LF] ++ lit "```sh" ++ [LF]
  ++ lit "$ npm run build" ++ [LF] ++ lit "npm test" ++ [LF] ++ lit "```".

Definition commentOnly : list ascii :=
  lit "```bash" ++ [LF] ++ lit "# just a comment" ++ [LF] ++ lit "```".

End ExtractSpec.

Module ExtraSpec.
Import JsString ExtractCommands TaskRunner.

Definition BACKTICK : ascii := ascii_of_nat 96.

(** The slice of the text between the offsets of a block is a complete
    fence around the block. *)
Definition delimitsFence (text : list ascii) (b : Block) : Prop :=
  ∃ tag inner,
    substring (startIndex b) (endIndex b) text
    = lit "```" ++ tag ++ LF :: inner ++ lit "```" ∧
    Forall (fun c => isAsciiLetter c = true) tag ∧
    language b = toLowerCase tag ∧
    content b = trim inner ∧ content b ≠ [].

Definition BACKSLASH : ascii := ascii_of_nat 92.

(** Every double quote of [s] comes right after a backslash, [prev] being
    the character before [s]. *)
Fixpoint quotesEscaped (prev : option ascii) (s : list ascii) : Prop :=
  match s with
  | [] => True
  | c :: r => (c = DQUOTE → prev = Some BACKSLASH) ∧ quotesEscaped (Some c) r
  end.

(** The runner after the host has delivered the end events [es], in that
    order, to [onTaskProcessEnd]. *)
Definition afterEnds (es : list TaskProcessEndEvent) (r : Runner) : Runner :=
  foldl (fun r e => onTaskProcessEnd e r) r es.

End ExtraSpec.

(** * Properties of the detector *)

Module DetectorProps.
Import Vscode Js Config ChatIdleDetector DetectorSpec.

Lemma filter_ext_elem {A} (P Q : A → Prop) `{!∀ x, Decision (P x), !∀ x, Decision (Q x)}
    (l : list A) :
  (∀ x, x ∈ l → P x ↔ Q x) → filter P l = filter Q l.
Proof.
  induction l as [|a l IH]; intros Hiff; [done|].
  assert (filter P l = filter Q l) as Hl.
  { apply IH. intros x Hx. apply Hiff. by right. }
  pose proof (Hiff a ltac:(left)) as Ha.
  destruct (decide (P a)).
  - rewrite !filter_cons_True by tauto. by rewrite Hl.
  - rewrite !filter_cons_False by tauto. done.
Qed.

Lemma filter_all {A} (P : A → Prop) `{!∀ x, Decision (P x)} (l : list A) :
  (∀ x, x ∈ l → P x) → filter P l = l.
Proof.
  induction l as [|a l IH]; intros Hall; [done|].
  rewrite filter_cons_True by (apply Hall; left).
  f_equal. apply IH. intros x Hx. apply Hall. by right.
Qed.

Lemma schedule_perm t ts : schedule t ts ≡ₚ t :: ts.
Proof.
  induction ts as [|u r IH]; simpl; [done|].
  destruct (due t <? due u); [done|].
  rewrite IH. apply Permutation_swap.
Qed.

Lemma elem_of_schedule t u ts : u ∈ schedule t ts ↔ u = t ∨ u ∈ ts.
Proof. rewrite schedule_perm. apply elem_of_cons. Qed.

Lemma timersFor_schedule_eq k t ts :
  timerKey t = k → timersFor k ts = [] → timersFor k (schedule t ts) = [t].
Proof.
  intros Hk. unfold timersFor. induction ts as [|u r IH]; simpl; intros Hnil.
  - rewrite filter_cons_True; done.
  - destruct (decide (timerKey u = k)) as [Hu|Hu].
    + rewrite filter_cons_True in Hnil; done.
    + rewrite filter_cons_False in Hnil by done.
      destruct (due t <? due u).
      * rewrite filter_cons_True by done. rewrite filter_cons_False by done.
        by rewrite Hnil.
      * rewrite filter_cons_False by done. by apply IH.
Qed.

Lemma timersFor_schedule_ne k t ts :
  timerKey t ≠ k → timersFor k (schedule t ts) = timersFor k ts.
Proof.
  intros Hk. unfold timersFor. induction ts as [|u r IH]; simpl.
  - rewrite filter_cons_False; done.
  - destruct (due t <? due u).
    + rewrite (filter_cons_False _ t) by done. done.
    + destruct (decide (timerKey u = k)).
      * rewrite !filter_cons_True by done. by rewrite IH.
      * rewrite !filter_cons_False by done. done.
Qed.

(** Two pending timers with the same handle are the same timer. *)
Lemma handle_inj (ts : list Timer) t u :
  NoDup (map handle ts) → t ∈ ts → u ∈ ts → handle t = handle u → t = u.
Proof.
  induction ts as [|x r IH]; simpl; intros Hnd Ht Hu Heq.
  - by apply elem_of_nil in Ht.
  - apply NoDup_cons in Hnd as [Hx Hnd].
    apply elem_of_cons in Ht as [->|Ht]; apply elem_of_cons in Hu as [->|Hu].
    + done.
    + exfalso. apply Hx. rewrite Heq. by apply list_elem_of_fmap_2.
    + exfalso. apply Hx. rewrite <- Heq. by apply list_elem_of_fmap_2.
    + by apply IH.
Qed.

(** Under the invariant a document owns its timer: the timers of a key are
    the timers carrying the handle stored for that key. *)
Lemma key_of_handle w t u :
  Inv w → t ∈ timers w → u ∈ timers w → timerKey t = timerKey u → t = u.
Proof.
  intros HI Ht Hu Hk.
  destruct (inv_owner w HI t Ht) as (st & Hst & Hto).
  destruct (inv_owner w HI u Hu) as (st' & Hst' & Hto').
  rewrite Hk in Hst. rewrite Hst in Hst'. injection Hst' as <-.
  rewrite Hto in Hto'. injection Hto' as Hh.
  by eapply handle_inj; [apply (inv_nodup w HI)|..].
Qed.

Lemma filter_handle_key w t :
  Inv w → t ∈ timers w →
  filter (fun u => handle u ≠ handle t) (timers w)
  = filter (fun u => timerKey u ≠ timerKey t) (timers w).
Proof.
  intros HI Ht. apply filter_ext_elem. intros u Hu. split; intros Hne Heq; apply Hne.
  - by rewrite (key_of_handle w u t HI Hu Ht Heq).
  - assert (u = t) as ->; [|done].
    by eapply handle_inj; [apply (inv_nodup w HI)|..].
Qed.

Lemma NoDup_map_filter {A B} (f : A → B) (P : A → Prop) `{!∀ x, Decision (P x)}
    (l : list A) :
  NoDup (map f l) → NoDup (map f (filter P l)).
Proof.
  induction l as [|a l IH]; simpl; intros Hnd; [done|].
  apply NoDup_cons in Hnd as [Ha Hnd].
  destruct (decide (P a)).
  - rewrite filter_cons_True by done. simpl. apply NoDup_cons. split; [|by apply IH].
    intros Hin. apply Ha. apply list_elem_of_fmap in Hin as (x & -> & Hx).
    apply list_elem_of_filter in Hx as [_ Hx]. by apply list_elem_of_fmap_2.
  - rewrite filter_cons_False by done. by apply IH.
Qed.

(** Removing the timers of a document nobody tracks removes nothing. *)
Lemma filter_key_untracked w k :
  Inv w → documentStates w !! k = None →
  filter (fun u => timerKey u ≠ k) (timers w) = timers w.
Proof.
  intros HI Hk. apply filter_all. intros u Hu Heq.
  destruct (inv_owner w HI u Hu) as (st & Hst & _). congruence.
Qed.

Lemma clearStateTimeout_timers w k st :
  Inv w → documentStates w !! k = Some st →
  timers (clearStateTimeout st w) = filter (fun u => timerKey u ≠ k) (timers w).
Proof.
  intros HI Hk. unfold clearStateTimeout. destruct (timeout st) as [h|] eqn:Hto.
  - destruct (inv_live w HI k st h Hk Hto) as (t & Ht & Hh & Hkey).
    simpl. rewrite <- Hh, <- Hkey. by apply filter_handle_key.
  - symmetry. apply filter_all. intros u Hu Heq.
    destruct (inv_owner w HI u Hu) as (st' & Hst' & Hto'). congruence.
Qed.

Lemma clearStateTimeout_fields st w :
  settings (clearStateTimeout st w) = settings w ∧
  clock (clearStateTimeout st w) = clock w ∧
  nextHandle (clearStateTimeout st w) = nextHandle w ∧
  documents (clearStateTimeout st w) = documents w ∧
  isEnabled (clearStateTimeout st w) = isEnabled w ∧
  documentStates (clearStateTimeout st w) = documentStates w ∧
  emitted (clearStateTimeout st w) = emitted w.
Proof. unfold clearStateTimeout. by destruct (timeout st). Qed.

(** Arming: the document's timers are gone, a fresh one is scheduled and
    its handle stored. *)
Lemma inv_arm w w' k st' t :
  Inv w →
  timers w' = schedule t (filter (fun u => timerKey u ≠ k) (timers w)) →
  documentStates w' = <[k := st']> (documentStates w) →
  nextHandle w' = S (nextHandle w) →
  handle t = nextHandle w → timerKey t = k →
  timeout st' = Some (nextHandle w) → source st' = k →
  Inv w'.
Proof.
  intros HI Hts Hst Hnh Hh Hk Hto Hsrc. split.
  - intros u Hu. rewrite Hts in Hu. apply elem_of_schedule in Hu as [->|Hu].
    + exists st'. rewrite Hst, Hk, lookup_insert_eq, Hh. done.
    + apply list_elem_of_filter in Hu as [Hne Hu].
      destruct (inv_owner w HI u Hu) as (st & Hlk & Hto').
      exists st. by rewrite Hst, lookup_insert_ne.
  - intros k' st h Hlk Hto'. rewrite Hst in Hlk.
    destruct (decide (k = k')) as [<-|Hne].
    + rewrite lookup_insert_eq in Hlk. injection Hlk as <-.
      exists t. rewrite Hts, elem_of_schedule. split; [by left|]. split; congruence.
    + rewrite lookup_insert_ne in Hlk by done.
      destruct (inv_live w HI k' st h Hlk Hto') as (u & Hu & Hhu & Hku).
      exists u. split; [|done]. rewrite Hts, elem_of_schedule. right.
      apply list_elem_of_filter. split; [congruence|done].
  - intros u Hu. rewrite Hts in Hu. rewrite Hnh.
    apply elem_of_schedule in Hu as [->|Hu]; [lia|].
    apply list_elem_of_filter in Hu as [_ Hu]. pose proof (inv_fresh w HI u Hu). lia.
  - rewrite Hts. rewrite (fmap_Permutation handle _ _ (schedule_perm _ _)).
    simpl. apply NoDup_cons. split.
    + intros Hin. apply list_elem_of_fmap in Hin as (u & Hhu & Hu).
      apply list_elem_of_filter in Hu as [_ Hu]. pose proof (inv_fresh w HI u Hu). lia.
    + apply NoDup_map_filter, (inv_nodup w HI).
  - intros k' st Hlk Hto'. rewrite Hst in Hlk.
    destruct (decide (k = k')) as [<-|Hne].
    + rewrite lookup_insert_eq in Hlk. congruence.
    + rewrite lookup_insert_ne in Hlk by done. by eapply (inv_idle w HI).
  - intros k' st Hlk. rewrite Hst in Hlk.
    destruct (decide (k = k')) as [<-|Hne].
    + rewrite lookup_insert_eq in Hlk. congruence.
    + rewrite lookup_insert_ne in Hlk by done. by eapply (inv_source w HI).
Qed.

(** Going idle: the document's timers are gone and its entry records that. *)
Lemma inv_rest w w' k st' :
  Inv w →
  timers w' = filter (fun u => timerKey u ≠ k) (timers w) →
  documentStates w' = <[k := st']> (documentStates w) →
  nextHandle w' = nextHandle w →
  timeout st' = None → changeCount st' = 0 → source st' = k →
  Inv w'.
Proof.
  intros HI Hts Hst Hnh Hto Hcnt Hsrc. split.
  - intros u Hu. rewrite Hts in Hu.
    apply list_elem_of_filter in Hu as [Hne Hu].
    destruct (inv_owner w HI u Hu) as (st & Hlk & Hto').
    exists st. by rewrite Hst, lookup_insert_ne.
  - intros k' st h Hlk Hto'. rewrite Hst in Hlk.
    destruct (decide (k = k')) as [<-|Hne].
    + rewrite lookup_insert_eq in Hlk. congruence.
    + rewrite lookup_insert_ne in Hlk by done.
      destruct (inv_live w HI k' st h Hlk Hto') as (u & Hu & Hhu & Hku).
      exists u. split; [|done]. rewrite Hts.
      apply list_elem_of_filter. split; [congruence|done].
  - intros u Hu. rewrite Hts in Hu. rewrite Hnh.
    apply list_elem_of_filter in Hu as [_ Hu]. by apply (inv_fresh w HI).
  - rewrite Hts. apply NoDup_map_filter, (inv_nodup w HI).
  - intros k' st Hlk Hto'. rewrite Hst in Hlk.
    destruct (decide (k = k')) as [<-|Hne].
    + rewrite lookup_insert_eq in Hlk. congruence.
    + rewrite lookup_insert_ne in Hlk by done. by eapply (inv_idle w HI).
  - intros k' st Hlk. rewrite Hst in Hlk.
    destruct (decide (k = k')) as [<-|Hne].
    + rewrite lookup_insert_eq in Hlk. congruence.
    + rewrite lookup_insert_ne in Hlk by done. by eapply (inv_source w HI).
Qed.

(** Dropping: the document's timers and its entry are both gone. *)
Lemma inv_drop w w' k :
  Inv w →
  timers w' = filter (fun u => timerKey u ≠ k) (timers w) →
  documentStates w' = delete k (documentStates w) →
  nextHandle w' = nextHandle w →
  Inv w'.
Proof.
  intros HI Hts Hst Hnh. split.
  - intros u Hu. rewrite Hts in Hu.
    apply list_elem_of_filter in Hu as [Hne Hu].
    destruct (inv_owner w HI u Hu) as (st & Hlk & Hto').
    exists st. by rewrite Hst, lookup_delete_ne.
  - intros k' st h Hlk Hto'. rewrite Hst in Hlk.
    destruct (decide (k = k')) as [<-|Hne].
    + by rewrite lookup_delete_eq in Hlk.
    + rewrite lookup_delete_ne in Hlk by done.
      destruct (inv_live w HI k' st h Hlk Hto') as (u & Hu & Hhu & Hku).
      exists u. split; [|done]. rewrite Hts.
      apply list_elem_of_filter. split; [congruence|done].
  - intros u Hu. rewrite Hts in Hu. rewrite Hnh.
    apply list_elem_of_filter in Hu as [_ Hu]. by apply (inv_fresh w HI).
  - rewrite Hts. apply NoDup_map_filter, (inv_nodup w HI).
  - intros k' st Hlk Hto'. rewrite Hst in Hlk.
    destruct (decide (k = k')) as [<-|Hne].
    + by rewrite lookup_delete_eq in Hlk.
    + rewrite lookup_delete_ne in Hlk by done. by eapply (inv_idle w HI).
  - intros k' st Hlk. rewrite Hst in Hlk.
    destruct (decide (k = k')) as [<-|Hne].
    + by rewrite lookup_delete_eq in Hlk.
    + rewrite lookup_delete_ne in Hlk by done. by eapply (inv_source w HI).
Qed.

(** *** What each handler does to a world that satisfies the invariant *)

Lemma sameHost_refl w : sameHost w w.
Proof. by repeat split. Qed.

Lemma sameHost_trans w1 w2 w3 : sameHost w1 w2 → sameHost w2 w3 → sameHost w1 w3.
Proof. unfold sameHost. intros (?&?&?&?&?) (?&?&?&?&?). repeat split; congruence. Qed.

Lemma runTimer_spec w t :
  Inv w → t ∈ timers w →
  ∃ st, documentStates w !! timerKey t = Some st ∧
    timers (runTimer t w) = filter (fun u => timerKey u ≠ timerKey t) (timers w) ∧
    documentStates (runTimer t w)
      = <[timerKey t := rested st (timerContent t)]> (documentStates w) ∧
    emitted (runTimer t w)
      = emitted w ++ [mkIdleEvent (source st) (lastContent st) (timerContent t)
                                  (changeCount st)] ∧
    sameHost w (runTimer t w).
Proof.
  intros HI Ht. destruct (inv_owner w HI t Ht) as (st & Hst & Hto).
  exists st. split; [done|].
  unfold runTimer, onDocumentIdle. simpl. rewrite Hst. simpl.
  rewrite filter_handle_key by done. by repeat split.
Qed.

Lemma runTimer_inv w t : Inv w → t ∈ timers w → Inv (runTimer t w).
Proof.
  intros HI Ht. destruct (runTimer_spec w t HI Ht) as (st & Hst & Hts & Hds & _ & Hh).
  eapply (inv_rest w _ (timerKey t)); [done|exact Hts|exact Hds|apply Hh|done|done|].
  simpl. by apply (inv_source w HI).
Qed.

(** Running a batch of distinct pending timers, one after the other. *)
Lemma runTimers_spec l : ∀ w,
  Inv w → NoDup l → (∀ t, t ∈ l → t ∈ timers w) →
  let w' := fold_left (fun acc t => runTimer t acc) l w in
  Inv w' ∧ sameHost w w' ∧
  timers w' = filter (fun u => timerKey u ∉ map timerKey l) (timers w) ∧
  emitted w' = emitted w ++ omap (idleEventOf w) l ∧
  (∀ k, k ∉ map timerKey l → documentStates w' !! k = documentStates w !! k) ∧
  (∀ t, t ∈ l → documentStates w' !! timerKey t
                = (fun st => rested st (timerContent t)) <$> documentStates w !! timerKey t).
Proof.
  induction l as [|t l IH]; intros w HI Hnd Hsub; simpl.
  - split; [done|]. split; [apply sameHost_refl|].
    split; [symmetry; apply filter_all; intros ? _; apply not_elem_of_nil|].
    split; [by rewrite app_nil_r|]. split; [done|].
    intros t Ht. by apply elem_of_nil in Ht.
  - apply NoDup_cons in Hnd as [Htl Hnd].
    assert (t ∈ timers w) as Ht by (apply Hsub; left).
    destruct (runTimer_spec w t HI Ht) as (st & Hst & Hts & Hds & Hem & Hh).
    assert (∀ u, u ∈ l → timerKey u ≠ timerKey t) as Hkeys.
    { intros u Hu Heq. apply Htl.
      assert (u = t) as <-; [|done].
      apply (key_of_handle w); [done|apply Hsub; by right|done|done]. }
    assert (∀ u, u ∈ l → u ∈ timers (runTimer t w)) as Hsub'.
    { intros u Hu. rewrite Hts. apply list_elem_of_filter. split; [by apply Hkeys|].
      apply Hsub. by right. }
    destruct (IH (runTimer t w) (runTimer_inv w t HI Ht) Hnd Hsub')
      as (HI' & Hh' & Hts' & Hem' & Hother & Hmine).
    split; [done|]. split; [by eapply sameHost_trans|].
    split.
    { rewrite Hts', Hts, list_filter_filter. apply filter_ext_elem.
      intros u _. rewrite not_elem_of_cons. tauto. }
    split.
    { rewrite Hem', Hem, <- app_assoc. f_equal.
      unfold idleEventOf at 2. rewrite Hst. simpl. f_equal.
      apply list_omap_ext, Forall2_same_length_lookup_2; [done|].
      intros i u u' Hu Hu'. rewrite Hu in Hu'. injection Hu' as <-.
      unfold idleEventOf. rewrite Hds, lookup_insert_ne; [done|].
      symmetry. apply Hkeys. by eapply list_elem_of_lookup_2. }
    split.
    { intros k Hk. apply not_elem_of_cons in Hk as [Hne Hk].
      rewrite Hother by done. rewrite Hds. by rewrite lookup_insert_ne. }
    intros u Hu. apply elem_of_cons in Hu as [->|Hu].
    + rewrite Hother.
      * rewrite Hds, lookup_insert_eq, Hst. done.
      * intros Hin. apply list_elem_of_fmap in Hin as (u & Hk & Hu).
        by apply (Hkeys u Hu).
    + rewrite Hmine by done. rewrite Hds, lookup_insert_ne; [done|].
      symmetry. by apply Hkeys.
Qed.

Lemma NoDup_timers w : Inv w → NoDup (timers w).
Proof. intros HI. apply (NoDup_fmap_1 handle), (inv_nodup w HI). Qed.

(** Letting time pass fires exactly the timers that have come due. *)
Lemma elapse_spec w ms :
  Inv w →
  let w' := elapse ms w in
  let dueNow := filter (isDue (clock w + ms)) (timers w) in
  Inv w' ∧
  settings w' = settings w ∧ isEnabled w' = isEnabled w ∧
  clock w' = clock w + ms ∧ nextHandle w' = nextHandle w ∧
  timers w' = filter (fun u => timerKey u ∉ map timerKey dueNow) (timers w) ∧
  emitted w' = emitted w ++ omap (idleEventOf w) dueNow ∧
  (∀ k, k ∉ map timerKey dueNow → documentStates w' !! k = documentStates w !! k) ∧
  (∀ t, t ∈ dueNow → documentStates w' !! timerKey t
                = (fun st => rested st (timerContent t)) <$> documentStates w !! timerKey t).
Proof.
  intros HI w' dueNow.
  destruct (runTimers_spec dueNow w HI) as (HI' & Hh & Hts & Hem & Hother & Hmine).
  { apply NoDup_filter, NoDup_timers, HI. }
  { intros t Ht. by apply list_elem_of_filter in Ht as [_ Ht]. }
  destruct Hh as (Hs & Hc & Hn & Hd & He).
  split.
  { destruct HI'. by split. }
  by repeat split.
Qed.

Lemma change_ignored `{RegExpEngine} event w :
  accepted event w = false → onTextDocumentChange event w = w.
Proof.
  unfold accepted, onTextDocumentChange. destruct (isEnabled w); simpl; [|done].
  destruct (fst (matchesChat _ _)) as [[|]|]; simpl; try done.
  destruct (contentChanges event =? 0); simpl; done.
Qed.

Lemma change_accepted `{RegExpEngine} event w :
  accepted event w = true → Inv w →
  let k := uri (document event) in
  let w' := onTextDocumentChange event w in
  let t := mkTimer (nextHandle w) (clock w + timerDelay (silenceMs (settings w))) k
                   (getText (document event)) in
  timers w' = schedule t (filter (fun u => timerKey u ≠ k) (timers w)) ∧
  documentStates w'
    = <[k := armed (documentStates w !! k) (document event) (nextHandle w)]>
        (documentStates w) ∧
  nextHandle w' = S (nextHandle w) ∧ emitted w' = emitted w ∧
  settings w' = settings w ∧ clock w' = clock w ∧ isEnabled w' = isEnabled w ∧
  documents w' = documents w.
Proof.
  intros Hacc HI k w' t. subst w'. unfold accepted in Hacc.
  unfold onTextDocumentChange.
  destruct (isEnabled w) eqn:Hen; simpl in *; [|done].
  destruct (fst (matchesChat _ _)) as [[|]|]; simpl in *; try done.
  destruct (contentChanges event =? 0); simpl in *; [done|].
  unfold getDocumentKey. fold k.
  destruct (documentStates w !! k) as [st|] eqn:Hst; simpl.
  - pose proof (clearStateTimeout_timers w k st HI Hst) as Hts.
    destruct (clearStateTimeout_fields st w) as (Hs & Hc & Hn & Hd & He & Hm & Hem).
    rewrite Hts, Hs, Hc, Hn, Hd, He, Hm, Hem.
    rewrite alter_insert_eq. simpl. by repeat split.
  - rewrite alter_insert_eq. simpl.
    rewrite (filter_key_untracked w k HI Hst). by repeat split.
Qed.

Lemma change_inv `{RegExpEngine} event w : Inv w → Inv (onTextDocumentChange event w).
Proof.
  intros HI. destruct (accepted event w) eqn:Hacc.
  - destruct (change_accepted event w Hacc HI) as (Hts & Hds & Hn & _).
    eapply (inv_arm w _ (uri (document event))); [done|exact Hts|exact Hds|exact Hn|..];
      try done; by destruct (documentStates w !! _).
  - by rewrite change_ignored.
Qed.

Lemma close_spec document w :
  Inv w →
  let k := uri document in
  let w' := onTextDocumentClose document w in
  timers w' = filter (fun u => timerKey u ≠ k) (timers w) ∧
  documentStates w' = delete k (documentStates w) ∧
  emitted w' = emitted w ∧ sameHost w w'.
Proof.
  intros HI k w'. subst w'. unfold onTextDocumentClose, getDocumentKey. fold k.
  destruct (documentStates w !! k) as [st|] eqn:Hst; simpl.
  - pose proof (clearStateTimeout_timers w k st HI Hst) as Hts.
    destruct (clearStateTimeout_fields st w) as (Hs & Hc & Hn & Hd & He & Hm & Hem).
    rewrite Hts, Hm. by repeat split.
  - rewrite (filter_key_untracked w k HI Hst), delete_id by done.
    by repeat split.
Qed.

Lemma close_inv document w : Inv w → Inv (onTextDocumentClose document w).
Proof.
  intros HI. destruct (close_spec document w HI) as (Hts & Hds & _ & Hh).
  eapply (inv_drop w _ (uri document)); [done|exact Hts|exact Hds|apply Hh].
Qed.

(** The loop of [clearAllStates] only ever removes timers. *)
Lemma clearLoop_spec (l : list (string * DocumentState)) w :
  let w' := foldr (fun '(_, state) acc => clearStateTimeout state acc) w l in
  (∀ t, t ∈ timers w' ↔
        t ∈ timers w ∧ ∀ k st, (k, st) ∈ l → timeout st ≠ Some (handle t)) ∧
  documentStates w' = documentStates w ∧ emitted w' = emitted w ∧ sameHost w w'.
Proof.
  induction l as [|[k st] l IH]; simpl.
  - split; [|by repeat split]. intros t. split; [|tauto].
    intros Ht. split; [done|]. intros ?? Hin. by apply elem_of_nil in Hin.
  - destruct IH as (Hts & Hds & Hem & Hh).
    destruct (clearStateTimeout_fields st
                (foldr (fun '(_, state) acc => clearStateTimeout state acc) w l))
      as (Hs & Hc & Hn & Hd & He & Hm & Hem').
    split.
    + intros t. unfold clearStateTimeout at 1.
      destruct (timeout st) as [h|] eqn:Hto; simpl.
      * rewrite list_elem_of_filter, Hts. split.
        -- intros (Hne & Ht & Hall). split; [done|]. intros k' st' Hin.
           apply elem_of_cons in Hin as [[= -> ->]|Hin]; [congruence|by eapply Hall].
        -- intros (Ht & Hall). split; [|split; [done|]].
           ++ intros Heq. apply (Hall k st); [by left|congruence].
           ++ intros k' st' Hin. apply (Hall k' st'). by right.
      * rewrite Hts. split.
        -- intros (Ht & Hall). split; [done|]. intros k' st' Hin.
           apply elem_of_cons in Hin as [[= -> ->]|Hin]; [congruence|by eapply Hall].
        -- intros (Ht & Hall). split; [done|].
           intros k' st' Hin. apply (Hall k' st'). by right.
    + split; [congruence|]. split; [congruence|].
      destruct Hh as (?&?&?&?&?). repeat split; congruence.
Qed.

Lemma clearAllStates_spec w :
  Inv w →
  timers (clearAllStates w) = [] ∧ documentStates (clearAllStates w) = ∅ ∧
  emitted (clearAllStates w) = emitted w ∧ sameHost w (clearAllStates w).
Proof.
  intros HI. unfold clearAllStates.
  destruct (clearLoop_spec (map_to_list (documentStates w)) w) as (Hts & Hds & Hem & Hh).
  unfold with_states, sameHost in *. simpl. split; [|tauto].
  apply elem_of_nil_inv. intros t Ht. apply Hts in Ht as [Ht Hall].
  destruct (inv_owner w HI t Ht) as (st & Hst & Hto).
  apply (Hall (timerKey t) st); [|done]. by apply elem_of_map_to_list.
Qed.

Lemma clearAllStates_inv w : Inv w → Inv (clearAllStates w).
Proof.
  intros HI. destruct (clearAllStates_spec w HI) as (Hts & Hds & _ & Hh).
  split; rewrite ?Hts, ?Hds.
  - intros t Ht. by apply elem_of_nil in Ht.
  - intros k st h Hk. by rewrite lookup_empty in Hk.
  - intros t Ht. by apply elem_of_nil in Ht.
  - constructor.
  - intros k st Hk. by rewrite lookup_empty in Hk.
  - intros k st Hk. by rewrite lookup_empty in Hk.
Qed.

Lemma inv_host w w' :
  Inv w → timers w' = timers w → documentStates w' = documentStates w →
  nextHandle w' = nextHandle w → Inv w'.
Proof. intros [] Ht Hd Hn. split; rewrite ?Ht, ?Hd, ?Hn; done. Qed.

Lemma trigger_inv document w : Inv w → Inv (triggerIdleForDocument document w).
Proof.
  intros HI. unfold triggerIdleForDocument, getDocumentKey.
  destruct (isEnabled w); simpl; [|done].
  destruct (documentStates w !! uri document) as [st|] eqn:Hst; [|done].
  pose proof (clearStateTimeout_timers w _ st HI Hst) as Hts.
  destruct (clearStateTimeout_fields st w) as (Hs & Hc & Hn & Hd & He & Hm & Hem).
  unfold onDocumentIdle. rewrite Hm, Hst.
  eapply (inv_rest w _ (uri document) (rested st (getText document)));
    [done|exact Hts|done|exact Hn|done|done|].
  simpl. by apply (inv_source w HI).
Qed.

Lemma step_inv `{RegExpEngine} a w : Inv w → Inv (step a w).
Proof.
  intros HI. destruct a as [event|document|s|ms|en|document]; simpl.
  - apply change_inv. by eapply inv_host.
  - apply close_inv. by eapply inv_host.
  - unfold onConfigurationChange.
    destruct (negb _ && _).
    + apply clearAllStates_inv. by eapply inv_host.
    + by eapply inv_host.
  - apply elapse_spec, HI.
  - unfold setEnabled. destruct (Bool.eqb _ _); [done|].
    destruct (negb en).
    + apply clearAllStates_inv. by eapply inv_host.
    + by eapply inv_host.
  - by apply trigger_inv.
Qed.

Lemma initial_inv s : Inv (initial s).
Proof.
  split; simpl.
  - intros t Ht. by apply elem_of_nil in Ht.
  - intros k st h Hk. by rewrite lookup_empty in Hk.
  - intros t Ht. by apply elem_of_nil in Ht.
  - constructor.
  - intros k st Hk. by rewrite lookup_empty in Hk.
  - intros k st Hk. by rewrite lookup_empty in Hk.
Qed.

Lemma reachable_inv `{RegExpEngine} w : reachable w → Inv w.
Proof. induction 1; [apply initial_inv|by apply step_inv]. Qed.

Lemma reachable_run `{RegExpEngine} acts : ∀ w, reachable w → reachable (run acts w).
Proof.
  induction acts as [|a acts IH]; intros w Hw; [done|].
  simpl. apply IH. by constructor.
Qed.

(** *** Events and untracked documents *)

Lemma idleEventOf_tracked w t ev :
  Inv w → idleEventOf w t = Some ev →
  eventDocument ev = timerKey t ∧ is_Some (documentStates w !! timerKey t).
Proof.
  unfold idleEventOf. intros HI Hev.
  destruct (documentStates w !! timerKey t) as [st|] eqn:Hst; simpl in Hev; [|done].
  injection Hev as <-. simpl. split; [by apply (inv_source w HI)|done].
Qed.

Lemma trigger_spec document w :
  Inv w →
  let k := uri document in
  let w' := triggerIdleForDocument document w in
  w' = w ∨
  ∃ st, documentStates w !! k = Some st ∧
    documentStates w' = <[k := rested st (getText document)]> (documentStates w) ∧
    emitted w' = emitted w ++ [mkIdleEvent k (lastContent st) (getText document)
                                           (changeCount st)].
Proof.
  intros HI k w'. subst w'. unfold triggerIdleForDocument, getDocumentKey. fold k.
  destruct (isEnabled w); simpl; [|by left].
  destruct (documentStates w !! k) as [st|] eqn:Hst; [|by left].
  right. exists st. split; [done|].
  destruct (clearStateTimeout_fields st w) as (Hs & Hc & Hn & Hd & He & Hm & Hem).
  unfold onDocumentIdle. rewrite Hm, Hst. simpl. split; [done|].
  rewrite Hem, (inv_source w HI k st Hst). done.
Qed.

(** Every step only adds events, and only for documents tracked before it. *)
Lemma step_emitted `{RegExpEngine} a w :
  Inv w →
  ∃ new, emitted (step a w) = emitted w ++ new ∧
         ∀ ev, ev ∈ new → is_Some (documentStates w !! eventDocument ev).
Proof.
  intros HI. destruct a as [event|document|s|ms|en|document]; simpl.
  - exists []. rewrite app_nil_r. split; [|by intros ? ?%elem_of_nil].
    destruct (accepted event (with_documents
      (<[uri (Vscode.document event) := Vscode.document event]> (documents w)) w)) eqn:Hacc.
    + apply change_accepted in Hacc; [|by eapply inv_host]. apply Hacc.
    + by rewrite change_ignored.
  - exists []. rewrite app_nil_r. split; [|by intros ? ?%elem_of_nil].
    apply (close_spec document (with_documents _ w)). by eapply inv_host.
  - exists []. rewrite app_nil_r. split; [|by intros ? ?%elem_of_nil].
    unfold onConfigurationChange. destruct (negb _ && _); [|done].
    apply (clearAllStates_spec (with_enabled _ (with_settings s w))). by eapply inv_host.
  - destruct (elapse_spec w ms HI) as (_ & _ & _ & _ & _ & _ & Hem & _).
    eexists. split; [exact Hem|].
    intros ev Hev. apply list_elem_of_omap in Hev as (t & Ht & Hev).
    destruct (idleEventOf_tracked w t ev HI Hev) as [-> Hsome]. done.
  - exists []. rewrite app_nil_r. split; [|by intros ? ?%elem_of_nil].
    unfold setEnabled. destruct (Bool.eqb _ _); [done|]. destruct (negb en); [|done].
    apply (clearAllStates_spec (with_enabled _ w)). by eapply inv_host.
  - destruct (trigger_spec document w HI) as [->|(st & Hst & _ & Hem)].
    + exists []. rewrite app_nil_r. split; [done|by intros ? ?%elem_of_nil].
    + eexists. split; [exact Hem|]. intros ev ->%list_elem_of_singleton. simpl. by eexists.
Qed.

(** A document that is not tracked stays untracked until it is changed. *)
Lemma step_untracked `{RegExpEngine} a w k :
  Inv w → documentStates w !! k = None → changes k a = false →
  documentStates (step a w) !! k = None.
Proof.
  intros HI Hk Hch. destruct a as [event|document|s|ms|en|document]; simpl in *.
  - apply bool_decide_eq_false in Hch.
    destruct (accepted event (with_documents
      (<[uri (Vscode.document event) := Vscode.document event]> (documents w)) w)) eqn:Hacc.
    + apply change_accepted in Hacc as (_ & -> & _); [|by eapply inv_host].
      simpl. by rewrite lookup_insert_ne.
    + by rewrite change_ignored.
  - destruct (close_spec document (with_documents
      (delete (uri document) (documents w)) w)) as (_ & -> & _); [by eapply inv_host|].
    simpl. destruct (decide (uri document = k)) as [->|Hne].
    + by rewrite lookup_delete_eq.
    + by rewrite lookup_delete_ne.
  - unfold onConfigurationChange. destruct (negb _ && _); [|done].
    destruct (clearAllStates_spec
                (with_enabled (enabled (settings (with_settings s w))) (with_settings s w)))
      as (_ & -> & _); [by eapply inv_host|]. apply lookup_empty.
  - destruct (elapse_spec w ms HI) as (_ & _ & _ & _ & _ & _ & _ & Hother & _).
    rewrite Hother; [done|]. intros Hin.
    apply list_elem_of_fmap in Hin as (t & -> & Ht).
    apply list_elem_of_filter in Ht as [_ Ht].
    destruct (inv_owner w HI t Ht) as (st & Hst & _). congruence.
  - unfold setEnabled. destruct (Bool.eqb _ _); [done|]. destruct (negb en); [|done].
    destruct (clearAllStates_spec (with_enabled en w)) as (_ & -> & _);
      [by eapply inv_host|]. apply lookup_empty.
  - destruct (trigger_spec document w HI) as [->|(st & Hst & -> & _)]; [done|].
    destruct (decide (uri document = k)) as [Heq|Hne]; [congruence|].
    by rewrite lookup_insert_ne.
Qed.

Lemma eventsFor_app k es es' : eventsFor k (es ++ es') = eventsFor k es ++ eventsFor k es'.
Proof. apply filter_app. Qed.

Lemma run_untracked `{RegExpEngine} acts : ∀ w k,
  Inv w → documentStates w !! k = None →
  forallb (fun a => negb (changes k a)) acts = true →
  documentStates (run acts w) !! k = None ∧
  eventsFor k (emitted (run acts w)) = eventsFor k (emitted w).
Proof.
  induction acts as [|a acts IH]; intros w k HI Hk Hacts; [done|].
  simpl in Hacts. apply andb_true_iff in Hacts as [Ha Hacts].
  apply negb_true_iff in Ha. simpl.
  destruct (IH (step a w) k) as [Hk' Hev];
    [by apply step_inv|by apply step_untracked|done|].
  split; [done|]. rewrite Hev.
  destruct (step_emitted a w HI) as (new & -> & Hnew).
  rewrite eventsFor_app.
  assert (eventsFor k new = []) as ->; [|by rewrite app_nil_r].
  apply elem_of_nil_inv. intros ev Hev'.
  apply list_elem_of_filter in Hev' as [Hd Hin].
  destruct (Hnew ev Hin) as [st Hst]. congruence.
Qed.

(** C6. In every reachable state a document has at most one pending
    debounce timer, and a step that arms a new timer for a document leaves
    none of that document's earlier timers pending. *)
Theorem one_timer_per_document `{RegExpEngine} w :
  reachable w →
  (∀ k, length (timersFor k (timers w)) ≤ 1) ∧
  (∀ a t, t ∈ timers (step a w) → t ∉ timers w →
          ∀ u, u ∈ timers w → timerKey u = timerKey t → u ∉ timers (step a w)).
Proof.
  intros Hw. split.
  - pose proof (reachable_inv w Hw) as HI. intros k.
    pose proof (NoDup_filter (fun t => timerKey t = k) _ (NoDup_timers w HI)) as Hnd.
    unfold timersFor.
    destruct (filter _ (timers w)) as [|t1 [|t2 r]] eqn:Hf; simpl; [lia|lia|].
    exfalso.
    assert (t1 ∈ filter (fun t => timerKey t = k) (timers w)) as H1
      by (rewrite Hf; left).
    assert (t2 ∈ filter (fun t => timerKey t = k) (timers w)) as H2
      by (rewrite Hf; right; left).
    apply list_elem_of_filter in H1 as [Hk1 H1].
    apply list_elem_of_filter in H2 as [Hk2 H2].
    assert (t1 = t2) as -> by (apply (key_of_handle w); congruence).
    apply NoDup_cons in Hnd as [Hnd _]. apply Hnd. left.
  - intros a t Ht Hnew u Hu Hk Hu'.
    assert (Inv (step a w)) as HI' by (apply step_inv, reachable_inv, Hw).
    assert (u = t) as -> by (by apply (key_of_handle (step a w))).
    done.
Qed.

Lemma one_timer_per_document_witness :
  let w := step (H := Examples.literalEngine) (Examples.edit (Examples.chatDoc 1 "hi"))
             (initial Examples.demoSettings) in
  (∀ k, length (timersFor k (timers w)) ≤ 1) ∧
  (∀ a t, t ∈ timers (step (H := Examples.literalEngine) a w) → t ∉ timers w →
          ∀ u, u ∈ timers w → timerKey u = timerKey t →
               u ∉ timers (step (H := Examples.literalEngine) a w)).
Proof.
  apply (one_timer_per_document (H := Examples.literalEngine)).
  apply reachable_step, reachable_initial.
Defined.

(** C7. Closing a document cancels its timer and removes its entry, and
    from then on no idle event is fired for it for as long as no change to
    it is notified, whether or not a timer was pending at the close. *)
Theorem close_silences_document `{RegExpEngine} w d acts :
  reachable w →
  forallb (fun a => negb (changes (uri d) a)) acts = true →
  let w1 := step (DidCloseTextDocument d) w in
  documentStates w1 !! uri d = None ∧
  timersFor (uri d) (timers w1) = [] ∧
  emitted w1 = emitted w ∧
  documentStates (run acts w1) !! uri d = None ∧
  eventsFor (uri d) (emitted (run acts w1)) = eventsFor (uri d) (emitted w).
Proof.
  intros Hw Hacts w1. pose proof (reachable_inv w Hw) as HI.
  assert (Inv w1) as HI1 by (by apply step_inv).
  destruct (close_spec d (with_documents (delete (uri d) (documents w)) w))
    as (Hts & Hds & Hem & _); [by apply (inv_host w)|].
  assert (documentStates w1 !! uri d = None) as Hnone.
  { subst w1. simpl. rewrite Hds. apply lookup_delete_eq. }
  split; [done|]. split.
  { subst w1. simpl. rewrite Hts. unfold timersFor. simpl.
    apply elem_of_nil_inv. intros t Ht.
    apply list_elem_of_filter in Ht as [Hk Ht].
    apply list_elem_of_filter in Ht as [Hne _]. done. }
  split; [done|].
  destruct (run_untracked acts w1 (uri d) HI1 Hnone Hacts) as [Hk Hev].
  split; [done|]. rewrite Hev. subst w1. simpl. by rewrite Hem.
Qed.

Lemma close_silences_document_witness :
  let d := Examples.chatDoc 1 "hi" in
  let w := step (H := Examples.literalEngine) (Examples.edit d)
             (initial Examples.demoSettings) in
  let acts := [Elapse 5000; TriggerIdle d; Examples.edit (Examples.notesDoc 1 "x");
               Elapse 5000] in
  let w1 := step (H := Examples.literalEngine) (DidCloseTextDocument d) w in
  documentStates w1 !! uri d = None ∧
  timersFor (uri d) (timers w1) = [] ∧
  emitted w1 = emitted w ∧
  documentStates (run (H := Examples.literalEngine) acts w1) !! uri d = None ∧
  eventsFor (uri d) (emitted (run (H := Examples.literalEngine) acts w1))
  = eventsFor (uri d) (emitted w).
Proof.
  intros d w acts.
  apply (close_silences_document (H := Examples.literalEngine) w d acts).
  - apply reachable_step, reachable_initial.
  - reflexivity.
Defined.

(** *** One round of debouncing *)

Lemma filter_comm {A} (P Q : A → Prop) `{!∀ x, Decision (P x), !∀ x, Decision (Q x)}
    (l : list A) :
  filter P (filter Q l) = filter Q (filter P l).
Proof. rewrite !list_filter_filter. apply list_filter_iff. tauto. Qed.

Lemma eventsFor_omap w k l :
  Inv w → eventsFor k (omap (idleEventOf w) l) = omap (idleEventOf w) (timersFor k l).
Proof.
  intros HI. unfold eventsFor, timersFor. induction l as [|t l IH]; [done|].
  simpl. destruct (idleEventOf w t) as [ev|] eqn:Hev.
  - destruct (idleEventOf_tracked w t ev HI Hev) as [Hdoc _].
    destruct (decide (timerKey t = k)) as [Hk|Hk].
    + rewrite !filter_cons_True by congruence. simpl. rewrite Hev. f_equal. exact IH.
    + rewrite !filter_cons_False by congruence. exact IH.
  - destruct (decide (timerKey t = k)) as [Hk|Hk].
    + rewrite filter_cons_True by done. simpl. rewrite Hev. exact IH.
    + rewrite filter_cons_False by done. exact IH.
Qed.

Lemma timersFor_elem k ts t : timersFor k ts = [t] → t ∈ ts ∧ timerKey t = k.
Proof.
  intros Hf. assert (t ∈ timersFor k ts) as Ht by (rewrite Hf; left).
  apply list_elem_of_filter in Ht. tauto.
Qed.

(** An accepted change leaves the document with exactly one timer, due a
    full silence period later. *)
Lemma change_arms `{RegExpEngine} event w :
  Inv w → accepted event w = true →
  let k := uri (document event) in
  let w' := step (DidChangeTextDocument event) w in
  Inv w' ∧ settings w' = settings w ∧ isEnabled w' = isEnabled w ∧
  clock w' = clock w ∧ emitted w' = emitted w ∧
  ∃ st t, documentStates w' !! k = Some st ∧
    changeCount st = match documentStates w !! k with
                     | Some st0 => S (changeCount st0)
                     | None => 1
                     end ∧
    timersFor k (timers w') = [t] ∧
    due t = clock w + timerDelay (silenceMs (settings w)) ∧
    timerContent t = getText (document event).
Proof.
  intros HI Hacc k w'. split; [by apply step_inv|].
  subst w'. simpl.
  set (w0 := with_documents _ w).
  assert (Inv w0) as HI0 by (by apply (inv_host w)).
  destruct (change_accepted event w0 Hacc HI0)
    as (Hts & Hds & Hn & Hem & Hs & Hc & He & Hd).
  repeat (split; [done|]).
  eexists _, _. rewrite Hds, Hts. fold k. rewrite lookup_insert_eq.
  split; [done|]. split.
  { change (documentStates w0) with (documentStates w).
    by destruct (documentStates w !! k). }
  split.
  { apply timersFor_schedule_eq; [done|].
    apply elem_of_nil_inv. intros u Hu.
    apply list_elem_of_filter in Hu as [Hk Hu].
    apply list_elem_of_filter in Hu as [Hne _]. done. }
  split; reflexivity.
Qed.

(** While the document's timer is not due, letting time pass leaves the
    document alone. *)
Lemma elapse_waits w k t gap :
  Inv w → timersFor k (timers w) = [t] → clock w + gap < due t →
  let w' := elapse gap w in
  Inv w' ∧ settings w' = settings w ∧ isEnabled w' = isEnabled w ∧
  clock w' = clock w + gap ∧
  documentStates w' !! k = documentStates w !! k ∧
  timersFor k (timers w') = [t] ∧
  eventsFor k (emitted w') = eventsFor k (emitted w).
Proof.
  intros HI Hk Hdue w'.
  destruct (elapse_spec w gap HI) as (HI' & Hs & He & Hc & _ & Hts & Hem & Hother & _).
  assert (timersFor k (filter (isDue (clock w + gap)) (timers w)) = []) as Hnone.
  { unfold timersFor in *. rewrite filter_comm, Hk.
    rewrite filter_cons_False; [done|]. unfold isDue.
    intros Hd%Is_true_true%Nat.leb_le. lia. }
  assert (k ∉ map timerKey (filter (isDue (clock w + gap)) (timers w))) as Hnotin.
  { intros Hin. apply list_elem_of_fmap in Hin as (u & Hku & Hu).
    assert (u ∈ timersFor k (filter (isDue (clock w + gap)) (timers w))) as Hu'
      by (apply list_elem_of_filter; done).
    rewrite Hnone in Hu'. by apply elem_of_nil in Hu'. }
  repeat (split; [done|]).
  split; [by apply Hother|]. split.
  - subst w'. rewrite Hts. unfold timersFor in *. rewrite filter_comm, Hk.
    rewrite filter_cons_True; [done|].
    destruct (timersFor_elem k (timers w) t Hk) as [_ ->]. done.
  - subst w'. rewrite Hem, eventsFor_app, eventsFor_omap, Hnone by done.
    simpl. by rewrite app_nil_r.
Qed.

(** Once the document's timer is due, letting time pass fires it. *)
Lemma elapse_fires w k t st quiet :
  Inv w → timersFor k (timers w) = [t] → due t ≤ clock w + quiet →
  documentStates w !! k = Some st →
  let w' := elapse quiet w in
  eventsFor k (emitted w')
  = eventsFor k (emitted w)
    ++ [mkIdleEvent k (lastContent st) (timerContent t) (changeCount st)] ∧
  documentStates w' !! k = Some (rested st (timerContent t)).
Proof.
  intros HI Hk Hdue Hst w'.
  destruct (elapse_spec w quiet HI) as (_ & _ & _ & _ & _ & _ & Hem & _ & Hmine).
  destruct (timersFor_elem k (timers w) t Hk) as [Ht Hkey].
  assert (timersFor k (filter (isDue (clock w + quiet)) (timers w)) = [t]) as Hone.
  { unfold timersFor in *. rewrite filter_comm, Hk.
    rewrite filter_cons_True; [done|].
    unfold isDue. by apply Is_true_true, Nat.leb_le. }
  split.
  - subst w'. rewrite Hem, eventsFor_app, eventsFor_omap, Hone by done.
    simpl. unfold idleEventOf. rewrite Hkey, Hst. simpl.
    by rewrite (inv_source w HI k st Hst).
  - rewrite <- Hkey. subst w'. rewrite Hmine.
    + by rewrite Hkey, Hst.
    + apply list_elem_of_filter. split; [|done].
      unfold isDue. by apply Is_true_true, Nat.leb_le.
Qed.

Lemma accepted_host `{RegExpEngine} event w w' :
  settings w' = settings w → isEnabled w' = isEnabled w →
  accepted event w' = accepted event w.
Proof. unfold accepted. by intros -> ->. Qed.

Lemma timerDelay_id ms :
  1 ≤ ms → (Z.of_nat ms ≤ TIMEOUT_MAX)%Z → timerDelay ms = ms.
Proof.
  intros Hlo Hhi. unfold timerDelay.
  apply Nat.leb_le in Hlo. apply Z.leb_le in Hhi. by rewrite Hlo, Hhi.
Qed.

Lemma timerDelay_clamped ms :
  (TIMEOUT_MAX < Z.of_nat ms)%Z → timerDelay ms = 1.
Proof.
  intros Hhi. unfold timerDelay.
  apply Z.leb_gt in Hhi. by rewrite Hhi, andb_false_r.
Qed.

Lemma burst_keeps_pending `{RegExpEngine} rest : ∀ w k n t st,
  Inv w → timerDelay (silenceMs (settings w)) = silenceMs (settings w) →
  timersFor k (timers w) = [t] →
  due t = clock w + silenceMs (settings w) →
  documentStates w !! k = Some st → changeCount st = n →
  Forall (inBurst k w) rest →
  let w1 := run (flat_map (fun '(gap, event) => [Elapse gap; DidChangeTextDocument event])
                          rest) w in
  Inv w1 ∧ settings w1 = settings w ∧ isEnabled w1 = isEnabled w ∧
  eventsFor k (emitted w1) = eventsFor k (emitted w) ∧
  ∃ t1 st1, timersFor k (timers w1) = [t1] ∧
    due t1 = clock w1 + silenceMs (settings w) ∧
    documentStates w1 !! k = Some st1 ∧ changeCount st1 = n + length rest.
Proof.
  induction rest as [|[gap event] rest IH];
    intros w k n t st HI Hfull Ht Hdue Hst Hn Hall.
  - simpl. repeat (split; [done|]). exists t, st. repeat split; try done. lia.
  - apply Forall_cons in Hall as [(Hgap & Hk & Hacc) Hall]. simpl in Hgap, Hk, Hacc.
    destruct (elapse_waits w k t gap HI Ht ltac:(lia))
      as (HIa & Hsa & Hea & Hca & Hda & Hta & Heva).
    pose proof (accepted_host event _ _ Hsa Hea) as Hacca. rewrite Hacc in Hacca.
    destruct (change_arms event (elapse gap w) HIa Hacca)
      as (HIb & Hsb & Heb & Hcb & Hemb & stb & tb & Hstb & Hcntb & Htb & Hdueb & _).
    rewrite Hk in Hstb, Hcntb, Htb. rewrite Hda, Hst in Hcntb.
    set (wb := step (DidChangeTextDocument event) (elapse gap w)) in *.
    assert (settings wb = settings w) as Hs by congruence.
    assert (isEnabled wb = isEnabled w) as He by congruence.
    destruct (IH wb k (S n) tb stb HIb) as (HI1 & Hs1 & He1 & Hev1 & t1 & st1 & H1).
    { by rewrite Hs. }
    { done. }
    { rewrite Hdueb, Hcb, Hsa, Hfull, Hs. done. }
    { done. }
    { congruence. }
    { eapply Forall_impl; [exact Hall|]. intros [g e] (Hg & Hke & Hae).
      split; [by rewrite Hs|]. split; [done|]. simpl.
      by rewrite (accepted_host e w wb Hs He). }
    change (run _ w) with
      (run (flat_map (fun '(gap, event) => [Elapse gap; DidChangeTextDocument event]) rest) wb).
    split; [done|]. split; [congruence|]. split; [congruence|].
    split; [by rewrite Hev1, Hemb|].
    exists t1, st1. destruct H1 as (? & ? & ? & ?).
    repeat split; try done; [congruence|simpl; lia].
Qed.

(** C1, amended.  For a configured silence period that the host's timers
    wait in full, from 1 ms to 2^31 - 1 ms: in a reachable state where the
    detector is enabled and the document has no timer pending, a burst of N
    accepted edits to the document, each arriving less than the silence
    period after the one before, fires no event for the document while it
    lasts and none before a full silence period has passed; once that
    period has passed exactly one event has been fired for it, with change
    count N, and the stored count is 0. *)
Theorem debounce_one_event `{RegExpEngine} w k first rest quiet :
  reachable w →
  1 ≤ silenceMs (settings w) →
  (Z.of_nat (silenceMs (settings w)) ≤ TIMEOUT_MAX)%Z →
  timersFor k (timers w) = [] →
  uri (document first) = k → accepted first w = true →
  Forall (inBurst k w) rest →
  silenceMs (settings w) ≤ quiet →
  let w1 := run (burst first rest) w in
  let w2 := step (Elapse quiet) w1 in
  eventsFor k (emitted w1) = eventsFor k (emitted w) ∧
  (∀ early, early < silenceMs (settings w) →
     eventsFor k (emitted (step (Elapse early) w1)) = eventsFor k (emitted w)) ∧
  (∃ ev, eventsFor k (emitted w2) = eventsFor k (emitted w) ++ [ev] ∧
         changesSinceLastIdle ev = S (length rest)) ∧
  (∃ st, documentStates w2 !! k = Some st ∧ changeCount st = 0 ∧ timeout st = None).
Proof.
  intros Hw Hlo Hhi Hnone Hk Hacc Hall Hquiet w1 w2.
  pose proof (reachable_inv w Hw) as HI.
  pose proof (timerDelay_id _ Hlo Hhi) as Hfull.
  destruct (change_arms first w HI Hacc)
    as (HI0 & Hs0 & He0 & Hc0 & Hem0 & st0 & t0 & Hst0 & Hcnt0 & Ht0 & Hdue0 & _).
  rewrite Hk in Hst0, Hcnt0, Ht0. rewrite Hfull in Hdue0.
  assert (changeCount st0 = 1) as Hone.
  { rewrite Hcnt0. destruct (documentStates w !! k) as [st|] eqn:Hst; [|done].
    f_equal. apply (inv_idle w HI k st Hst).
    destruct (timeout st) as [h|] eqn:Hto; [|done]. exfalso.
    destruct (inv_live w HI k st h Hst Hto) as (t & Ht & _ & Hkt).
    assert (t ∈ timersFor k (timers w)) as Hin by (apply list_elem_of_filter; done).
    rewrite Hnone in Hin. by apply elem_of_nil in Hin. }
  set (w0 := step (DidChangeTextDocument first) w) in *.
  destruct (burst_keeps_pending rest w0 k 1 t0 st0 HI0) as
    (HI1 & Hs1 & He1 & Hev1 & t1 & st1 & Ht1 & Hdue1 & Hst1 & Hcnt1).
  { by rewrite Hs0. }
  { done. }
  { rewrite Hdue0, Hc0, Hs0. done. }
  { done. }
  { done. }
  { eapply Forall_impl; [exact Hall|]. intros [g e] (Hg & Hke & Hae).
    split; [by rewrite Hs0|]. split; [done|]. simpl.
    by rewrite (accepted_host e w w0 Hs0 He0). }
  change (run _ w0) with w1 in *.
  split; [by rewrite Hev1, Hem0|]. split.
  { intros early Hearly. change (step (Elapse early) w1) with (elapse early w1).
    destruct (elapse_waits w1 k t1 early HI1 Ht1) as (_ & _ & _ & _ & _ & _ & Hev).
    - rewrite Hdue1, Hs0. lia.
    - by rewrite Hev, Hev1, Hem0. }
  destruct (elapse_fires w1 k t1 st1 quiet HI1 Ht1) as [Hev2 Hst2].
  { rewrite Hdue1, Hs0. lia. }
  { done. }
  split.
  - eexists. subst w2. change (step (Elapse quiet) w1) with (elapse quiet w1).
    rewrite Hev2, Hev1, Hem0. split; [done|]. simpl. lia.
  - eexists. subst w2. change (step (Elapse quiet) w1) with (elapse quiet w1).
    rewrite Hst2. done.
Qed.

Lemma debounce_one_event_witness :
  let E := Examples.literalEngine in
  let w := initial Examples.demoSettings in
  let k := uri (Examples.chatDoc 1 "a") in
  let first := mkChangeEvent (Examples.chatDoc 1 "a") 1 in
  let rest := [(200, mkChangeEvent (Examples.chatDoc 2 "ab") 1);
               (1499, mkChangeEvent (Examples.chatDoc 3 "abc") 2)] in
  let w1 := run (H := E) (burst first rest) w in
  let w2 := step (H := E) (Elapse 1500) w1 in
  eventsFor k (emitted w1) = eventsFor k (emitted w) ∧
  (∀ early, early < silenceMs (settings w) →
     eventsFor k (emitted (step (H := E) (Elapse early) w1)) = eventsFor k (emitted w)) ∧
  (∃ ev, eventsFor k (emitted w2) = eventsFor k (emitted w) ++ [ev] ∧
         changesSinceLastIdle ev = 3) ∧
  (∃ st, documentStates w2 !! k = Some st ∧ changeCount st = 0 ∧ timeout st = None).
Proof.
  intros E w k first rest.
  apply (debounce_one_event (H := E) w k first rest 1500).
  - apply reachable_initial.
  - simpl; lia.
  - by vm_compute.
  - reflexivity.
  - reflexivity.
  - reflexivity.
  - repeat constructor; simpl; lia.
  - simpl; lia.
Defined.

(** *** A silence period the host does not wait *)

(** With a configured silence period above [TIMEOUT_MAX] the timer armed
    by an edit is due 1 ms later, so that two accepted edits of a document
    that are at least 1 ms apart fire an event each. *)
Lemma clamped_burst `{RegExpEngine} w k first gap second quiet :
  Inv w → (TIMEOUT_MAX < Z.of_nat (silenceMs (settings w)))%Z →
  timersFor k (timers w) = [] →
  uri (document first) = k → accepted first w = true →
  uri (document second) = k → accepted second w = true →
  1 ≤ gap → 1 ≤ quiet →
  let w2 := step (Elapse quiet) (run (burst first [(gap, second)]) w) in
  ∃ ev1 ev2, eventsFor k (emitted w2) = eventsFor k (emitted w) ++ [ev1; ev2] ∧
             changesSinceLastIdle ev1 = 1 ∧ changesSinceLastIdle ev2 = 1.
Proof.
  intros HI Hhi Hnone Hk1 Hacc1 Hk2 Hacc2 Hgap Hquiet w2.
  pose proof (timerDelay_clamped _ Hhi) as Hone.
  destruct (change_arms first w HI Hacc1)
    as (HI0 & Hs0 & He0 & Hc0 & Hem0 & st0 & t0 & Hst0 & Hcnt0 & Ht0 & Hdue0 & _).
  rewrite Hk1 in Hst0, Hcnt0, Ht0. rewrite Hone in Hdue0.
  assert (changeCount st0 = 1) as Hcount0.
  { rewrite Hcnt0. destruct (documentStates w !! k) as [st|] eqn:Hst; [|done].
    f_equal. apply (inv_idle w HI k st Hst).
    destruct (timeout st) as [h|] eqn:Hto; [|done]. exfalso.
    destruct (inv_live w HI k st h Hst Hto) as (t & Ht & _ & Hkt).
    assert (t ∈ timersFor k (timers w)) as Hin by (apply list_elem_of_filter; done).
    rewrite Hnone in Hin. by apply elem_of_nil in Hin. }
  set (w0 := step (DidChangeTextDocument first) w) in *.
  set (wa := elapse gap w0).
  assert (w2 = elapse quiet (step (DidChangeTextDocument second) wa)) as -> by done.
  destruct (elapse_fires w0 k t0 st0 gap HI0 Ht0 ltac:(lia) Hst0) as [Heva Hsta].
  fold wa in Heva, Hsta.
  destruct (elapse_spec w0 gap HI0) as (HIa & Hsa & Hea & _). fold wa in HIa, Hsa, Hea.
  assert (accepted second wa = true) as Hacca.
  { rewrite (accepted_host second w wa); [done|congruence|congruence]. }
  destruct (change_arms second wa HIa Hacca)
    as (HIb & Hsb & Heb & Hcb & Hemb & stb & tb & Hstb & Hcntb & Htb & Hdueb & _).
  rewrite Hk2 in Hstb, Hcntb, Htb. rewrite Hsta in Hcntb. simpl in Hcntb.
  assert (timerDelay (silenceMs (settings wa)) = 1) as Honea by (by rewrite Hsa, Hs0).
  rewrite Honea in Hdueb.
  set (wb := step (DidChangeTextDocument second) wa) in *.
  destruct (elapse_fires wb k tb stb quiet HIb Htb ltac:(lia) Hstb) as [Hevb _].
  eexists _, _. rewrite Hevb, Hemb, Heva, Hem0, <- app_assoc.
  split; [done|]. simpl. by rewrite Hcount0, Hcntb.
Qed.

Lemma overlongSilence_value : Z.of_nat overlongSilence = 2147483648%Z.
Proof. unfold overlongSilence. by apply Z2Nat.id. Qed.

(** C1, counterexample.  The silence period is configured as 2^31 ms, which
    the host replaces by 1 ms.  Two edits of the chat document 5 ms apart
    are a burst of two edits, each arriving before the silence period is
    over; but when the silence period has passed two events have been fired
    for the document, each with change count 1, and not one event with
    change count 2. *)
Lemma overlong_silence_fires_per_edit :
  let E := Examples.literalEngine in
  let w := initial (mkSettings true overlongSilence [Examples.chatMatcher]) in
  let k := "vscode-chat:/session1" in
  let first := mkChangeEvent (Examples.chatDoc 1 "a") 1 in
  let rest := [(5, mkChangeEvent (Examples.chatDoc 2 "ab") 1)] in
  let w2 := step (H := E) (Elapse overlongSilence) (run (H := E) (burst first rest) w) in
  (reachable (H := E) w ∧ timersFor k (timers w) = [] ∧
   uri (document first) = k ∧ accepted (H := E) first w = true ∧
   Forall (inBurst (H := E) k w) rest ∧
   silenceMs (settings w) ≤ overlongSilence) ∧
  (∃ ev1 ev2, eventsFor k (emitted w2) = [ev1; ev2] ∧
              changesSinceLastIdle ev1 = 1 ∧ changesSinceLastIdle ev2 = 1) ∧
  ¬ (∃ ev, eventsFor k (emitted w2) = eventsFor k (emitted w) ++ [ev] ∧
           changesSinceLastIdle ev = S (length rest)).
Proof.
  intros E w k first rest w2.
  pose proof overlongSilence_value as Hvalue.
  assert (silenceMs (settings w) = overlongSilence) as Hsilence by reflexivity.
  assert (∃ ev1 ev2, eventsFor k (emitted w2) = [ev1; ev2] ∧
                     changesSinceLastIdle ev1 = 1 ∧ changesSinceLastIdle ev2 = 1) as Htwo.
  { apply (clamped_burst (H := E) w k first 5 (mkChangeEvent (Examples.chatDoc 2 "ab") 1)
             overlongSilence).
    - apply initial_inv.
    - rewrite Hsilence, Hvalue. unfold TIMEOUT_MAX. lia.
    - reflexivity.
    - reflexivity.
    - reflexivity.
    - reflexivity.
    - reflexivity.
    - lia.
    - lia. }
  split; [|split; [exact Htwo|]].
  - split; [apply reachable_initial|]. repeat (split; [reflexivity|]).
    split; [|reflexivity].
    apply Forall_singleton. split; [|split; reflexivity].
    rewrite Hsilence. change (fst (5, mkChangeEvent (Examples.chatDoc 2 "ab") 1)) with 5. lia.
  - destruct Htwo as (ev1 & ev2 & Hev & _). intros (ev & Hone & _).
    rewrite Hev in Hone. discriminate.
Qed.

(** *** The payload of an idle event *)

(** X23. The events fired when time passes are those of the timers that
    have come due, in firing order; each carries the content cached in the
    document's entry, the text captured by the timer when it was armed and
    the accumulated change count; and the text a timer captures is the text
    of the document at the accepted change that armed it. *)
Theorem idle_event_payload `{RegExpEngine} w ms :
  reachable w →
  emitted (step (Elapse ms) w)
  = emitted w ++ omap (idleEventOf w) (filter (isDue (clock w + ms)) (timers w)) ∧
  (∀ t, t ∈ timers w →
     ∃ st, documentStates w !! timerKey t = Some st ∧
           idleEventOf w t = Some (mkIdleEvent (timerKey t) (lastContent st)
                                               (timerContent t) (changeCount st))) ∧
  (∀ event, accepted event w = true →
     ∃ t, timersFor (uri (document event))
                    (timers (step (DidChangeTextDocument event) w)) = [t] ∧
          timerContent t = getText (document event)).
Proof.
  intros Hw. pose proof (reachable_inv w Hw) as HI. split; [|split].
  - apply (elapse_spec w ms HI).
  - intros t Ht. destruct (inv_owner w HI t Ht) as (st & Hst & _).
    exists st. split; [done|]. unfold idleEventOf. rewrite Hst. simpl.
    by rewrite (inv_source w HI _ st Hst).
  - intros event Hacc.
    destruct (change_arms event w HI Hacc) as (_ & _ & _ & _ & _ & st & t & _ & _ & Ht & _ & Hc).
    by exists t.
Qed.

Lemma idle_event_payload_witness :
  let E := Examples.literalEngine in
  let w := staleWorld in
  emitted (step (H := E) (Elapse 1500) w)
  = emitted w ++ omap (idleEventOf w) (filter (isDue (clock w + 1500)) (timers w)) ∧
  (∀ t, t ∈ timers w →
     ∃ st, documentStates w !! timerKey t = Some st ∧
           idleEventOf w t = Some (mkIdleEvent (timerKey t) (lastContent st)
                                               (timerContent t) (changeCount st))) ∧
  (∀ event, accepted (H := E) event w = true →
     ∃ t, timersFor (uri (document event))
                    (timers (step (H := E) (DidChangeTextDocument event) w)) = [t] ∧
          timerContent t = getText (document event)).
Proof.
  intros E w.
  apply (idle_event_payload (H := E) w 1500).
  unfold w. cbv [staleWorld run fold_left].
  do 3 apply reachable_step. apply reachable_initial.
Defined.

(** The text is captured when the timer is armed and not read again: in
    [staleWorld], where an edit of the document was not tracked, the event
    carries ["hello"] while the document reads ["hello world"]. *)
Example untracked_edit_leaves_captured_text :
  emitted (step (H := Examples.literalEngine) (Elapse 1500) staleWorld)
  = [mkIdleEvent "vscode-chat:/session1" "hello" "hello" 1] ∧
  getText <$> documents staleWorld !! "vscode-chat:/session1" = Some "hello world".
Proof. split; by vm_compute. Qed.

(** Ten further edits 200 ms apart, silence 1500 ms: nothing is fired up to
    1499 ms after the last edit, and one event, counting the eleven edits,
    once 1500 ms have passed. *)
Example rapid_edits_fire_once :
  let doc := Examples.chatDoc in
  let w := run (H := Examples.literalEngine)
             (burst (mkChangeEvent (doc 0 "a") 1)
                    (map (fun v => (200, mkChangeEvent (doc v "ab") 1)) (seq 1 10)))
             (initial Examples.demoSettings) in
  clock w = 2000 ∧
  emitted (step (H := Examples.literalEngine) (Elapse 1499) w) = [] ∧
  emitted (step (H := Examples.literalEngine) (Elapse 1500) w)
  = [mkIdleEvent "vscode-chat:/session1" "a" "ab" 11].
Proof. by vm_compute. Qed.

(** *** When the captured text is the live text *)

Lemma elapse_documents w ms : Inv w → documents (elapse ms w) = documents w.
Proof.
  intros HI.
  destruct (runTimers_spec (filter (isDue (clock w + ms)) (timers w)) w HI)
    as (_ & Hh & _).
  - apply NoDup_filter, NoDup_timers, HI.
  - intros t Ht. by apply list_elem_of_filter in Ht as [_ Ht].
  - apply Hh.
Qed.

Lemma trigger_host document w :
  Inv w →
  documents (triggerIdleForDocument document w) = documents w ∧
  ∀ t, t ∈ timers (triggerIdleForDocument document w) → t ∈ timers w.
Proof.
  intros HI. unfold triggerIdleForDocument, getDocumentKey.
  destruct (isEnabled w); simpl; [|done].
  destruct (documentStates w !! uri document) as [st|] eqn:Hst; [|done].
  pose proof (clearStateTimeout_timers w _ st HI Hst) as Hts.
  destruct (clearStateTimeout_fields st w) as (Hs & Hc & Hn & Hd & He & Hm & Hem).
  unfold onDocumentIdle. rewrite Hm, Hst. simpl. rewrite Hts. split; [done|].
  intros t Ht. by apply list_elem_of_filter in Ht as [_ Ht].
Qed.

(** The accepted change that arms the timer of a document leaves it with
    the text the document has. *)
Lemma armed_live `{RegExpEngine} event w :
  Inv w → accepted event w = true →
  holdsLiveText (uri (document event)) (step (DidChangeTextDocument event) w).
Proof.
  intros HI Hacc. simpl. set (w0 := with_documents _ w).
  assert (Inv w0) as HI0 by (by apply (inv_host w)).
  destruct (change_accepted event w0 Hacc HI0) as (Hts & _ & _ & _ & _ & _ & _ & Hd).
  intros t Ht Hk. rewrite Hts in Ht. rewrite Hd. simpl.
  exists (document event). rewrite lookup_insert_eq. split; [done|].
  apply elem_of_schedule in Ht as [->|Ht]; [done|].
  by apply list_elem_of_filter in Ht as [Hne _].
Qed.

(** As long as the document is not edited, its timer keeps holding the
    text the document has, whatever else happens. *)
Lemma quiet_step_live `{RegExpEngine} a w k :
  Inv w → changes k a = false → holdsLiveText k w → holdsLiveText k (step a w).
Proof.
  intros HI Hquiet Hlive. destruct a as [event|document|s|ms|en|document]; simpl in *.
  - apply bool_decide_eq_false in Hquiet.
    set (w0 := with_documents _ w).
    assert (Inv w0) as HI0 by (by apply (inv_host w)).
    destruct (accepted event w0) eqn:Hacc.
    + destruct (change_accepted event w0 Hacc HI0) as (Hts & _ & _ & _ & _ & _ & _ & Hd).
      intros t Ht Hk. rewrite Hts in Ht. rewrite Hd. simpl.
      rewrite lookup_insert_ne by done.
      apply elem_of_schedule in Ht as [->|Ht]; [done|].
      apply list_elem_of_filter in Ht as [_ Ht]. by apply Hlive.
    + rewrite change_ignored by done.
      intros t Ht Hk. simpl in *. rewrite lookup_insert_ne by done. by apply Hlive.
  - set (w0 := with_documents _ w).
    assert (Inv w0) as HI0 by (by apply (inv_host w)).
    destruct (close_spec document w0 HI0) as (Hts & _ & _ & Hh).
    intros t Ht Hk. rewrite Hts in Ht. destruct Hh as (_ & _ & _ & -> & _). simpl.
    apply list_elem_of_filter in Ht as [Hne Ht].
    rewrite lookup_delete_ne by congruence. by apply Hlive.
  - unfold onConfigurationChange. destruct (negb _ && _); [|done].
    destruct (clearAllStates_spec
                (with_enabled (enabled (settings (with_settings s w))) (with_settings s w)))
      as (Hts & _); [by apply (inv_host w)|].
    intros t Ht. rewrite Hts in Ht. by apply elem_of_nil in Ht.
  - destruct (elapse_spec w ms HI) as (_ & _ & _ & _ & _ & Hts & _).
    intros t Ht Hk. rewrite Hts in Ht. rewrite elapse_documents by done.
    apply list_elem_of_filter in Ht as [_ Ht]. by apply Hlive.
  - unfold setEnabled. destruct (Bool.eqb _ _); [done|]. destruct (negb en); [|done].
    destruct (clearAllStates_spec (with_enabled en w)) as (Hts & _);
      [by apply (inv_host w)|].
    intros t Ht. rewrite Hts in Ht. by apply elem_of_nil in Ht.
  - destruct (trigger_host document w HI) as [Hd Hsub].
    intros t Ht Hk. rewrite Hd. apply Hlive; [by apply Hsub|done].
Qed.

Lemma quiet_run_live `{RegExpEngine} k acts : ∀ w,
  Inv w → Forall (fun a => changes k a = false) acts → holdsLiveText k w →
  Inv (run acts w) ∧ holdsLiveText k (run acts w).
Proof.
  induction acts as [|a acts IH]; intros w HI Hquiet Hlive; [done|].
  apply Forall_cons in Hquiet as [Ha Hquiet].
  change (run (a :: acts) w) with (run acts (step a w)).
  apply IH; [by apply step_inv|done|by apply quiet_step_live].
Qed.

(** C5. A timer armed by an accepted edit of a document and followed by no
    further edit of that document, whatever else has happened in between:
    when it elapses, exactly one event is fired for the document, and it
    carries the content cached in the entry as previous content, the text
    the document has at that moment as current content, and the stored
    change count. *)
Theorem idle_event_has_live_content `{RegExpEngine} w0 k event acts t ms :
  reachable w0 →
  uri (document event) = k → accepted event w0 = true →
  Forall (fun a => changes k a = false) acts →
  let w := run acts (step (DidChangeTextDocument event) w0) in
  timersFor k (timers w) = [t] → due t ≤ clock w + ms →
  ∃ d st, documents w !! k = Some d ∧ documentStates w !! k = Some st ∧
          eventsFor k (emitted (step (Elapse ms) w))
          = eventsFor k (emitted w)
            ++ [mkIdleEvent k (lastContent st) (getText d) (changeCount st)].
Proof.
  intros Hw0 Hk Hacc Hquiet w Ht Hdue.
  pose proof (reachable_inv w0 Hw0) as HI0.
  destruct (quiet_run_live k acts (step (DidChangeTextDocument event) w0))
    as [HI Hlive]; [by apply step_inv|done|rewrite <- Hk; by apply armed_live|].
  fold w in HI, Hlive.
  destruct (timersFor_elem k (timers w) t Ht) as [Hin Hkey].
  destruct (Hlive t Hin Hkey) as (d & Hd & Htext).
  destruct (inv_owner w HI t Hin) as (st & Hst & _). rewrite Hkey in Hst.
  destruct (elapse_fires w k t st ms HI Ht Hdue Hst) as [Hev _].
  exists d, st. split; [done|]. split; [done|].
  change (step (Elapse ms) w) with (elapse ms w). by rewrite Hev, Htext.
Qed.

Lemma idle_event_has_live_content_witness :
  let E := Examples.literalEngine in
  let k := "vscode-chat:/session1" in
  let event := mkChangeEvent (Examples.chatDoc 1 "hello") 1 in
  let acts := [Elapse 700; Examples.edit (Examples.notesDoc 1 "x"); Elapse 100] in
  let w := run (H := E) acts
               (step (H := E) (DidChangeTextDocument event)
                     (initial Examples.demoSettings)) in
  ∃ d st, documents w !! k = Some d ∧ documentStates w !! k = Some st ∧
          eventsFor k (emitted (step (H := E) (Elapse 700) w))
          = eventsFor k (emitted w)
            ++ [mkIdleEvent k (lastContent st) (getText d) (changeCount st)].
Proof.
  intros E k event acts.
  apply (idle_event_has_live_content (H := E) (initial Examples.demoSettings) k event acts
           (mkTimer 0 1500 k "hello") 700).
  - apply reachable_initial.
  - reflexivity.
  - reflexivity.
  - repeat constructor.
  - by vm_compute.
  - vm_compute. lia.
Defined.

End DetectorProps.

(** * Properties of the matcher *)

Module ConfigProps.
Import Vscode Js Config.

Lemma tryMatcher_spec `{RegExpEngine} matcher document :
  match tryMatcher matcher document with
  | Normal b => matcherMatches matcher document = b
  | Throw _ => matcherMatches matcher document = false
  end.
Proof.
  unfold tryMatcher, matcherMatches, new_RegExp.
  destruct (compile (languageIdRegex matcher)); simpl; [|done].
  destruct (compile (schemeRegex matcher)); simpl; [|done].
  destruct (compile (titleRegex matcher)); simpl; done.
Qed.

Lemma matchesChat_cons `{RegExpEngine} matcher rest document :
  matchesChat (matcher :: rest) document
  = match tryMatcher matcher document with
    | Normal true => (Normal true, [])
    | Normal false => matchesChat rest document
    | Throw e => (fst (matchesChat rest document),
                  mkWarning matcher e :: snd (matchesChat rest document))
    end.
Proof.
  simpl. unfold iteration.
  destruct (tryMatcher matcher document) as [[|]|e]; simpl; [done| |];
    by destruct (matchesChat rest document).
Qed.

(** C8. [matchesChat] completes normally with a boolean for every list of
    matchers and every document; a matcher whose pattern does not compile
    counts as not matching and is only reported, and the matchers after it
    are still evaluated. *)
Theorem matchesChat_never_throws `{RegExpEngine} matchers document :
  fst (matchesChat matchers document)
  = Normal (existsb (fun m => matcherMatches m document) matchers) ∧
  (∀ matcher, match tryMatcher matcher document with
              | Normal b => matcherMatches matcher document = b
              | Throw _ => matcherMatches matcher document = false
              end) ∧
  (∀ matcher rest,
     matchesChat (matcher :: rest) document
     = match tryMatcher matcher document with
       | Normal true => (Normal true, [])
       | Normal false => matchesChat rest document
       | Throw e => (fst (matchesChat rest document),
                     mkWarning matcher e :: snd (matchesChat rest document))
       end).
Proof.
  split; [|split; intros; [apply tryMatcher_spec|apply matchesChat_cons]].
  induction matchers as [|m ms IH]; [done|].
  rewrite matchesChat_cons. pose proof (tryMatcher_spec m document) as Hm.
  destruct (tryMatcher m document) as [[|]|e]; simpl; rewrite Hm; simpl; done.
Qed.

(** The configuration of the examples: the first matcher is malformed, the
    second one decides. *)
Example matchesChat_skips_broken_matcher :
  matchesChat (H := Examples.literalEngine) (chatMatchers Examples.demoSettings)
              (Examples.chatDoc 1 "hi")
  = (Normal true, [mkWarning Examples.brokenMatcher (SyntaxError "(")]) ∧
  matchesChat (H := Examples.literalEngine) (chatMatchers Examples.demoSettings)
              (Examples.notesDoc 1 "hi")
  = (Normal false, [mkWarning Examples.brokenMatcher (SyntaxError "(")]).
Proof. split; reflexivity. Qed.

End ConfigProps.

(** * Properties of the extractor *)

Module ExtractProps.
Import JsString ExtractCommands ExtractSpec.

(** *** Trimmed strings *)

Lemma dropWhile_noLead s : noLead (dropWhile isWhiteSpace s).
Proof.
  induction s as [|c s IH]; simpl; [done|].
  destruct (isWhiteSpace c) eqn:Hc; [done|]. simpl. done.
Qed.

Lemma dropWhile_suffix p s : dropWhile p s `suffix_of` s.
Proof.
  induction s as [|c s IH]; simpl; [done|].
  destruct (p c); [by apply suffix_cons_r|done].
Qed.

Lemma dropWhile_id s : noLead s → dropWhile isWhiteSpace s = s.
Proof. destruct s as [|c s]; simpl; [done|]. by intros ->. Qed.

Lemma dropWhile_snoc p l c : p c = false → dropWhile p (l ++ [c]) = dropWhile p l ++ [c].
Proof.
  intros Hc. induction l as [|a l IH]; simpl; [by rewrite Hc|].
  by destruct (p a).
Qed.

Lemma noTrail_suffix r s : r `suffix_of` s → noTrail s → noTrail r.
Proof.
  intros [p ->]. unfold noTrail. rewrite rev_app_distr.
  by destruct (rev r).
Qed.

Lemma trim_noLead s : noLead (trim s).
Proof.
  unfold trim, trimEnd, trimStart. pose proof (dropWhile_noLead s) as Hd.
  destruct (dropWhile isWhiteSpace s) as [|c d]; simpl; [done|]. simpl in Hd.
  rewrite dropWhile_snoc by done. rewrite rev_app_distr. done.
Qed.

Lemma trim_noTrail s : noTrail (trim s).
Proof. unfold noTrail, trim, trimEnd. rewrite rev_involutive. apply dropWhile_noLead. Qed.

Lemma trim_id s : noLead s → noTrail s → trim s = s.
Proof.
  intros Hl Ht. unfold trim, trimStart, trimEnd.
  rewrite (dropWhile_id s) by done. rewrite dropWhile_id by done.
  apply rev_involutive.
Qed.

(** *** What the pieces consume *)

Lemma stripPrefix_suffix p : ∀ s r, stripPrefix p s = Some r → r `suffix_of` s.
Proof.
  induction p as [|a p IH]; intros s r; simpl.
  - by intros [= ->].
  - destruct s as [|b s]; [done|]. destruct (Ascii.eqb a b); [|done].
    intros Hr%IH. by apply suffix_cons_r.
Qed.

Lemma plus_space s r : plus isWhiteSpace s = Some r → r `suffix_of` s ∧ noLead r.
Proof.
  unfold plus. destruct s as [|c s]; [done|]. destruct (isWhiteSpace c); [|done].
  intros [= <-]. split; [apply suffix_cons_r, dropWhile_suffix|apply dropWhile_noLead].
Qed.

Lemma dotStarGt_suffix s : ∀ r, dotStarGt s = Some r → r `suffix_of` s.
Proof.
  induction s as [|c s IH]; intros r; simpl; [done|].
  destruct (isLineTerminator c); [done|].
  destruct (dotStarGt s) as [r'|].
  - intros [= <-]. by apply suffix_cons_r, IH.
  - destruct (Ascii.eqb c ">"); [|done]. intros [= <-]. by apply suffix_cons_r.
Qed.

Lemma clean_suffix s r : Clean s → r `suffix_of` s → noLead r → Clean r.
Proof. intros [_ Ht] Hs Hl. split; [done|by eapply noTrail_suffix]. Qed.

Lemma stripBashPrompt_clean s : Clean s → Clean (stripBashPrompt s).
Proof.
  intros Hs. unfold stripBashPrompt, seq, literal.
  destruct (stripPrefix (lit "$") s) as [r1|] eqn:H1; [|done].
  destruct (plus isWhiteSpace r1) as [r2|] eqn:H2; [|done].
  apply stripPrefix_suffix in H1. apply plus_space in H2 as [H2 Hl].
  apply (clean_suffix s); [done|by etrans|done].
Qed.

Lemma stripPowerShellPrompt_clean s : Clean s → Clean (stripPowerShellPrompt s).
Proof.
  intros Hs. unfold stripPowerShellPrompt, seq, literal, star.
  destruct (stripPrefix (lit "PS") s) as [r1|] eqn:H1; [|done].
  destruct (stripPrefix (lit ">") (dropWhile isWhiteSpace r1)) as [r2|] eqn:H2; [|done].
  apply stripPrefix_suffix in H1, H2.
  apply (clean_suffix s); [done| |apply dropWhile_noLead].
  etrans; [apply dropWhile_suffix|]. etrans; [exact H2|].
  etrans; [apply dropWhile_suffix|done].
Qed.

Lemma stripCmdPrompt_clean s : Clean s → Clean (stripCmdPrompt s).
Proof.
  intros Hs. unfold stripCmdPrompt, seq, literal, star.
  destruct (stripPrefix (lit "C:\") s) as [r1|] eqn:H1; [|done].
  destruct (dotStarGt r1) as [r2|] eqn:H2; [|done].
  apply stripPrefix_suffix in H1. apply dotStarGt_suffix in H2.
  apply (clean_suffix s); [done| |apply dropWhile_noLead].
  etrans; [apply dropWhile_suffix|]. by etrans.
Qed.

Lemma stripGenericPrompt_clean s : Clean s → Clean (stripGenericPrompt s).
Proof.
  intros Hs. unfold stripGenericPrompt, seq, literal.
  destruct (stripPrefix (lit ">") s) as [r1|] eqn:H1; [|done].
  destruct (plus isWhiteSpace r1) as [r2|] eqn:H2; [|done].
  apply stripPrefix_suffix in H1. apply plus_space in H2 as [H2 Hl].
  apply (clean_suffix s); [done|by etrans|done].
Qed.

Lemma parseLine_clean line command :
  parseLine line = Some command → command ≠ [] ∧ trim command = command.
Proof.
  unfold parseLine.
  destruct (_ || _ || _); [done|].
  destruct (bool_decide _) eqn:Hne; [done|].
  destruct (looksLikeOutput _); [done|]. intros [= <-].
  apply bool_decide_eq_false in Hne. split; [done|].
  assert (Clean (trim line)) as Hc by (split; [apply trim_noLead|apply trim_noTrail]).
  apply stripBashPrompt_clean, stripPowerShellPrompt_clean,
        stripCmdPrompt_clean, stripGenericPrompt_clean in Hc.
  destruct Hc. by apply trim_id.
Qed.

(** The loop of [parseCommandsFromBlock] keeps, in order, the command of
    every line that yields one. *)
Lemma parseCommandsFromBlock_omap content :
  parseCommandsFromBlock content = omap parseLine (split LF content).
Proof.
  unfold parseCommandsFromBlock.
  assert (∀ lines acc,
    fold_left (fun commands line =>
                 match parseLine line with
                 | Some command => commands ++ [command]
                 | None => commands
                 end) lines acc
    = acc ++ omap parseLine lines) as Hgen.
  { induction lines as [|l lines IH]; intros acc; simpl; [by rewrite app_nil_r|].
    rewrite IH. destruct (parseLine l); [by rewrite <- app_assoc|done]. }
  apply Hgen.
Qed.

(** *** The shape of an extraction *)

Lemma addBlock_fold bs : ∀ cmds hint,
  fold_left addBlock bs (cmds, hint)
  = (cmds ++ flat_map (fun b => parseCommandsFromBlock (content b)) bs,
     match hint with Some l => Some l | None => firstTag bs end).
Proof.
  induction bs as [|b bs IH]; intros cmds hint; simpl.
  - rewrite app_nil_r. by destruct hint.
  - rewrite IH, <- app_assoc. f_equal. unfold firstTag. simpl.
    destruct hint; [done|]. by destruct (asShellLanguage (language b)).
Qed.

Lemma extractCommands_shape text recentTextOnly :
  let targets := targetBlocks text recentTextOnly in
  let cmds := flat_map (fun b => parseCommandsFromBlock (content b)) targets in
  extractCommands text recentTextOnly
  = mkExtracted cmds
      (match firstTag targets with
       | Some l => Some l
       | None => if 0 <? length cmds then inferShellLanguage cmds else None
       end)
      (candidates text (fencedBlocks text)).
Proof.
  unfold extractCommands, targetBlocks.
  destruct (candidates text (fencedBlocks text)) as [|b bs] eqn:Hc.
  - simpl. by destruct recentTextOnly.
  - change (length (b :: bs) =? 0) with false. cbv iota.
    rewrite addBlock_fold. simpl app. by destruct (firstTag _).
Qed.

Lemma targetBlocks_candidates text recentTextOnly b :
  b ∈ targetBlocks text recentTextOnly → b ∈ candidates text (fencedBlocks text).
Proof.
  unfold targetBlocks. destruct recentTextOnly; [|done].
  destruct (last _) as [b'|] eqn:Hl; [|by intros ?%elem_of_nil].
  intros ->%list_elem_of_singleton. by eapply last_Some_elem_of.
Qed.

(** C10. Every extracted command is a non-empty string that equals its own
    trim. *)
Theorem commands_are_trimmed text recentTextOnly :
  Forall (fun command => command ≠ [] ∧ trim command = command)
         (commands (extractCommands text recentTextOnly)).
Proof.
  rewrite extractCommands_shape. simpl. apply Forall_forall. intros c Hc.
  apply list_elem_of_In, in_flat_map in Hc as (b & _ & Hc).
  rewrite parseCommandsFromBlock_omap in Hc.
  apply list_elem_of_In, list_elem_of_omap in Hc as (line & _ & Hline).
  by eapply parseLine_clean.
Qed.

(** The scenarios of the specification. *)
Example bash_block_scenario :
  let text := lit "Sure, run this:" ++ [LF] ++ lit "```bash" ++ [LF]
              ++ lit "npm install" ++ [LF] ++ lit "npm run build" ++ [LF] ++ lit "```" in
  commands (extractCommands text true) = [lit "npm install"; lit "npm run build"] ∧
  languageHint (extractCommands text true) = Some bash.
Proof. by vm_compute. Qed.

Example no_fence_scenario :
  extractCommands (lit "There is no fenced block in this reply.") true
  = mkExtracted [] None [].
Proof. by vm_compute. Qed.

Example prompt_is_stripped :
  parseLine (lit "$ npm install") = Some (lit "npm install") ∧
  parseLine (lit "npm install") = Some (lit "npm install").
Proof. by vm_compute. Qed.

Example explicit_tag_wins :
  let text := lit "```powershell" ++ [LF] ++ lit "ls -la" ++ [LF] ++ lit "```" in
  commands (extractCommands text true) = [lit "ls -la"] ∧
  languageHint (extractCommands text true) = Some powershell.
Proof. by vm_compute. Qed.

Example untagged_block_is_stage_B :
  let text := lit "Please run the command below." ++ [LF] ++ lit "```" ++ [LF]
              ++ lit "git status" ++ [LF] ++ lit "```" in
  stageA (fencedBlocks text) = [] ∧
  rawBlocks (extractCommands text true) = stageB (fencedBlocks text) ∧
  commands (extractCommands text true) = [lit "git status"] ∧
  languageHint (extractCommands text true) = Some bash.
Proof. by vm_compute. Qed.

(** *** The fallback chain *)

(** C2. The candidate blocks are those of exactly one stage: stage A when
    it finds a block, else stage B when it finds one, else stage C; and
    every command comes from one of those candidates. *)
Theorem stages_are_exclusive text recentTextOnly :
  let blocks := fencedBlocks text in
  let result := extractCommands text recentTextOnly in
  ((stageA blocks ≠ [] ∧ rawBlocks result = stageA blocks) ∨
   (stageA blocks = [] ∧ stageB blocks ≠ [] ∧ rawBlocks result = stageB blocks) ∨
   (stageA blocks = [] ∧ stageB blocks = [] ∧ rawBlocks result = stageC text blocks)) ∧
  Forall (fun command =>
            Exists (fun b => command ∈ parseCommandsFromBlock (content b))
                   (rawBlocks result))
         (commands result).
Proof.
  intros blocks result. subst result. rewrite extractCommands_shape. simpl. split.
  - unfold candidates. fold blocks.
    destruct (stageA blocks) as [|a la] eqn:HA; simpl.
    + destruct (stageB blocks) as [|b lb] eqn:HB; simpl.
      * right. right. done.
      * right. left. done.
    + left. done.
  - apply Forall_forall. intros c Hc.
    apply list_elem_of_In, in_flat_map in Hc as (b & Hb & Hc).
    apply Exists_exists. exists b. split; [|by apply list_elem_of_In].
    by eapply targetBlocks_candidates, list_elem_of_In.
Qed.

(** *** The last block *)

Lemma matchFenceAt_length s tag inner len :
  matchFenceAt s = Some (tag, inner, len) → 1 ≤ len.
Proof.
  unfold matchFenceAt. destruct (stripPrefix _ s) as [r1|]; [|done].
  destruct (dropWhile isAsciiLetter r1) as [|c r3]; [done|].
  destruct (Ascii.eqb c LF); [|done].
  destruct (untilFence r3); [|done]. intros [= _ _ <-]. lia.
Qed.

(** The scanned blocks do not overlap and come in the order of the text. *)
Lemma scanBlocks_sorted s : ∀ skip pos,
  Forall (fun b => pos + skip ≤ startIndex b) (scanBlocks skip pos s) ∧
  StronglySorted (fun a b => endIndex a ≤ startIndex b) (scanBlocks skip pos s).
Proof.
  induction s as [|c s IH]; intros skip pos; simpl; [by split; constructor|].
  destruct skip as [|k].
  - destruct (matchFenceAt (c :: s)) as [[[tag inner] len]|] eqn:Hm.
    + apply matchFenceAt_length in Hm.
      destruct (IH (len - 1) (S pos)) as [Hlo Hso].
      destruct (trim inner) as [|x xs].
      * split; [|done]. eapply Forall_impl; [exact Hlo|]. simpl. lia.
      * split.
        -- constructor; [simpl; lia|]. eapply Forall_impl; [exact Hlo|]. simpl. lia.
        -- constructor; [done|]. eapply Forall_impl; [exact Hlo|]. simpl. lia.
    + destruct (IH 0 (S pos)) as [Hlo Hso]. split; [|done].
      eapply Forall_impl; [exact Hlo|]. simpl. lia.
  - destruct (IH k (S pos)) as [Hlo Hso]. split; [|done].
    eapply Forall_impl; [exact Hlo|]. simpl. lia.
Qed.

Lemma StronglySorted_filter {A} (R : relation A) (P : A → Prop)
    `{!∀ x, Decision (P x)} (l : list A) :
  StronglySorted R l → StronglySorted R (filter P l).
Proof.
  induction 1 as [|a l Hs IH Hall]; [constructor|].
  rewrite filter_cons. case_decide; [|done].
  constructor; [done|]. apply Forall_forall. intros x Hx.
  apply list_elem_of_filter in Hx as [_ Hx].
  by eapply Forall_forall in Hall.
Qed.

Lemma candidates_sorted text :
  StronglySorted (fun a b => endIndex a ≤ startIndex b)
                 (candidates text (fencedBlocks text)).
Proof.
  pose proof (proj2 (scanBlocks_sorted text 0 0)) as Hs. fold (fencedBlocks text) in Hs.
  unfold candidates, stageA, stageB, stageC.
  repeat case_match; by repeat apply StronglySorted_filter.
Qed.

(** C3. When more than one block is a candidate, the default extraction
    returns the commands of the last candidate in the order of its lines;
    every other candidate ends before the last one starts and contributes
    nothing. *)
Theorem last_block_only text :
  let result := extractCommands text true in
  1 < length (rawBlocks result) →
  ∃ earlier b,
    rawBlocks result = earlier ++ [b] ∧ earlier ≠ [] ∧
    Forall (fun b' => endIndex b' ≤ startIndex b) earlier ∧
    commands result = parseCommandsFromBlock (content b) ∧
    commands result = omap parseLine (split LF (content b)).
Proof.
  intros result Hlen. subst result. rewrite extractCommands_shape in *. simpl in *.
  unfold targetBlocks.
  pose proof (candidates_sorted text) as Hs.
  destruct (last (candidates text (fencedBlocks text))) as [b|] eqn:Hlast.
  - apply last_Some in Hlast as [earlier Heq]. rewrite Heq in *.
    exists earlier, b. split; [done|]. split.
    { intros ->. simpl in Hlen. lia. }
    split.
    { apply Forall_forall. intros b' Hb'.
      apply (StronglySorted_app_1_elem_of (fun a b => endIndex a ≤ startIndex b)
               earlier [b] b' b Hs); [done|left]. }
    simpl. rewrite app_nil_r. split; [done|apply parseCommandsFromBlock_omap].
  - apply last_None in Hlast. rewrite Hlast in Hlen. simpl in Hlen. lia.
Qed.

Lemma last_block_only_witness :
  let result := extractCommands twoBlocks true in
  1 < length (rawBlocks result) ∧
  commands result = [lit "npm run build"; lit "npm test"] ∧
  ∃ earlier b,
    rawBlocks result = earlier ++ [b] ∧ earlier ≠ [] ∧
    Forall (fun b' => endIndex b' ≤ startIndex b) earlier ∧
    commands result = parseCommandsFromBlock (content b) ∧
    commands result = omap parseLine (split LF (content b)).
Proof.
  assert (1 < length (rawBlocks (extractCommands twoBlocks true))) as Hlen
    by (vm_compute; lia).
  split; [exact Hlen|]. split; [by vm_compute|].
  exact (last_block_only twoBlocks Hlen).
Defined.

(** *** The language hint *)

(** C4, counterexample.  A block tagged [bash] that holds only a comment
    yields no command, and yet the hint is [bash]. *)
Lemma tagged_comment_block_has_hint :
  commands (extractCommands commentOnly true) = [] ∧
  languageHint (extractCommands commentOnly true) = Some bash ∧
  ¬ (commands (extractCommands commentOnly true) = [] →
     languageHint (extractCommands commentOnly true) = None).
Proof.
  split; [by vm_compute|]. split; [by vm_compute|].
  intros Hclaim. specialize (Hclaim ltac:(by vm_compute)).
  vm_compute in Hclaim. discriminate.
Qed.

(** C4, amended.  Without commands no hint is inferred: the hint is the
    explicit recognised tag of the first selected block that carries one,
    and none when no selected block carries one. *)
Theorem empty_commands_hint_is_a_tag text recentTextOnly :
  commands (extractCommands text recentTextOnly) = [] →
  languageHint (extractCommands text recentTextOnly)
  = firstTag (targetBlocks text recentTextOnly) ∧
  ∀ l, languageHint (extractCommands text recentTextOnly) = Some l →
       ∃ b, b ∈ rawBlocks (extractCommands text recentTextOnly) ∧
            asShellLanguage (language b) = Some l.
Proof.
  rewrite extractCommands_shape. simpl. intros Hnil. rewrite Hnil. simpl.
  assert (match firstTag (targetBlocks text recentTextOnly) with
          | Some l => Some l
          | None => None
          end = firstTag (targetBlocks text recentTextOnly)) as ->
    by (by destruct (firstTag _)).
  split; [done|]. intros l Hl. unfold firstTag in Hl.
  apply head_Some_elem_of, list_elem_of_omap in Hl as (b & Hb & Htag).
  exists b. split; [by eapply targetBlocks_candidates|done].
Qed.

Lemma empty_commands_hint_is_a_tag_witness :
  commands (extractCommands commentOnly true) = [] ∧
  languageHint (extractCommands commentOnly true)
  = firstTag (targetBlocks commentOnly true) ∧
  ∀ l, languageHint (extractCommands commentOnly true) = Some l →
       ∃ b, b ∈ rawBlocks (extractCommands commentOnly true) ∧
            asShellLanguage (language b) = Some l.
Proof.
  assert (commands (extractCommands commentOnly true) = []) as Hnil by (by vm_compute).
  split; [exact Hnil|].
  exact (empty_commands_hint_is_a_tag commentOnly true Hnil).
Defined.

(** *** The shell-shape heuristic *)

Lemma ratio_gt_half (a b : nat) :
  b ≠ 0 →
  negb (Qle_bool (Qdiv (inject_Z (Z.of_nat a)) (inject_Z (Z.of_nat b))) (1 # 2))
  = (b <? 2 * a).
Proof.
  intros Hb.
  destruct (Nat.ltb_spec b (2 * a)) as [Hlt|Hge].
  - apply negb_true_iff, not_true_is_false. intros Hle.
    apply Qle_bool_iff in Hle.
    unfold Qle, Qdiv, Qmult, Qinv, inject_Z in Hle. simpl in Hle.
    destruct (Z.of_nat b) eqn:Eb; simpl in Hle; lia.
  - apply negb_false_iff, Qle_bool_iff.
    unfold Qle, Qdiv, Qmult, Qinv, inject_Z. simpl.
    destruct (Z.of_nat b) eqn:Eb; simpl; lia.
Qed.

(** C9. A block looks like shell commands exactly when strictly more than
    half of its non-empty trimmed lines match one of the patterns; a block
    without such lines never does, and a block with a single line does
    exactly when that line matches. *)
Theorem shell_shape_is_a_strict_majority content :
  let lines := trimmedLines content in
  let hits := filter (fun line => isCommandLike line = true) lines in
  looksLikeShellCommands content = (length lines <? 2 * length hits) ∧
  match lines with
  | [] => looksLikeShellCommands content = false
  | [line] => looksLikeShellCommands content = isCommandLike line
  | _ :: _ :: _ => True
  end.
Proof.
  intros lines hits.
  assert (looksLikeShellCommands content = (length lines <? 2 * length hits)) as Heq.
  { unfold looksLikeShellCommands. fold lines. fold hits.
    destruct (length lines =? 0) eqn:Hz.
    - apply Nat.eqb_eq in Hz. symmetry. apply Nat.ltb_ge.
      pose proof (length_filter (fun line => isCommandLike line = true) lines).
      fold hits in H. lia.
    - apply Nat.eqb_neq in Hz. by apply ratio_gt_half. }
  split; [done|]. rewrite Heq. subst hits.
  destruct lines as [|line [|line' rest]]; [done| |done].
  rewrite filter_cons. case_decide as Hhit.
  - by rewrite Hhit.
  - apply not_true_is_false in Hhit. by rewrite Hhit.
Qed.

End ExtractProps.

(** * Further properties of the detector *)

Module DetectorExtras.
Import Vscode Js Config ChatIdleDetector ChatIdleDetectorDebug DetectorSpec DetectorProps.

Lemma trigger_fields document w :
  Inv w →
  let k := uri document in
  let w' := triggerIdleForDocument document w in
  isEnabled w' = isEnabled w ∧ settings w' = settings w ∧
  timers w' = (if isEnabled w then filter (fun u => timerKey u ≠ k) (timers w)
               else timers w).
Proof.
  intros HI k w'. subst w'. unfold triggerIdleForDocument, getDocumentKey. fold k.
  destruct (isEnabled w) eqn:Hen; simpl; [|done].
  destruct (documentStates w !! k) as [st|] eqn:Hst.
  - pose proof (clearStateTimeout_timers w k st HI Hst) as Hts.
    destruct (clearStateTimeout_fields st w) as (Hs & Hc & Hn & Hd & He & Hm & Hem).
    unfold onDocumentIdle. rewrite Hm, Hst. simpl. by rewrite Hts, He, Hs, Hen.
  - rewrite Hen. by rewrite (filter_key_untracked w k HI Hst).
Qed.

Lemma change_fields `{RegExpEngine} event w :
  Inv w →
  let w' := step (DidChangeTextDocument event) w in
  isEnabled w' = isEnabled w ∧ settings w' = settings w ∧ emitted w' = emitted w.
Proof.
  intros HI w'. subst w'. simpl. set (w0 := with_documents _ w).
  destruct (accepted event w0) eqn:Hacc.
  - apply change_accepted in Hacc; [|by apply (inv_host w)].
    destruct Hacc as (_ & _ & _ & Hem & Hs & _ & He & _). by rewrite He, Hs, Hem.
  - by rewrite change_ignored.
Qed.

Lemma elapse_no_timers w ms : Inv w → timers w = [] → elapse ms w = with_clock (clock w + ms) w.
Proof. intros _ Hts. unfold elapse. by rewrite Hts. Qed.

Lemma config_enabled s w :
  isEnabled (onConfigurationChange (with_settings s w)) = enabled s.
Proof.
  unfold onConfigurationChange. simpl. destruct (negb (enabled s) && isEnabled w); [|done].
  unfold clearAllStates. simpl.
  generalize (map_to_list (documentStates w)). intros l.
  induction l as [|[k st] l IH]; [done|]. simpl.
  by destruct (clearStateTimeout_fields st
    (foldr (fun '(_, state) acc => clearStateTimeout state acc)
           (with_enabled (enabled s) (with_settings s w)) l)) as (_ & _ & _ & _ & -> & _).
Qed.

(** A disabled detector is empty: it tracks no document and has no timer
    pending. *)
Lemma disabled_is_empty `{RegExpEngine} w :
  reachable w → isEnabled w = false → documentStates w = ∅ ∧ timers w = [].
Proof.
  induction 1 as [s|a w Hw IH]; [done|]. intros Hoff.
  pose proof (reachable_inv w Hw) as HI.
  destruct a as [event|document|s|ms|en|document].
  - destruct (change_fields event w HI) as (He & _). rewrite He in Hoff.
    destruct (IH Hoff) as [Hds Hts]. simpl.
    rewrite change_ignored; [done|]. unfold accepted. simpl. by rewrite Hoff.
  - simpl. set (w0 := with_documents _ w).
    destruct (close_spec document w0) as (Hts' & Hds' & _ & Hh); [by apply (inv_host w)|].
    destruct Hh as (_ & _ & _ & _ & He). simpl in Hoff. fold w0 in Hoff.
    rewrite He in Hoff. destruct (IH Hoff) as [Hds Hts].
    rewrite Hts', Hds'. simpl. rewrite Hds, Hts. split; [apply delete_empty|done].
  - simpl in *. rewrite config_enabled in Hoff. unfold onConfigurationChange. simpl.
    rewrite Hoff. simpl. destruct (isEnabled w) eqn:Hen.
    + destruct (clearAllStates_spec (with_enabled false (with_settings s w)))
        as (Hts & Hds & _); [by apply (inv_host w)|]. done.
    + simpl. by apply IH.
  - destruct (elapse_spec w ms HI) as (_ & _ & He & _).
    change (step (Elapse ms) w) with (elapse ms w) in *.
    rewrite He in Hoff. destruct (IH Hoff) as [Hds Hts].
    rewrite elapse_no_timers by done. done.
  - simpl in *. unfold setEnabled in *. destruct (Bool.eqb (isEnabled w) en) eqn:Heq.
    + by apply IH.
    + simpl in Hoff. destruct en; simpl in *; [done|].
      destruct (clearAllStates_spec (with_enabled false w)) as (Hts & Hds & _);
        [by apply (inv_host w)|]. done.
  - destruct (trigger_fields document w HI) as (He & _).
    change (step (TriggerIdle document) w) with (triggerIdleForDocument document w) in *.
    rewrite He in Hoff. unfold triggerIdleForDocument. rewrite Hoff. simpl.
    by apply IH.
Qed.

(** X1. While the detector is disabled it tracks nothing, no timer is
    pending, and no action whatsoever makes it fire an event. *)
Theorem disabled_detector_is_silent `{RegExpEngine} w a :
  reachable w → isEnabled w = false →
  documentStates w = ∅ ∧ timers w = [] ∧
  trackedDocuments (getDebugInfo w) = 0 ∧
  emitted (step a w) = emitted w.
Proof.
  intros Hw Hoff. destruct (disabled_is_empty w Hw Hoff) as [Hds Hts].
  pose proof (reachable_inv w Hw) as HI.
  split; [done|]. split; [done|]. split.
  { simpl. rewrite Hds. apply map_size_empty. }
  destruct (step_emitted a w HI) as (new & Hem & Hnew). rewrite Hem.
  destruct new as [|ev new]; [by rewrite app_nil_r|].
  destruct (Hnew ev ltac:(left)) as [st Hst]. rewrite Hds in Hst.
  by rewrite lookup_empty in Hst.
Qed.

Lemma disabled_detector_is_silent_witness :
  let w := step (H := Examples.literalEngine) (SetEnabled false)
             (step (H := Examples.literalEngine) (Examples.edit (Examples.chatDoc 1 "hi"))
                   (initial Examples.demoSettings)) in
  documentStates w = ∅ ∧ timers w = [] ∧
  trackedDocuments (getDebugInfo w) = 0 ∧
  emitted (step (H := Examples.literalEngine) (Elapse 5000) w) = emitted w.
Proof.
  intros w.
  apply (disabled_detector_is_silent (H := Examples.literalEngine) w (Elapse 5000)).
  - do 2 apply reachable_step. apply reachable_initial.
  - reflexivity.
Defined.

Lemma timersFor_filter_other k k' ts :
  k ≠ k' → timersFor k' (filter (fun u => timerKey u ≠ k) ts) = timersFor k' ts.
Proof.
  intros Hne. unfold timersFor. rewrite list_filter_filter.
  apply list_filter_iff. intros u. split; [tauto|]. intros Hk. split; congruence.
Qed.

(** X2. An action about one document (a change, a close, a manual
    trigger) leaves every other document alone: its entry, its pending
    timer and the events fired for it are unchanged. *)
Theorem documents_are_independent `{RegExpEngine} w a k k' :
  reachable w → concerns a = Some k → k ≠ k' →
  documentStates (step a w) !! k' = documentStates w !! k' ∧
  timersFor k' (timers (step a w)) = timersFor k' (timers w) ∧
  eventsFor k' (emitted (step a w)) = eventsFor k' (emitted w).
Proof.
  intros Hw Hc Hne. pose proof (reachable_inv w Hw) as HI.
  destruct a as [event|document|s|ms|en|document]; simpl in Hc; try done;
    injection Hc as <-.
  - simpl. set (w0 := with_documents _ w).
    destruct (accepted event w0) eqn:Hacc.
    + apply change_accepted in Hacc; [|by apply (inv_host w)].
      destruct Hacc as (Hts & Hds & _ & Hem & _). rewrite Hts, Hds, Hem. simpl.
      rewrite lookup_insert_ne by done.
      rewrite timersFor_schedule_ne by done. by rewrite timersFor_filter_other.
    + by rewrite change_ignored.
  - simpl. set (w0 := with_documents _ w).
    destruct (close_spec document w0) as (Hts & Hds & Hem & _); [by apply (inv_host w)|].
    rewrite Hts, Hds, Hem. simpl. rewrite lookup_delete_ne by done.
    by rewrite timersFor_filter_other.
  - simpl. destruct (trigger_fields document w HI) as (_ & _ & Hts).
    destruct (trigger_spec document w HI) as [Heq|(st & Hst & Hds & Hem)].
    + by rewrite Heq.
    + rewrite Hts, Hds, Hem. rewrite lookup_insert_ne by done. split; [done|]. split.
      * destruct (isEnabled w); [by rewrite timersFor_filter_other|done].
      * rewrite eventsFor_app. unfold eventsFor at 2.
        rewrite filter_cons_False by done. by rewrite app_nil_r.
Qed.

Lemma documents_are_independent_witness :
  let w := step (H := Examples.literalEngine) (Examples.edit (Examples.chatDoc 1 "hi"))
             (initial Examples.demoSettings) in
  let a := DidCloseTextDocument (Examples.notesDoc 1 "x") in
  let k' := "vscode-chat:/session1" in
  documentStates (step (H := Examples.literalEngine) a w) !! k' = documentStates w !! k' ∧
  timersFor k' (timers (step (H := Examples.literalEngine) a w)) = timersFor k' (timers w) ∧
  eventsFor k' (emitted (step (H := Examples.literalEngine) a w)) = eventsFor k' (emitted w).
Proof.
  intros w a k'.
  apply (documents_are_independent (H := Examples.literalEngine) w a "file:///notes.txt" k').
  - apply reachable_step, reachable_initial.
  - reflexivity.
  - discriminate.
Defined.

(** X3. Switching the detector off and on again, as the toggle command
    does, leaves it enabled and empty: every entry and every pending timer
    is gone and the rounds under way are lost, while nothing is fired.
    Setting the state it already has changes nothing. *)
Theorem toggling_resets_the_detector `{RegExpEngine} w :
  reachable w →
  let w' := step (SetEnabled true) (step (SetEnabled false) w) in
  isEnabled w' = true ∧ documentStates w' = ∅ ∧ timers w' = [] ∧
  emitted w' = emitted w ∧
  step (SetEnabled (isEnabled w)) w = w.
Proof.
  intros Hw w'. pose proof (reachable_inv w Hw) as HI.
  assert (reachable (step (SetEnabled false) w)) as Hw1 by (by constructor).
  assert (isEnabled (step (SetEnabled false) w) = false) as Hoff.
  { simpl. unfold setEnabled. destruct (isEnabled w) eqn:Hen; simpl; [|done].
    by destruct (clearAllStates_spec (with_enabled false w))
      as (_ & _ & _ & _ & _ & _ & _ & He); [by apply (inv_host w)|]. }
  destruct (disabled_is_empty _ Hw1 Hoff) as [Hds Hts].
  assert (emitted (step (SetEnabled false) w) = emitted w) as Hem.
  { simpl. unfold setEnabled. destruct (isEnabled w) eqn:Hen; simpl; [|done].
    by destruct (clearAllStates_spec (with_enabled false w))
      as (_ & _ & Hem & _); [by apply (inv_host w)|]. }
  subst w'. set (w1 := step (SetEnabled false) w) in *.
  change (step (SetEnabled true) w1) with (setEnabled true w1).
  assert (setEnabled true w1 = with_enabled true w1) as ->
    by (unfold setEnabled; by rewrite Hoff).
  simpl. split; [done|]. split; [done|]. split; [done|]. split; [done|].
  unfold setEnabled. by rewrite Bool.eqb_reflx.
Qed.

Lemma toggling_resets_the_detector_witness :
  let E := Examples.literalEngine in
  let w := step (H := E) (Examples.edit (Examples.chatDoc 1 "hi"))
             (initial Examples.demoSettings) in
  let w' := step (H := E) (SetEnabled true) (step (H := E) (SetEnabled false) w) in
  isEnabled w' = true ∧ documentStates w' = ∅ ∧ timers w' = [] ∧
  emitted w' = emitted w ∧
  step (H := E) (SetEnabled (isEnabled w)) w = w.
Proof.
  intros E w.
  apply (toggling_resets_the_detector (H := E) w).
  apply reachable_step, reachable_initial.
Defined.

(** *** A whole round, with its payload *)

Lemma change_arms_full `{RegExpEngine} event w :
  Inv w → accepted event w = true →
  let k := uri (document event) in
  let w' := step (DidChangeTextDocument event) w in
  ∃ st t, documentStates w' !! k = Some st ∧
    changeCount st = match documentStates w !! k with
                     | Some st0 => S (changeCount st0)
                     | None => 1
                     end ∧
    lastContent st = match documentStates w !! k with
                     | Some st0 => lastContent st0
                     | None => getText (document event)
                     end ∧
    timersFor k (timers w') = [t] ∧
    due t = clock w + timerDelay (silenceMs (settings w)) ∧
    timerContent t = getText (document event).
Proof.
  intros HI Hacc k w'. subst w'. simpl.
  set (w0 := with_documents _ w).
  assert (Inv w0) as HI0 by (by apply (inv_host w)).
  destruct (change_accepted event w0 Hacc HI0)
    as (Hts & Hds & Hn & Hem & Hs & Hc & He & Hd).
  eexists _, _. rewrite Hds, Hts. fold k. rewrite lookup_insert_eq.
  split; [done|]. change (documentStates w0) with (documentStates w).
  split; [by destruct (documentStates w !! k)|].
  split; [by destruct (documentStates w !! k)|].
  split.
  { apply timersFor_schedule_eq; [done|].
    apply elem_of_nil_inv. intros u Hu.
    apply list_elem_of_filter in Hu as [Hk Hu].
    apply list_elem_of_filter in Hu as [Hne _]. done. }
  split; reflexivity.
Qed.

Lemma default_last_cons {A} (d x : A) (l : list A) :
  default d (last (x :: l)) = default x (last l).
Proof.
  destruct l as [|y l]; [done|].
  change (last (x :: y :: l)) with (last (y :: l)).
  destruct (last (y :: l)) eqn:Hl; [done|]. by apply last_None in Hl.
Qed.

Lemma burst_round `{RegExpEngine} rest : ∀ w k n prev text t st,
  Inv w → timerDelay (silenceMs (settings w)) = silenceMs (settings w) →
  timersFor k (timers w) = [t] →
  due t = clock w + silenceMs (settings w) → timerContent t = text →
  documentStates w !! k = Some st → changeCount st = n → lastContent st = prev →
  Forall (inBurst k w) rest →
  let w1 := run (flat_map (fun '(gap, event) => [Elapse gap; DidChangeTextDocument event])
                          rest) w in
  Inv w1 ∧ settings w1 = settings w ∧ isEnabled w1 = isEnabled w ∧
  eventsFor k (emitted w1) = eventsFor k (emitted w) ∧
  ∃ t1 st1, timersFor k (timers w1) = [t1] ∧
    due t1 = clock w1 + silenceMs (settings w) ∧
    timerContent t1
    = default text (last (map (fun step => getText (document (snd step))) rest)) ∧
    documentStates w1 !! k = Some st1 ∧ changeCount st1 = n + length rest ∧
    lastContent st1 = prev.
Proof.
  induction rest as [|[gap event] rest IH];
    intros w k n prev text t st HI Hfull Ht Hdue Htext Hst Hn Hprev Hall.
  - simpl. repeat (split; [done|]). exists t, st. repeat split; try done. lia.
  - apply Forall_cons in Hall as [(Hgap & Hk & Hacc) Hall]. simpl in Hgap, Hk, Hacc.
    destruct (elapse_waits w k t gap HI Ht ltac:(lia))
      as (HIa & Hsa & Hea & Hca & Hda & Hta & Heva).
    pose proof (accepted_host event _ _ Hsa Hea) as Hacca. rewrite Hacc in Hacca.
    destruct (change_fields event (elapse gap w) HIa) as (Heb & Hsb & Hemb).
    destruct (change_arms event (elapse gap w) HIa Hacca) as (_ & _ & _ & Hcb & _).
    destruct (change_arms_full event (elapse gap w) HIa Hacca)
      as (stb & tb & Hstb & Hcntb & Hlastb & Htb & Hdueb & Htextb).
    assert (Inv (step (DidChangeTextDocument event) (elapse gap w))) as HIb
      by (by apply step_inv).
    rewrite Hk in Hstb, Hcntb, Hlastb, Htb. rewrite Hda, Hst in Hcntb, Hlastb.
    set (wb := step (DidChangeTextDocument event) (elapse gap w)) in *.
    assert (settings wb = settings w) as Hs by congruence.
    assert (isEnabled wb = isEnabled w) as He by congruence.
    destruct (IH wb k (S n) prev (getText (document event)) tb stb HIb)
      as (HI1 & Hs1 & He1 & Hev1 & t1 & st1 & H1).
    { by rewrite Hs. }
    { done. }
    { rewrite Hdueb, Hcb, Hsa, Hfull, Hs. done. }
    { done. }
    { done. }
    { congruence. }
    { congruence. }
    { eapply Forall_impl; [exact Hall|]. intros [g e] (Hg & Hke & Hae).
      split; [by rewrite Hs|]. split; [done|]. simpl.
      by rewrite (accepted_host e w wb Hs He). }
    change (run _ w) with
      (run (flat_map (fun '(gap, event) => [Elapse gap; DidChangeTextDocument event]) rest) wb).
    split; [done|]. split; [congruence|]. split; [congruence|].
    split; [by rewrite Hev1, Hemb|].
    exists t1, st1. destruct H1 as (? & ? & Htext1 & ? & ? & ?).
    repeat split; try done; [congruence| |simpl; lia].
    rewrite Htext1. simpl map. by rewrite default_last_cons.
Qed.

Lemma elapse_fires_timers w k t quiet :
  Inv w → timersFor k (timers w) = [t] → due t ≤ clock w + quiet →
  timersFor k (timers (elapse quiet w)) = [].
Proof.
  intros HI Hk Hdue.
  destruct (elapse_spec w quiet HI) as (_ & _ & _ & _ & _ & Hts & _).
  destruct (timersFor_elem k (timers w) t Hk) as [Ht Hkey].
  rewrite Hts. apply elem_of_nil_inv. intros u Hu.
  apply list_elem_of_filter in Hu as [Hku Hu].
  apply list_elem_of_filter in Hu as [Hnot _]. apply Hnot.
  apply list_elem_of_fmap. exists t. split; [congruence|].
  apply list_elem_of_filter. split; [|done].
  unfold isDue. by apply Is_true_true, Nat.leb_le.
Qed.

Lemma lastEdit_text first rest :
  getText (document (lastEdit first rest))
  = default (getText (document first))
            (last (map (fun step => getText (document (snd step))) rest)).
Proof.
  unfold lastEdit. induction rest as [|[g e] rest IH] using rev_ind; [done|].
  rewrite !map_app. simpl. by rewrite !last_snoc.
Qed.

Lemma round_full `{RegExpEngine} w k first rest quiet :
  Inv w → timerDelay (silenceMs (settings w)) = silenceMs (settings w) →
  timersFor k (timers w) = [] →
  uri (document first) = k → accepted first w = true →
  Forall (inBurst k w) rest →
  silenceMs (settings w) ≤ quiet →
  let w2 := step (Elapse quiet) (run (burst first rest) w) in
  let prev := match documentStates w !! k with
              | Some st => lastContent st
              | None => getText (document first)
              end in
  let text := getText (document (lastEdit first rest)) in
  Inv w2 ∧ settings w2 = settings w ∧ isEnabled w2 = isEnabled w ∧
  timersFor k (timers w2) = [] ∧
  eventsFor k (emitted w2)
  = eventsFor k (emitted w) ++ [mkIdleEvent k prev text (S (length rest))] ∧
  ∃ st2, documentStates w2 !! k = Some st2 ∧ lastContent st2 = text ∧
         changeCount st2 = 0 ∧ timeout st2 = None.
Proof.
  intros HI Hfull Hnone Hk Hacc Hall Hquiet w2 prev text.
  destruct (change_fields first w HI) as (He0 & Hs0 & Hem0).
  destruct (change_arms first w HI Hacc) as (HI0 & _ & _ & Hc0 & _).
  destruct (change_arms_full first w HI Hacc)
    as (st0 & t0 & Hst0 & Hcnt0 & Hlast0 & Ht0 & Hdue0 & Htext0).
  rewrite Hk in Hst0, Hcnt0, Hlast0, Ht0. fold prev in Hlast0.
  rewrite Hfull in Hdue0.
  assert (changeCount st0 = 1) as Hone.
  { rewrite Hcnt0. destruct (documentStates w !! k) as [st|] eqn:Hst; [|done].
    f_equal. apply (inv_idle w HI k st Hst).
    destruct (timeout st) as [h|] eqn:Hto; [|done]. exfalso.
    destruct (inv_live w HI k st h Hst Hto) as (t & Ht & _ & Hkt).
    assert (t ∈ timersFor k (timers w)) as Hin by (apply list_elem_of_filter; done).
    rewrite Hnone in Hin. by apply elem_of_nil in Hin. }
  set (w0 := step (DidChangeTextDocument first) w) in *.
  destruct (burst_round rest w0 k 1 prev (getText (document first)) t0 st0 HI0) as
    (HI1 & Hs1 & He1 & Hev1 & t1 & st1 & Ht1 & Hdue1 & Htext1 & Hst1 & Hcnt1 & Hlast1).
  { by rewrite Hs0. }
  { done. }
  { rewrite Hdue0, Hc0, Hs0. done. }
  { done. }
  { done. }
  { done. }
  { done. }
  { eapply Forall_impl; [exact Hall|]. intros [g e] (Hg & Hke & Hae).
    split; [by rewrite Hs0|]. split; [done|]. simpl.
    by rewrite (accepted_host e w w0 Hs0 He0). }
  set (w1 := run _ w0) in *.
  assert (w2 = elapse quiet w1) as -> by done.
  assert (due t1 ≤ clock w1 + quiet) as Hdue by (rewrite Hdue1, Hs0; lia).
  destruct (elapse_spec w1 quiet HI1) as (HI2 & Hs2 & He2 & _).
  destruct (elapse_fires w1 k t1 st1 quiet HI1 Ht1 Hdue Hst1) as [Hev2 Hst2].
  split; [done|]. split; [congruence|]. split; [congruence|].
  split; [by eapply elapse_fires_timers|].
  rewrite <- lastEdit_text in Htext1. fold text in Htext1.
  split.
  - rewrite Hev2, Hev1, Hem0, Hlast1, Htext1, Hcnt1. done.
  - eexists. split; [exact Hst2|]. by rewrite Htext1.
Qed.

(** X4. For a silence period that the host's timers wait in full, from
    1 ms to 2^31 - 1 ms: the event that ends a round carries, as current
    content, the text of the document at the last edit of the round; as
    previous content, the content cached in the entry, which for a document
    not tracked before is the text at the first edit of the round; the
    entry then caches the event's current content for the next round. *)
Theorem round_event_payload `{RegExpEngine} w k first rest quiet :
  reachable w →
  1 ≤ silenceMs (settings w) →
  (Z.of_nat (silenceMs (settings w)) ≤ TIMEOUT_MAX)%Z →
  timersFor k (timers w) = [] →
  uri (document first) = k → accepted first w = true →
  Forall (inBurst k w) rest →
  silenceMs (settings w) ≤ quiet →
  let w2 := step (Elapse quiet) (run (burst first rest) w) in
  let prev := match documentStates w !! k with
              | Some st => lastContent st
              | None => getText (document first)
              end in
  let text := getText (document (lastEdit first rest)) in
  eventsFor k (emitted w2)
  = eventsFor k (emitted w) ++ [mkIdleEvent k prev text (S (length rest))] ∧
  ∃ st2, documentStates w2 !! k = Some st2 ∧ lastContent st2 = text ∧
         changeCount st2 = 0 ∧ timeout st2 = None.
Proof.
  intros Hw Hlo Hhi Hnone Hk Hacc Hall Hquiet.
  destruct (round_full w k first rest quiet (reachable_inv w Hw)
                       (timerDelay_id _ Hlo Hhi) Hnone Hk Hacc Hall Hquiet)
    as (_ & _ & _ & _ & Hev & Hst).
  by split.
Qed.

Lemma round_event_payload_witness :
  let E := Examples.literalEngine in
  let w := initial Examples.demoSettings in
  let k := "vscode-chat:/session1" in
  let first := mkChangeEvent (Examples.chatDoc 1 "a") 1 in
  let rest := [(200, mkChangeEvent (Examples.chatDoc 2 "ab") 1);
               (300, mkChangeEvent (Examples.chatDoc 3 "abc") 1)] in
  let w2 := step (H := E) (Elapse 1500) (run (H := E) (burst first rest) w) in
  eventsFor k (emitted w2)
  = eventsFor k (emitted w) ++ [mkIdleEvent k "a" "abc" 3] ∧
  ∃ st2, documentStates w2 !! k = Some st2 ∧ lastContent st2 = "abc" ∧
         changeCount st2 = 0 ∧ timeout st2 = None.
Proof.
  intros E w k first rest.
  apply (round_event_payload (H := E) w k first rest 1500).
  - apply reachable_initial.
  - simpl; lia.
  - by vm_compute.
  - reflexivity.
  - reflexivity.
  - reflexivity.
  - repeat constructor; simpl; lia.
  - simpl; lia.
Defined.

(** X5. For a silence period that the host's timers wait in full, from
    1 ms to 2^31 - 1 ms: two rounds in a row for the same document, with no
    close and no disabling in between, fire two events; the second event's
    previous content is the first event's current content, and its count
    covers the second round only. *)
Theorem consecutive_rounds_chain `{RegExpEngine} w k first1 rest1 quiet1 first2 rest2 quiet2 :
  reachable w →
  1 ≤ silenceMs (settings w) →
  (Z.of_nat (silenceMs (settings w)) ≤ TIMEOUT_MAX)%Z →
  timersFor k (timers w) = [] →
  uri (document first1) = k → accepted first1 w = true → Forall (inBurst k w) rest1 →
  silenceMs (settings w) ≤ quiet1 →
  uri (document first2) = k → accepted first2 w = true → Forall (inBurst k w) rest2 →
  silenceMs (settings w) ≤ quiet2 →
  let w2 := step (Elapse quiet1) (run (burst first1 rest1) w) in
  let w4 := step (Elapse quiet2) (run (burst first2 rest2) w2) in
  ∃ prev,
    eventsFor k (emitted w4)
    = eventsFor k (emitted w)
      ++ [mkIdleEvent k prev (getText (document (lastEdit first1 rest1)))
                      (S (length rest1));
          mkIdleEvent k (getText (document (lastEdit first1 rest1)))
                      (getText (document (lastEdit first2 rest2)))
                      (S (length rest2))].
Proof.
  intros Hw Hlo Hhi Hnone Hk1 Hacc1 Hall1 Hq1 Hk2 Hacc2 Hall2 Hq2 w2 w4.
  pose proof (timerDelay_id _ Hlo Hhi) as Hfull.
  destruct (round_full w k first1 rest1 quiet1 (reachable_inv w Hw) Hfull
                       Hnone Hk1 Hacc1 Hall1 Hq1)
    as (HI2 & Hs2 & He2 & Hts2 & Hev2 & st2 & Hst2 & Hlast2 & _).
  fold w2 in HI2, Hs2, He2, Hts2, Hev2, Hst2.
  destruct (round_full w2 k first2 rest2 quiet2 HI2) as (_ & _ & _ & _ & Hev4 & _).
  { by rewrite Hs2. }
  { done. }
  { done. }
  { by rewrite (accepted_host first2 w w2 Hs2 He2). }
  { eapply Forall_impl; [exact Hall2|]. intros [g e] (Hg & Hke & Hae).
    split; [by rewrite Hs2|]. split; [done|]. simpl.
    by rewrite (accepted_host e w w2 Hs2 He2). }
  { by rewrite Hs2. }
  fold w4 in Hev4. rewrite Hst2, Hlast2 in Hev4.
  eexists. rewrite Hev4, Hev2, <- app_assoc. done.
Qed.

Lemma consecutive_rounds_chain_witness :
  let E := Examples.literalEngine in
  let w := initial Examples.demoSettings in
  let k := "vscode-chat:/session1" in
  let first1 := mkChangeEvent (Examples.chatDoc 1 "a") 1 in
  let rest1 := [(200, mkChangeEvent (Examples.chatDoc 2 "ab") 1)] in
  let first2 := mkChangeEvent (Examples.chatDoc 3 "abc") 1 in
  let rest2 := [(100, mkChangeEvent (Examples.chatDoc 4 "abcd") 1)] in
  let w2 := step (H := E) (Elapse 1500) (run (H := E) (burst first1 rest1) w) in
  let w4 := step (H := E) (Elapse 2000) (run (H := E) (burst first2 rest2) w2) in
  ∃ prev,
    eventsFor k (emitted w4)
    = eventsFor k (emitted w)
      ++ [mkIdleEvent k prev "ab" 2; mkIdleEvent k "ab" "abcd" 2].
Proof.
  intros E w k first1 rest1 first2 rest2.
  apply (consecutive_rounds_chain (H := E) w k first1 rest1 1500 first2 rest2 2000).
  - apply reachable_initial.
  - simpl; lia.
  - by vm_compute.
  - reflexivity.
  - reflexivity.
  - reflexivity.
  - repeat constructor; simpl; lia.
  - simpl; lia.
  - reflexivity.
  - reflexivity.
  - repeat constructor; simpl; lia.
  - simpl; lia.
Defined.

(** *** The manual trigger and the inspection functions *)

Lemma elapse_without_timer w k ms :
  Inv w → timersFor k (timers w) = [] →
  eventsFor k (emitted (elapse ms w)) = eventsFor k (emitted w).
Proof.
  intros HI Hnone.
  destruct (elapse_spec w ms HI) as (_ & _ & _ & _ & _ & _ & Hem & _).
  rewrite Hem, eventsFor_app, eventsFor_omap by done.
  unfold timersFor in *. rewrite filter_comm, Hnone. simpl. by rewrite app_nil_r.
Qed.

(** X6. For a tracked document of an enabled detector,
    [triggerIdleForDocument] fires at once one event that carries the text
    the document has at the call, cancels the pending timer and resets the
    count, so that the timer it pre-empted never fires a second event. *)
Theorem trigger_preempts_timer `{RegExpEngine} w d st ms :
  reachable w → isEnabled w = true →
  documentStates w !! uri d = Some st →
  let w' := step (TriggerIdle d) w in
  emitted w' = emitted w ++ [mkIdleEvent (uri d) (lastContent st) (getText d)
                                         (changeCount st)] ∧
  timersFor (uri d) (timers w') = [] ∧
  getChangeCount d w' = 0 ∧
  eventsFor (uri d) (emitted (step (Elapse ms) w')) = eventsFor (uri d) (emitted w').
Proof.
  intros Hw Hen Hst w'. pose proof (reachable_inv w Hw) as HI.
  assert (Inv w') as HI' by (by apply step_inv).
  destruct (trigger_fields d w HI) as (_ & _ & Hts). rewrite Hen in Hts.
  assert (timersFor (uri d) (timers w') = []) as Hnone.
  { subst w'. simpl. rewrite Hts. apply elem_of_nil_inv. intros u Hu.
    apply list_elem_of_filter in Hu as [Hk Hu].
    apply list_elem_of_filter in Hu as [Hne _]. done. }
  destruct (trigger_spec d w HI) as [Heq|(st' & Hst' & Hds & Hem)].
  - exfalso. unfold triggerIdleForDocument, getDocumentKey in Heq.
    rewrite Hen, Hst in Heq. simpl in Heq.
    destruct (clearStateTimeout_fields st w) as (_ & _ & _ & _ & _ & Hm & Hem).
    unfold onDocumentIdle in Heq. rewrite Hm, Hst in Heq.
    apply (f_equal emitted) in Heq. simpl in Heq. rewrite Hem in Heq.
    apply (f_equal length) in Heq. rewrite length_app in Heq. simpl in Heq. lia.
  - rewrite Hst in Hst'. injection Hst' as <-.
    split; [exact Hem|]. split; [done|]. split.
    + unfold getChangeCount, getDocumentKey. subst w'. simpl.
      by rewrite Hds, lookup_insert_eq.
    + by apply elapse_without_timer.
Qed.

Lemma trigger_preempts_timer_witness :
  let E := Examples.literalEngine in
  let d := Examples.chatDoc 2 "hi there" in
  let w := step (H := E) (Examples.edit (Examples.chatDoc 1 "hi"))
             (initial Examples.demoSettings) in
  let w' := step (H := E) (TriggerIdle d) w in
  emitted w' = emitted w ++ [mkIdleEvent (uri d) "hi" "hi there" 1] ∧
  timersFor (uri d) (timers w') = [] ∧
  getChangeCount d w' = 0 ∧
  eventsFor (uri d) (emitted (step (H := E) (Elapse 1500) w'))
  = eventsFor (uri d) (emitted w').
Proof.
  intros E d w.
  apply (trigger_preempts_timer (H := E) w d
           (mkDocumentState (Some 0) 2 1 "hi" 1 "vscode-chat:/session1") 1500).
  - apply reachable_step, reachable_initial.
  - reflexivity.
  - by vm_compute.
Defined.

(** An entry with a timer set has counted at least one change. *)
Lemma pending_has_changes `{RegExpEngine} w :
  reachable w →
  ∀ k st h, documentStates w !! k = Some st → timeout st = Some h → 1 ≤ changeCount st.
Proof.
  induction 1 as [s|a w Hw IH].
  { intros k st h Hk. simpl in Hk. by rewrite lookup_empty in Hk. }
  pose proof (reachable_inv w Hw) as HI. intros k st h Hk Hto.
  destruct a as [event|document|s|ms|en|document].
  - simpl in Hk. set (w0 := with_documents _ w) in Hk.
    destruct (accepted event w0) eqn:Hacc.
    + apply change_accepted in Hacc; [|by apply (inv_host w)].
      destruct Hacc as (_ & Hds & _). rewrite Hds in Hk.
      destruct (decide (uri (Vscode.document event) = k)) as [<-|Hne].
      * rewrite lookup_insert_eq in Hk. injection Hk as <-.
        destruct (documentStates w !! _); simpl; lia.
      * rewrite lookup_insert_ne in Hk by done. by eapply IH.
    + rewrite change_ignored in Hk by done. by eapply IH.
  - simpl in Hk. set (w0 := with_documents _ w) in Hk.
    destruct (close_spec document w0) as (_ & Hds & _); [by apply (inv_host w)|].
    rewrite Hds in Hk. apply lookup_delete_Some in Hk as [_ Hk]. by eapply IH.
  - simpl in Hk. unfold onConfigurationChange in Hk.
    destruct (negb _ && _); [|by eapply IH].
    destruct (clearAllStates_spec
                (with_enabled (enabled (settings (with_settings s w))) (with_settings s w)))
      as (_ & Hds & _); [by apply (inv_host w)|].
    rewrite Hds in Hk. by rewrite lookup_empty in Hk.
  - change (step (Elapse ms) w) with (elapse ms w) in Hk.
    destruct (elapse_spec w ms HI) as (_ & _ & _ & _ & _ & _ & _ & Hother & Hmine).
    destruct (decide (k ∈ map timerKey (filter (isDue (clock w + ms)) (timers w))))
      as [Hin|Hnotin].
    + apply list_elem_of_fmap in Hin as (t & -> & Ht).
      rewrite (Hmine t Ht) in Hk.
      destruct (documentStates w !! timerKey t); simpl in Hk; [|done].
      injection Hk as <-. done.
    + rewrite Hother in Hk by done. by eapply IH.
  - simpl in Hk. unfold setEnabled in Hk.
    destruct (Bool.eqb _ _); [by eapply IH|]. destruct (negb en); [|by eapply IH].
    destruct (clearAllStates_spec (with_enabled en w)) as (_ & Hds & _);
      [by apply (inv_host w)|].
    rewrite Hds in Hk. by rewrite lookup_empty in Hk.
  - change (step (TriggerIdle document) w) with (triggerIdleForDocument document w) in Hk.
    destruct (trigger_spec document w HI) as [Heq|(st' & Hst' & Hds & _)].
    + rewrite Heq in Hk. by eapply IH.
    + rewrite Hds in Hk.
      destruct (decide (uri document = k)) as [<-|Hne].
      * rewrite lookup_insert_eq in Hk. injection Hk as <-. done.
      * rewrite lookup_insert_ne in Hk by done. by eapply IH.
Qed.

(** X7. In every reachable state [getChangeCount] is positive exactly for
    the documents with a pending timer; in particular it is 0 for a
    document that is not tracked, or whose round has just ended. *)
Theorem change_count_tells_pending `{RegExpEngine} w d :
  reachable w →
  (0 < getChangeCount d w ↔ timersFor (uri d) (timers w) ≠ []) ∧
  (isTrackingDocument d w = false → getChangeCount d w = 0).
Proof.
  intros Hw. pose proof (reachable_inv w Hw) as HI.
  unfold getChangeCount, isTrackingDocument, getDocumentKey. split; [split|].
  - intros Hpos Hnone.
    destruct (documentStates w !! uri d) as [st|] eqn:Hst; [|lia].
    destruct (timeout st) as [h|] eqn:Hto.
    + destruct (inv_live w HI _ st h Hst Hto) as (t & Ht & _ & Hk).
      assert (t ∈ timersFor (uri d) (timers w)) as Hin by (apply list_elem_of_filter; done).
      rewrite Hnone in Hin. by apply elem_of_nil in Hin.
    + rewrite (inv_idle w HI _ st Hst Hto) in Hpos. lia.
  - intros Hsome.
    destruct (timersFor (uri d) (timers w)) as [|t ts] eqn:Hf; [done|].
    assert (t ∈ timersFor (uri d) (timers w)) as Hin by (rewrite Hf; left).
    apply list_elem_of_filter in Hin as [Hk Ht].
    destruct (inv_owner w HI t Ht) as (st & Hst & Hto). rewrite Hk in Hst.
    rewrite Hst. by eapply (pending_has_changes w Hw).
  - intros Hno. apply bool_decide_eq_false in Hno.
    destruct (documentStates w !! uri d); [|done]. exfalso. apply Hno. by eexists.
Qed.

Lemma change_count_tells_pending_witness :
  let E := Examples.literalEngine in
  let d := Examples.chatDoc 1 "hi" in
  let w := step (H := E) (Examples.edit d) (initial Examples.demoSettings) in
  (0 < getChangeCount d w ↔ timersFor (uri d) (timers w) ≠ []) ∧
  (isTrackingDocument d w = false → getChangeCount d w = 0).
Proof.
  intros E d w.
  apply (change_count_tells_pending (H := E) w d).
  apply reachable_step, reachable_initial.
Defined.

Lemma activeTimeouts_omap (l : list (string * DocumentState)) :
  foldr (fun '(_, state) count =>
           match timeout state with
           | Some _ => S count
           | None => count
           end) 0 l
  = length (omap (fun kv => timeout (snd kv)) l).
Proof.
  induction l as [|[k st] l IH]; [done|]. simpl. rewrite IH.
  by destruct (timeout st).
Qed.

Lemma omap_length_le {A B} (f : A → option B) (l : list A) :
  length (omap f l) ≤ length l.
Proof.
  induction l as [|x l IH]; [done|].
  change (omap f (x :: l))
    with (match f x with Some y => y :: omap f l | None => omap f l end).
  destruct (f x); simpl length; lia.
Qed.

Lemma NoDup_omap_inj {A B} (f : A → option B) (l : list A) :
  NoDup l →
  (∀ x y b, x ∈ l → y ∈ l → f x = Some b → f y = Some b → x = y) →
  NoDup (omap f l).
Proof.
  induction 1 as [|x l Hx Hnd IH]; intros Hinj; [constructor|].
  simpl. destruct (f x) as [b|] eqn:Hfx.
  - constructor.
    + intros Hin. apply list_elem_of_omap in Hin as (y & Hy & Hfy).
      assert (x = y) as <-; [|done].
      apply (Hinj x y b); [left|by right|done|done].
    + apply IH. intros ?????; apply Hinj; by right.
  - apply IH. intros ?????; apply Hinj; by right.
Qed.

(** X8. In every reachable state the number of active timeouts reported by
    [getDebugInfo] is the number of timers really pending in the host, and
    it never exceeds the number of tracked documents. *)
Theorem debug_info_counts_timers `{RegExpEngine} w :
  reachable w →
  activeTimeouts (getDebugInfo w) = length (timers w) ∧
  activeTimeouts (getDebugInfo w) ≤ trackedDocuments (getDebugInfo w) ∧
  debugEnabled (getDebugInfo w) = isEnabled w.
Proof.
  intros Hw. pose proof (reachable_inv w Hw) as HI.
  unfold getDebugInfo. simpl. rewrite activeTimeouts_omap.
  split; [|split; [|done]].
  - rewrite <- (length_fmap handle (timers w)). apply Permutation_length.
    apply NoDup_Permutation.
    + apply NoDup_omap_inj; [apply NoDup_map_to_list|].
      intros [k1 st1] [k2 st2] h H1%elem_of_map_to_list H2%elem_of_map_to_list Hh1 Hh2.
      simpl in *.
      destruct (inv_live w HI k1 st1 h H1 Hh1) as (t1 & Ht1 & Hht1 & Hkt1).
      destruct (inv_live w HI k2 st2 h H2 Hh2) as (t2 & Ht2 & Hht2 & Hkt2).
      assert (t1 = t2) as -> by
        (eapply handle_inj; [apply (inv_nodup w HI)|done|done|congruence]).
      assert (k1 = k2) as -> by congruence. congruence.
    + apply (inv_nodup w HI).
    + intros h. rewrite list_elem_of_omap, list_elem_of_fmap. split.
      * intros ([k st] & Hin%elem_of_map_to_list & Hto). simpl in Hto.
        destruct (inv_live w HI k st h Hin Hto) as (t & Ht & Hh & _). by exists t.
      * intros (t & -> & Ht). destruct (inv_owner w HI t Ht) as (st & Hst & Hto).
        exists (timerKey t, st). split; [by apply elem_of_map_to_list|done].
  - rewrite <- length_map_to_list. apply omap_length_le.
Qed.

Lemma debug_info_counts_timers_witness :
  let E := Examples.literalEngine in
  let w := step (H := E) (Elapse 1500)
             (step (H := E) (Examples.edit (Examples.chatDoc 1 "hi"))
                   (initial Examples.demoSettings)) in
  activeTimeouts (getDebugInfo w) = length (timers w) ∧
  activeTimeouts (getDebugInfo w) ≤ trackedDocuments (getDebugInfo w) ∧
  debugEnabled (getDebugInfo w) = isEnabled w.
Proof.
  intros E w.
  apply (debug_info_counts_timers (H := E) w).
  do 2 apply reachable_step. apply reachable_initial.
Defined.

End DetectorExtras.

(** * Further properties of the extractor *)

Module ExtractExtras.
Import JsString ExtractCommands ExtractSpec ExtraSpec ExtractProps.

(** *** Texts without a fence *)

Lemma stripPrefix_app p : ∀ s r, stripPrefix p s = Some r → s = p ++ r.
Proof.
  induction p as [|a p IH]; intros s r; simpl.
  - by intros [= ->].
  - destruct s as [|b s]; [done|]. destruct (Ascii.eqb a b) eqn:Hab; [|done].
    apply Ascii.eqb_eq in Hab as ->. intros Hr%IH. by rewrite Hr.
Qed.

Lemma scanBlocks_no_backtick s : ∀ skip pos, BACKTICK ∉ s → scanBlocks skip pos s = [].
Proof.
  induction s as [|c s IH]; intros skip pos Hno; simpl; [done|].
  apply not_elem_of_cons in Hno as [Hc Hno].
  destruct skip as [|k]; [|by apply IH].
  assert (matchFenceAt (c :: s) = None) as ->; [|by apply IH].
  unfold matchFenceAt. destruct (stripPrefix (lit "```") (c :: s)) as [r|] eqn:Hp; [|done].
  apply stripPrefix_app in Hp. exfalso. apply Hc. by injection Hp as ->.
Qed.

(** X9. A text without any backtick, the empty text included, yields the
    empty result: no command, no hint, no block. *)
Theorem no_backtick_no_result text recentTextOnly :
  BACKTICK ∉ text → extractCommands text recentTextOnly = mkExtracted [] None [].
Proof.
  intros Hno. unfold extractCommands, fencedBlocks.
  by rewrite scanBlocks_no_backtick.
Qed.

Lemma no_backtick_no_result_witness :
  (BACKTICK ∉ lit "npm install") ∧
  extractCommands (lit "npm install") true = mkExtracted [] None [].
Proof.
  assert (BACKTICK ∉ lit "npm install") as Hno.
  { intros Hin. vm_compute in Hin. repeat (apply elem_of_cons in Hin as [Hin|Hin]; [discriminate|]).
    by apply elem_of_nil in Hin. }
  split; [exact Hno|]. exact (no_backtick_no_result (lit "npm install") true Hno).
Defined.

(** *** What the offsets of a block delimit *)

Lemma takeWhile_dropWhile p s : takeWhile p s ++ dropWhile p s = s.
Proof. induction s as [|c s IH]; simpl; [done|]. destruct (p c); simpl; by rewrite ?IH. Qed.

Lemma takeWhile_Forall p s : Forall (fun c => p c = true) (takeWhile p s).
Proof.
  induction s as [|c s IH]; simpl; [constructor|].
  destruct (p c) eqn:Hc; by constructor.
Qed.

Lemma untilFence_app s : ∀ inner,
  untilFence s = Some inner → ∃ rest, s = inner ++ lit "```" ++ rest.
Proof.
  induction s as [|c s IH]; intros inner.
  - by vm_compute.
  - unfold untilFence. fold untilFence. unfold startsWith.
    destruct (stripPrefix (lit "```") (c :: s)) as [rest|] eqn:Hp.
    + intros [= <-]. exists rest. by apply stripPrefix_app in Hp.
    + destruct (untilFence s) as [inner'|]; [|done]. intros [= <-].
      destruct (IH inner' eq_refl) as [rest ->]. by exists rest.
Qed.

Lemma matchFenceAt_spec s tag inner len :
  matchFenceAt s = Some (tag, inner, len) →
  ∃ rest, s = (lit "```" ++ tag ++ LF :: inner ++ lit "```") ++ rest ∧
          len = length (lit "```" ++ tag ++ LF :: inner ++ lit "```") ∧
          Forall (fun c => isAsciiLetter c = true) tag.
Proof.
  unfold matchFenceAt. destruct (stripPrefix _ s) as [r1|] eqn:Hp; [|done].
  apply stripPrefix_app in Hp.
  pose proof (takeWhile_dropWhile isAsciiLetter r1) as Hsplit.
  destruct (dropWhile isAsciiLetter r1) as [|c r3]; [done|].
  destruct (Ascii.eqb c LF) eqn:Hc; [|done]. apply Ascii.eqb_eq in Hc as ->.
  destruct (untilFence r3) as [inner'|] eqn:Hu; [|done]. intros [= <- <- <-].
  apply untilFence_app in Hu as [rest ->]. exists rest.
  refine (conj _ (conj _ (takeWhile_Forall _ _))).
  - rewrite Hp. rewrite <- Hsplit at 1.
    rewrite <- !app_assoc. do 2 f_equal. simpl. by rewrite <- !app_assoc.
  - rewrite !length_app. simpl. rewrite !length_app. simpl. lia.
Qed.

Lemma substring_middle pre m rest :
  substring (length pre) (length pre + length m) (pre ++ m ++ rest) = m.
Proof.
  unfold substring. rewrite !length_app.
  replace (Nat.min (length pre) (length pre + (length m + length rest)))
    with (length pre) by lia.
  replace (Nat.min (length pre + length m) (length pre + (length m + length rest)))
    with (length pre + length m) by lia.
  replace (Nat.max (length pre) (length pre + length m)
           - Nat.min (length pre) (length pre + length m)) with (length m) by lia.
  replace (Nat.min (length pre) (length pre + length m)) with (length pre) by lia.
  rewrite drop_app_length. by rewrite take_app_length.
Qed.

Lemma scanBlocks_delimit s : ∀ skip pre,
  Forall (delimitsFence (pre ++ s)) (scanBlocks skip (length pre) s).
Proof.
  induction s as [|c s IH]; intros skip pre; simpl; [constructor|].
  assert (∀ k, Forall (delimitsFence (pre ++ c :: s)) (scanBlocks k (S (length pre)) s))
    as Hlater.
  { intros k. specialize (IH k (pre ++ [c])).
    rewrite length_app, <- app_assoc in IH. simpl in IH.
    by rewrite Nat.add_1_r in IH. }
  destruct skip as [|k]; [|apply Hlater].
  destruct (matchFenceAt (c :: s)) as [[[tag inner] len]|] eqn:Hm; [|apply Hlater].
  apply matchFenceAt_spec in Hm as (rest & Hs & Hlen & Htag).
  destruct (trim inner) as [|x xs] eqn:Htrim; [apply Hlater|].
  constructor; [|apply Hlater].
  exists tag, inner. simpl. rewrite Hs, Hlen.
  split; [by rewrite substring_middle|]. by rewrite Htrim.
Qed.

(** X10. The offsets recorded for a block delimit, in the text, exactly one
    fence: three backticks, a tag made of letters whose lower-case form is
    the block's language, a line feed, an inner text whose trim is the
    block's non-empty content, and three backticks. *)
Theorem block_offsets_delimit_fence text recentTextOnly :
  Forall (delimitsFence text) (fencedBlocks text) ∧
  Forall (delimitsFence text) (rawBlocks (extractCommands text recentTextOnly)).
Proof.
  assert (Forall (delimitsFence text) (fencedBlocks text)) as Hall
    by apply (scanBlocks_delimit text 0 []).
  split; [done|]. rewrite extractCommands_shape. simpl.
  unfold candidates, stageA, stageB, stageC.
  repeat case_match; apply Forall_forall; intros b Hb;
    repeat (apply list_elem_of_filter in Hb as [_ Hb]);
    by eapply Forall_forall in Hall.
Qed.

(** *** Where the commands come from *)

Lemma split_no_separator sep s : ∀ l, l ∈ split sep s → sep ∉ l.
Proof.
  induction s as [|c s IH]; intros l; simpl.
  - intros ->%list_elem_of_singleton. apply not_elem_of_nil.
  - destruct (Ascii.eqb c sep) eqn:Hc.
    + intros [->|Hl]%elem_of_cons; [apply not_elem_of_nil|by apply IH].
    + apply Ascii.eqb_neq in Hc.
      destruct (split sep s) as [|l0 ls]; [|].
      * intros ->%list_elem_of_singleton. apply not_elem_of_cons. split; [done|].
        apply not_elem_of_nil.
      * intros [->|Hl]%elem_of_cons.
        -- apply not_elem_of_cons. split; [done|]. apply IH. left.
        -- apply IH. by right.
Qed.

Lemma suffix_elem {A} (r s : list A) x : r `suffix_of` s → x ∈ r → x ∈ s.
Proof. intros [p ->] Hx. apply elem_of_app. by right. Qed.

Lemma trim_elem s x : x ∈ trim s → x ∈ s.
Proof.
  unfold trim, trimEnd, trimStart. intros Hx.
  apply list_elem_of_In, in_rev, list_elem_of_In in Hx.
  apply (suffix_elem _ _ _ (dropWhile_suffix _ _)) in Hx.
  apply list_elem_of_In, in_rev, list_elem_of_In in Hx.
  by apply (suffix_elem _ _ _ (dropWhile_suffix _ _)) in Hx.
Qed.

Lemma stripBashPrompt_suffix s : stripBashPrompt s `suffix_of` s.
Proof.
  unfold stripBashPrompt, seq, literal.
  destruct (stripPrefix (lit "$") s) as [r1|] eqn:H1; [|done].
  destruct (plus isWhiteSpace r1) as [r2|] eqn:H2; [|done].
  apply stripPrefix_suffix in H1. apply plus_space in H2 as [H2 _]. by etrans.
Qed.

Lemma stripPowerShellPrompt_suffix s : stripPowerShellPrompt s `suffix_of` s.
Proof.
  unfold stripPowerShellPrompt, seq, literal, star.
  destruct (stripPrefix (lit "PS") s) as [r1|] eqn:H1; [|done].
  destruct (stripPrefix (lit ">") (dropWhile isWhiteSpace r1)) as [r2|] eqn:H2; [|done].
  apply stripPrefix_suffix in H1, H2.
  etrans; [apply dropWhile_suffix|]. etrans; [exact H2|].
  etrans; [apply dropWhile_suffix|done].
Qed.

Lemma stripCmdPrompt_suffix s : stripCmdPrompt s `suffix_of` s.
Proof.
  unfold stripCmdPrompt, seq, literal, star.
  destruct (stripPrefix (lit "C:\") s) as [r1|] eqn:H1; [|done].
  destruct (dotStarGt r1) as [r2|] eqn:H2; [|done].
  apply stripPrefix_suffix in H1. apply dotStarGt_suffix in H2.
  etrans; [apply dropWhile_suffix|]. by etrans.
Qed.

Lemma stripGenericPrompt_suffix s : stripGenericPrompt s `suffix_of` s.
Proof.
  unfold stripGenericPrompt, seq, literal.
  destruct (stripPrefix (lit ">") s) as [r1|] eqn:H1; [|done].
  destruct (plus isWhiteSpace r1) as [r2|] eqn:H2; [|done].
  apply stripPrefix_suffix in H1. apply plus_space in H2 as [H2 _]. by etrans.
Qed.

Lemma parseLine_suffix line command :
  parseLine line = Some command → command `suffix_of` trim line.
Proof.
  unfold parseLine.
  destruct (_ || _ || _); [done|].
  destruct (bool_decide _); [done|].
  destruct (looksLikeOutput _); [done|]. intros [= <-].
  etrans; [apply stripGenericPrompt_suffix|].
  etrans; [apply stripCmdPrompt_suffix|].
  etrans; [apply stripPowerShellPrompt_suffix|]. apply stripBashPrompt_suffix.
Qed.

(** X11. The extractor never makes text up: every command is the end of a
    trimmed line of the content of one of the candidate blocks, and holds
    no line feed. *)
Theorem commands_come_from_block_lines text recentTextOnly :
  Forall (fun command =>
            (LF ∉ command) ∧
            ∃ b line, b ∈ rawBlocks (extractCommands text recentTextOnly) ∧
                      line ∈ split LF (content b) ∧
                      command `suffix_of` trim line)
         (commands (extractCommands text recentTextOnly)).
Proof.
  rewrite extractCommands_shape. simpl. apply Forall_forall. intros c Hc.
  apply list_elem_of_In, in_flat_map in Hc as (b & Hb & Hc).
  rewrite parseCommandsFromBlock_omap in Hc.
  apply list_elem_of_In, list_elem_of_omap in Hc as (line & Hline & Hparse).
  apply parseLine_suffix in Hparse. split.
  - intros Hin. apply (suffix_elem _ _ _ Hparse), trim_elem in Hin.
    by apply (split_no_separator LF (content b) line).
  - exists b, line. split; [|done].
    by eapply targetBlocks_candidates, list_elem_of_In.
Qed.

(** *** The hint when there are commands *)

Lemma inferShellLanguage_values commands :
  inferShellLanguage commands = Some powershell ∨
  inferShellLanguage commands = Some cmd ∨
  inferShellLanguage commands = Some bash.
Proof. unfold inferShellLanguage. repeat case_match; tauto. Qed.

(** X12. A result with commands always has a hint: the explicit tag of the
    first selected block that carries one, and otherwise an inferred hint,
    which is one of powershell, cmd and bash. *)
Theorem commands_always_have_a_hint text recentTextOnly :
  commands (extractCommands text recentTextOnly) ≠ [] →
  ∃ l, languageHint (extractCommands text recentTextOnly) = Some l ∧
       (firstTag (targetBlocks text recentTextOnly) = Some l ∨
        (firstTag (targetBlocks text recentTextOnly) = None ∧
         l ∈ [powershell; cmd; bash])).
Proof.
  rewrite extractCommands_shape. simpl. intros Hne.
  destruct (firstTag (targetBlocks text recentTextOnly)) as [l|].
  - exists l. split; [done|by left].
  - destruct (flat_map _ _) as [|c cs] eqn:Hcmds; [done|].
    change (0 <? length (c :: cs)) with true. cbv iota.
    destruct (inferShellLanguage_values (c :: cs)) as [-> | [-> | ->]];
      eexists; (split; [done|]); right; (split; [done|]); set_solver.
Qed.

Lemma commands_always_have_a_hint_witness :
  let text := lit "```" ++ [LF] ++ lit "git status" ++ [LF] ++ lit "```" in
  commands (extractCommands text true) ≠ [] ∧
  ∃ l, languageHint (extractCommands text true) = Some l ∧
       (firstTag (targetBlocks text true) = Some l ∨
        (firstTag (targetBlocks text true) = None ∧ l ∈ [powershell; cmd; bash])).
Proof.
  intros text.
  assert (commands (extractCommands text true) ≠ []) as Hne by (by vm_compute).
  split; [exact Hne|]. exact (commands_always_have_a_hint text true Hne).
Defined.

(** *** Recent text only, or every block *)

(** X13. The flag [recentTextOnly] does not change the candidate blocks.
    Without it the commands are those of all candidates in text order; with
    it they are the tail of that list contributed by the last candidate. *)
Theorem recent_commands_are_a_tail text :
  rawBlocks (extractCommands text true) = rawBlocks (extractCommands text false) ∧
  commands (extractCommands text false)
  = flat_map (fun b => parseCommandsFromBlock (content b))
             (rawBlocks (extractCommands text false)) ∧
  commands (extractCommands text true) `suffix_of` commands (extractCommands text false).
Proof.
  rewrite !extractCommands_shape. simpl. split; [done|]. split; [done|].
  unfold targetBlocks.
  destruct (last (candidates text (fencedBlocks text))) as [b|] eqn:Hlast.
  - apply last_Some in Hlast as [earlier ->].
    rewrite flat_map_app. apply suffix_app_r. done.
  - simpl. apply suffix_nil.
Qed.

(** *** Prompts *)

Lemma suffix_same_length {A} (r s : list A) :
  r `suffix_of` s → length s ≤ length r → r = s.
Proof.
  intros [p ->]. rewrite length_app. intros Hlen.
  destruct p as [|x p]; [done|]. simpl in Hlen. lia.
Qed.

Lemma parseLine_fixed command :
  parseLine command = Some command →
  Clean command ∧ command ≠ [] ∧
  stripBashPrompt command = command ∧ stripPowerShellPrompt command = command ∧
  stripCmdPrompt command = command ∧ stripGenericPrompt command = command ∧
  looksLikeOutput command = false.
Proof.
  intros Hp. destruct (parseLine_clean command command Hp) as [Hne Htrim].
  assert (Clean command) as Hclean.
  { rewrite <- Htrim. split; [apply trim_noLead|apply trim_noTrail]. }
  unfold parseLine in Hp. rewrite Htrim in Hp.
  destruct (_ || _ || _); [done|].
  destruct (bool_decide _); [done|].
  destruct (looksLikeOutput _) eqn:Hout; [done|]. injection Hp as Hp.
  pose proof (stripBashPrompt_suffix command) as H1.
  pose proof (stripPowerShellPrompt_suffix (stripBashPrompt command)) as H2.
  pose proof (stripCmdPrompt_suffix (stripPowerShellPrompt (stripBashPrompt command))) as H3.
  pose proof (stripGenericPrompt_suffix
                (stripCmdPrompt (stripPowerShellPrompt (stripBashPrompt command)))) as H4.
  pose proof (suffix_length _ _ H1). pose proof (suffix_length _ _ H2).
  pose proof (suffix_length _ _ H3). pose proof (suffix_length _ _ H4).
  rewrite Hp in *.
  assert (stripBashPrompt command = command) as E1
    by (apply suffix_same_length; [done|lia]).
  rewrite E1 in *.
  assert (stripPowerShellPrompt command = command) as E2
    by (apply suffix_same_length; [done|lia]).
  rewrite E2 in *.
  assert (stripCmdPrompt command = command) as E3
    by (apply suffix_same_length; [done|lia]).
  rewrite E3 in *.
  by repeat (split; [done|]).
Qed.

Lemma trim_prompt_app p command :
  noLead p → p ≠ [] → Clean command → command ≠ [] → trim (p ++ command) = p ++ command.
Proof.
  intros Hp Hpne [_ Ht] Hne. apply trim_id.
  - destruct p; [done|]. done.
  - unfold noTrail in *. rewrite rev_app_distr.
    destruct (rev command) eqn:Hrev; [|done].
    apply (f_equal (@rev ascii)) in Hrev. rewrite rev_involutive in Hrev. done.
Qed.

(** X14. A line that is kept as it stands yields the same command when one
    of the prompts [$ ], [PS> ] or [> ] is written in front of it. *)
Theorem prompt_is_transparent command :
  parseLine command = Some command →
  parseLine (lit "$ " ++ command) = Some command ∧
  parseLine (lit "PS> " ++ command) = Some command ∧
  parseLine (lit "> " ++ command) = Some command.
Proof.
  intros Hp.
  destruct (parseLine_fixed command Hp) as (Hclean & Hne & E1 & E2 & E3 & E4 & Hout).
  pose proof (dropWhile_id command (proj1 Hclean)) as Hdrop.
  assert (bool_decide (command = []) = false) as Hbd by (by apply bool_decide_eq_false).
  split; [|split].
  - unfold parseLine. rewrite trim_prompt_app by done.
    assert (stripBashPrompt (lit "$ " ++ command) = command) as ->.
    { unfold stripBashPrompt, seq, literal, plus. simpl. by rewrite Hdrop. }
    simpl. rewrite E2, E3, E4, Hbd, Hout. done.
  - unfold parseLine. rewrite trim_prompt_app by done.
    assert (stripBashPrompt (lit "PS> " ++ command) = lit "PS> " ++ command) as -> by done.
    assert (stripPowerShellPrompt (lit "PS> " ++ command) = command) as ->.
    { unfold stripPowerShellPrompt, seq, literal, star. simpl. by rewrite Hdrop. }
    simpl. rewrite E3, E4, Hbd, Hout. done.
  - unfold parseLine. rewrite trim_prompt_app by done.
    assert (stripBashPrompt (lit "> " ++ command) = lit "> " ++ command) as -> by done.
    assert (stripPowerShellPrompt (lit "> " ++ command) = lit "> " ++ command) as -> by done.
    assert (stripCmdPrompt (lit "> " ++ command) = lit "> " ++ command) as -> by done.
    assert (stripGenericPrompt (lit "> " ++ command) = command) as ->.
    { unfold stripGenericPrompt, seq, literal, plus. simpl. by rewrite Hdrop. }
    simpl. rewrite Hbd, Hout. done.
Qed.

Lemma prompt_is_transparent_witness :
  parseLine (lit "$ " ++ lit "npm install") = Some (lit "npm install") ∧
  parseLine (lit "PS> " ++ lit "npm install") = Some (lit "npm install") ∧
  parseLine (lit "> " ++ lit "npm install") = Some (lit "npm install").
Proof.
  apply (prompt_is_transparent (lit "npm install")). reflexivity.
Defined.

(** *** The diff variant *)

(** X15. When the new text is the old text with something appended, the
    diff variant extracts from the appended part alone; when nothing was
    appended it extracts from the whole text. *)
Theorem diff_extracts_from_appended_text oldText added :
  extractCommandsFromDiff oldText (oldText ++ added)
  = extractCommands (match added with [] => oldText | _ :: _ => added end) true.
Proof.
  unfold extractCommandsFromDiff. rewrite length_app.
  destruct added as [|c added].
  - rewrite app_nil_r. simpl.
    assert ((length oldText <? length oldText + 0) = false) as ->; [|done].
    apply Nat.ltb_ge. lia.
  - assert ((length oldText <? length oldText + length (c :: added)) = true) as ->.
    { apply Nat.ltb_lt. simpl. lia. }
    pose proof (substring_middle oldText (c :: added) []) as Hsub.
    rewrite app_nil_r in Hsub. by rewrite Hsub.
Qed.

(** *** Describing a result *)

Import CommandDescription.

Lemma extracted_commands_nonempty text recentTextOnly command :
  command ∈ commands (extractCommands text recentTextOnly) → command ≠ [].
Proof.
  rewrite extractCommands_shape. simpl. intros Hc.
  apply list_elem_of_In, in_flat_map in Hc as (b & _ & Hc).
  rewrite parseCommandsFromBlock_omap in Hc.
  apply list_elem_of_In, list_elem_of_omap in Hc as (line & _ & Hline).
  by apply parseLine_clean in Hline as [Hne _].
Qed.

Lemma substring_prefix n s : n ≤ length s → substring 0 n s = take n s.
Proof.
  intros Hn. unfold substring. simpl.
  replace (Nat.min n (length s)) with n by lia.
  by rewrite Nat.sub_0_r.
Qed.

(** X16. For the result of an extraction: without commands the description
    is the fixed text; with exactly one command it is the singular form,
    showing the command itself when that has at most 50 characters and its
    first 47 characters followed by three dots otherwise, never more than
    50 characters of it; with more commands it is the plural form with
    their number. *)
Theorem description_of_an_extraction text recentTextOnly :
  let result := extractCommands text recentTextOnly in
  let language := match languageHint result with
                  | Some l => shellLanguageName l
                  | None => lit "shell"
                  end in
  match commands result with
  | [] => getCommandDescription result = lit "No commands found"
  | [command] =>
      ∃ shown, getCommandDescription result
               = lit "Run " ++ language ++ lit " command: " ++ shown ∧
               length shown ≤ 50 ∧
               shown = (if 50 <? length command
                        then take 47 command ++ lit "..." else command)
  | _ :: _ :: _ =>
      getCommandDescription result
      = lit "Run " ++ lit (pretty (length (commands result))) ++ lit " "
        ++ language ++ lit " commands"
  end.
Proof.
  intros result language.
  pose proof (extracted_commands_nonempty text recentTextOnly) as Hne. fold result in Hne.
  unfold getCommandDescription. fold language.
  destruct (commands result) as [|c [|c' cs]] eqn:Hcmds; [done| |done].
  simpl length. cbv iota. change (1 =? 0) with false. change (1 =? 1) with true. cbv iota.
  assert (bool_decide (c = []) = false) as ->.
  { apply bool_decide_eq_false, Hne. left. }
  destruct (50 <? length c) eqn:Hlen.
  - apply Nat.ltb_lt in Hlen. rewrite substring_prefix by lia.
    eexists. split; [done|]. split; [|done].
    rewrite length_app, length_take. change (length (lit "...")) with 3. lia.
  - apply Nat.ltb_ge in Hlen. eexists. split; [done|]. split; done.
Qed.

End ExtractExtras.

(** * Properties of the runners *)

Module RunnerProps.
Import JsString ExtractCommands ExtractSpec ExtraSpec ExtractProps ExtractExtras.
Import TerminalRunner TaskRunner.

Lemma existsb_LF_false s : LF ∉ s → existsb (Ascii.eqb LF) s = false.
Proof.
  intros Hno. apply not_true_is_false. intros Hex.
  apply existsb_exists in Hex as (c & Hc & Heq).
  apply Ascii.eqb_eq in Heq as <-. by apply Hno, list_elem_of_In.
Qed.

Lemma existsb_LF_true s : existsb (Ascii.eqb LF) s = true → LF ∈ s.
Proof.
  intros Hex. apply existsb_exists in Hex as (c & Hc & Heq).
  apply Ascii.eqb_eq in Heq as <-. by apply list_elem_of_In.
Qed.

Lemma trim_trim s : trim (trim s) = trim s.
Proof. apply trim_id; [apply trim_noLead|apply trim_noTrail]. Qed.

Lemma split_head sep s : ∃ l ls, split sep s = l :: ls.
Proof.
  destruct s as [|c s]; simpl; [by eexists _, _|].
  destruct (Ascii.eqb c sep); [by eexists _, _|].
  destruct (split sep s); by eexists _, _.
Qed.

(** The first line of a text that starts with a character other than the
    separator starts with that character. *)
Lemma split_first_cons sep c s :
  Ascii.eqb c sep = false → ∃ l ls, split sep (c :: s) = (c :: l) :: ls.
Proof.
  intros Hc. simpl. rewrite Hc.
  destruct (split sep s); by eexists _, _.
Qed.

Lemma trim_cons_nonspace c l : isWhiteSpace c = false → ∃ l', trim (c :: l) = c :: l'.
Proof.
  intros Hc. unfold trim, trimStart, trimEnd. simpl. rewrite Hc. simpl.
  destruct (rev l) as [|x xs] eqn:Hrev.
  - simpl. rewrite Hc. by eexists.
  - pose proof (dropWhile_snoc isWhiteSpace (x :: xs) c Hc) as Hd.
    change ((x :: xs) ++ [c]) with (x :: xs ++ [c]) in Hd. simpl. simpl in Hd.
    rewrite Hd. destruct (isWhiteSpace x).
    + rewrite rev_app_distr. simpl. by eexists.
    + rewrite rev_app_distr. simpl. by eexists.
Qed.

(** X17. [preprocessCommand] returns the trimmed first line of the trimmed
    command, whatever the hint and the platform: the result holds no line
    feed and is trimmed, and the further lines of a command of several
    lines are dropped. *)
Theorem preprocess_keeps_first_line isWindows command languageHint :
  preprocessCommand isWindows command languageHint
  = trim (hd [] (split LF (trim command))) ∧
  (LF ∉ preprocessCommand isWindows command languageHint) ∧
  trim (preprocessCommand isWindows command languageHint)
  = preprocessCommand isWindows command languageHint.
Proof.
  assert (preprocessCommand isWindows command languageHint
          = trim (hd [] (split LF (trim command)))) as Heq.
  { unfold preprocessCommand.
    destruct (existsb (Ascii.eqb LF) (trim command)) eqn:Hex.
    - apply existsb_LF_true in Hex.
      pose proof (trim_noLead command) as Hlead.
      destruct (trim command) as [|c s] eqn:Htrim; [by apply elem_of_nil in Hex|].
      simpl in Hlead.
      assert (Ascii.eqb c LF = false) as Hc.
      { apply Ascii.eqb_neq. intros ->. by vm_compute in Hlead. }
      destruct (split_first_cons LF c s Hc) as (l & ls & Hsplit). rewrite Hsplit.
      destruct (trim_cons_nonspace c l Hlead) as (l' & Hl').
      simpl map. rewrite Hl'. rewrite filter_cons_True by done. simpl.
      rewrite Hl'. done.
    - destruct (trim command) as [|c s] eqn:Htrim; [done|].
      assert (LF ∉ c :: s) as Hno.
      { intros Hin. apply list_elem_of_In in Hin.
        assert (existsb (Ascii.eqb LF) (c :: s) = true) as Htrue; [|congruence].
        apply existsb_exists. exists LF. split; [done|]. apply Ascii.eqb_refl. }
      assert (split LF (c :: s) = [c :: s]) as ->.
      { clear -Hno. revert Hno. generalize (c :: s). intros t.
        induction t as [|x t IH]; intros Hno; [done|].
        apply not_elem_of_cons in Hno as [Hx Hno]. simpl.
        assert (Ascii.eqb x LF = false) as -> by (apply Ascii.eqb_neq; congruence).
        destruct t as [|y t]; [done|]. by rewrite (IH Hno). }
      simpl. rewrite <- Htrim. by rewrite trim_trim. }
  split; [done|]. rewrite Heq. split; [|apply trim_trim].
  intros Hin. apply trim_elem in Hin.
  destruct (split_head LF (trim command)) as (l & ls & Hsplit).
  rewrite Hsplit in Hin. simpl in Hin.
  apply (split_no_separator LF (trim command) l); [|done]. rewrite Hsplit. left.
Qed.

(** X18. The terminal runner sends every extracted command as it is:
    [preprocessCommand] changes none of the commands of an extraction. *)
Theorem extracted_commands_are_sent_verbatim text recentTextOnly isWindows languageHint :
  Forall (fun command => preprocessCommand isWindows command languageHint = command)
         (commands (extractCommands text recentTextOnly)).
Proof.
  rewrite extractCommands_shape. simpl. apply Forall_forall. intros c Hc.
  apply list_elem_of_In, in_flat_map in Hc as (b & _ & Hc).
  rewrite parseCommandsFromBlock_omap in Hc.
  apply list_elem_of_In, list_elem_of_omap in Hc as (line & Hline & Hparse).
  destruct (parseLine_clean line c Hparse) as [_ Htrim].
  apply parseLine_suffix in Hparse.
  assert (LF ∉ c) as Hno.
  { intros Hin. apply (suffix_elem _ _ _ Hparse), trim_elem in Hin.
    by apply (split_no_separator LF (content b) line). }
  unfold preprocessCommand. rewrite Htrim. by rewrite existsb_LF_false.
Qed.

(** *** The command line of a task *)

Lemma escapeForBash_escaped s : ∀ prev, quotesEscaped prev (escapeForBash s).
Proof.
  induction s as [|c s IH]; intros prev; simpl; [done|].
  destruct (Ascii.eqb c DQUOTE) eqn:Hc.
  - simpl. split; [by vm_compute|]. split; [done|]. apply IH.
  - apply Ascii.eqb_neq in Hc. simpl. split; [done|]. apply IH.
Qed.

Lemma escapeForBash_filter s :
  filter (fun c => c ≠ BACKSLASH) (escapeForBash s) = filter (fun c => c ≠ BACKSLASH) s.
Proof.
  induction s as [|c s IH]; [done|]. simpl.
  destruct (Ascii.eqb c DQUOTE) eqn:Hc.
  - apply Ascii.eqb_eq in Hc as ->. simpl.
    rewrite filter_cons_False by (intros Hne; by apply Hne).
    rewrite !filter_cons_True by (by vm_compute). by rewrite IH.
  - simpl. rewrite !filter_cons. case_decide; by rewrite IH.
Qed.

(** X19. In the text [escapeForBash] returns, every double quote comes
    right after a backslash; apart from backslashes the text has the
    characters of the command, in the same order; and a command without a
    double quote is returned as it is. *)
Theorem escapeForBash_escapes_every_quote command :
  quotesEscaped None (escapeForBash command) ∧
  filter (fun c => c ≠ BACKSLASH) (escapeForBash command)
  = filter (fun c => c ≠ BACKSLASH) command ∧
  length (escapeForBash command)
  = length command + length (filter (fun c => c = DQUOTE) command).
Proof.
  split; [apply escapeForBash_escaped|]. split; [apply escapeForBash_filter|].
  induction command as [|c s IH]; [done|]. simpl.
  destruct (Ascii.eqb c DQUOTE) eqn:Hc.
  - apply Ascii.eqb_eq in Hc as ->. rewrite filter_cons_True by done.
    simpl. rewrite IH. lia.
  - apply Ascii.eqb_neq in Hc. rewrite filter_cons_False by done.
    simpl. by rewrite IH.
Qed.

(** *** The terminal of the runner *)

Lemma find_alive_named host name t :
  find (fun t => bool_decide (terminalName host t = name) && isAlive host t)
       (windowTerminals host) = Some t →
  t ∈ windowTerminals host ∧ terminalName host t = name ∧ isAlive host t = true.
Proof.
  intros Hf. apply find_some in Hf as [Hin Hp].
  apply andb_true_iff in Hp as [Hn Ha]. apply bool_decide_eq_true in Hn.
  split; [by apply list_elem_of_In|done].
Qed.

(** X20. [getOrCreateTerminal] returns a running terminal and remembers it
    under the configured name, so that asking again at once returns the
    same terminal and creates nothing.  It creates a terminal only when
    the window shows no running terminal of that name, and then exactly
    one. *)
Theorem getOrCreateTerminal_is_idempotent name terminals host :
  let '(t, terminals', host') := getOrCreateTerminal name terminals host in
  isAlive host' t = true ∧ terminals' !! name = Some t ∧
  getOrCreateTerminal name terminals' host' = (t, terminals', host') ∧
  (host' = host ∨
   (host' = snd (createTerminal name host) ∧ t = nextTerminal host ∧
    terminalName host' t = name ∧
    Forall (fun u => ¬ (terminalName host u = name ∧ isAlive host u = true))
           (windowTerminals host))).
Proof.
  assert (∀ t terminals' host',
    isAlive host' t = true → terminals' !! name = Some t →
    getOrCreateTerminal name terminals' host' = (t, terminals', host')) as Hagain.
  { intros t terminals' host' Ha Hl. unfold getOrCreateTerminal. by rewrite Hl, Ha. }
  assert (let '(t, terminals', host') :=
            match find (fun t => bool_decide (terminalName host t = name) && isAlive host t)
                       (windowTerminals host) with
            | Some existingTerminal =>
                (existingTerminal, <[name := existingTerminal]> terminals, host)
            | None =>
                let '(newTerminal, host') := createTerminal name host in
                (newTerminal, <[name := newTerminal]> terminals, host')
            end in
          isAlive host' t = true ∧ terminals' !! name = Some t ∧
          getOrCreateTerminal name terminals' host' = (t, terminals', host') ∧
          (host' = host ∨
           (host' = snd (createTerminal name host) ∧ t = nextTerminal host ∧
            terminalName host' t = name ∧
            Forall (fun u => ¬ (terminalName host u = name ∧ isAlive host u = true))
                   (windowTerminals host)))) as Hslow.
  { destruct (find _ (windowTerminals host)) as [t|] eqn:Hf.
    - apply find_alive_named in Hf as (_ & _ & Ha).
      split; [done|]. split; [apply lookup_insert_eq|].
      split; [apply Hagain; [done|apply lookup_insert_eq]|by left].
    - unfold createTerminal.
      assert (isAlive
        (mkTerminalHost
           (fun i => if decide (i = nextTerminal host) then name else terminalName host i)
           (fun i => if decide (i = nextTerminal host) then None else exitStatus host i)
           (windowTerminals host ++ [nextTerminal host]) (S (nextTerminal host)))
        (nextTerminal host) = true) as Ha.
      { unfold isAlive. simpl. by rewrite decide_True. }
      split; [done|]. split; [apply lookup_insert_eq|].
      split; [apply Hagain; [done|apply lookup_insert_eq]|]. right.
      split; [done|]. split; [done|]. split; [simpl; by rewrite decide_True|].
      apply Forall_forall. intros u Hu [Hn Hal].
      apply list_elem_of_In in Hu.
      apply (find_none _ _ Hf) in Hu. rewrite Hal in Hu.
      apply andb_false_iff in Hu as [Hu|Hu]; [|done].
      by apply bool_decide_eq_false in Hu. }
  unfold getOrCreateTerminal at 1.
  destruct (terminals !! name) as [cached|] eqn:Hc; [|exact Hslow].
  destruct (isAlive host cached) eqn:Ha; [|exact Hslow].
  split; [done|]. split; [done|]. split; [by apply Hagain|by left].
Qed.

(** *** The end of a task *)

(** X21. [onTaskProcessEnd] reports the end of a task at most once: for a
    task of this extension that is being tracked it fires one completion
    event, with the commands recorded for the task and [success] exactly
    when the exit code is 0, and forgets the task, so that handling the
    same end again changes nothing; in every other case it does nothing;
    and the other tracked tasks are never touched. *)
Theorem task_end_is_reported_once e r :
  let r' := onTaskProcessEnd e r in
  onTaskProcessEnd e r' = r' ∧
  (∀ name, name ≠ taskName (endedTask e) →
           runningTasks r' !! name = runningTasks r !! name) ∧
  match runningTasks r !! taskName (endedTask e) with
  | Some info =>
      if bool_decide (taskSource (endedTask e) = "VibeNotify") then
        runningTasks r' !! taskName (endedTask e) = None ∧
        completions r'
        = completions r
          ++ [mkTaskCompletionEvent (endedTask e) (exitCode e)
                                    (bool_decide (exitCode e = Some 0%Z))
                                    (infoCommands info)]
      else r' = r
  | None => r' = r
  end.
Proof.
  intros r'. subst r'. unfold onTaskProcessEnd.
  destruct (runningTasks r !! taskName (endedTask e)) as [info|] eqn:Hinfo;
    repeat case_bool_decide; simpl; try done.
  all: try (rewrite ?Hinfo; repeat case_bool_decide; try done).
  all: rewrite lookup_delete_eq; split; [done|];
    (split; [intros name Hne; by rewrite lookup_delete_ne|done]).
Qed.

Lemma onTaskProcessEnd_cases e r :
  onTaskProcessEnd e r = r ∨
  ∃ info,
    taskSource (endedTask e) = "VibeNotify" ∧
    runningTasks r !! taskName (endedTask e) = Some info ∧
    onTaskProcessEnd e r
    = mkRunner (taskCounter r) (delete (taskName (endedTask e)) (runningTasks r))
               (completions r
                ++ [mkTaskCompletionEvent (endedTask e) (exitCode e)
                                          (bool_decide (exitCode e = Some 0%Z))
                                          (infoCommands info)]).
Proof.
  unfold onTaskProcessEnd. case_bool_decide as Hsrc; [by left|].
  destruct (runningTasks r !! taskName (endedTask e)) as [info|] eqn:Hinfo; [|by left].
  right. exists info. split; [|done].
  by destruct (decide (taskSource (endedTask e) = "VibeNotify")).
Qed.

(** X22. Whatever end events the host delivers, in whatever order and
    however often, every tracked task is reported at most once: the events
    fired are appended to the earlier ones, they are for different tasks,
    each for a task of this extension that was tracked, with the commands
    recorded for it, and that is tracked no longer; every task is either
    still tracked or reported; no task starts being tracked; and a runner
    without running tasks fires nothing. *)
Theorem tracked_tasks_are_reported_at_most_once es r :
  let r' := afterEnds es r in
  ∃ fired,
    completions r' = completions r ++ fired ∧
    size (runningTasks r') + length fired = size (runningTasks r) ∧
    NoDup (map (fun c => taskName (completedTask c)) fired) ∧
    Forall (fun c =>
              taskSource (completedTask c) = "VibeNotify" ∧
              runningTasks r' !! taskName (completedTask c) = None ∧
              ∃ info, runningTasks r !! taskName (completedTask c) = Some info ∧
                      completedCommands c = infoCommands info)
           fired ∧
    runningTasks r' ⊆ runningTasks r ∧
    (hasRunningTasks r = false → fired = []).
Proof.
  intros r'. subst r'. unfold afterEnds.
  induction es as [|e es IH] using rev_ind.
  { exists []. simpl. rewrite app_nil_r.
    repeat split; first [done | lia | constructor]. }
  rewrite foldl_snoc.
  set (r2 := foldl (fun r e => onTaskProcessEnd e r) r es) in *.
  destruct IH as (fired & Hc & Hsize & Hnd & Hall & Hsub & Hnone).
  destruct (onTaskProcessEnd_cases e r2) as [->|(info & Hsrc & Hinfo & ->)].
  { by exists fired. }
  set (k := taskName (endedTask e)) in *.
  set (c := mkTaskCompletionEvent (endedTask e) (exitCode e)
                                  (bool_decide (exitCode e = Some 0%Z))
                                  (infoCommands info)).
  assert (runningTasks r !! k = Some info) as Hk by (by eapply lookup_weaken).
  exists (fired ++ [c]). simpl.
  split; [by rewrite Hc, app_assoc|].
  split.
  { rewrite length_app, (map_size_delete_Some k) by done. simpl.
    assert (size (runningTasks r2) ≠ 0).
    { intros Hz. apply map_size_empty_inv in Hz. by rewrite Hz in Hinfo. }
    lia. }
  split.
  { rewrite map_app. simpl. apply NoDup_app. split; [done|].
    split; [|apply NoDup_singleton].
    intros name Hin Hk'. apply list_elem_of_singleton in Hk'. subst name.
    apply list_elem_of_fmap in Hin as (c' & Hname & Hc').
    rewrite Forall_forall in Hall. destruct (Hall c' Hc') as (_ & Hgone & _).
    rewrite <- Hname in Hgone. fold k in Hgone. by rewrite Hgone in Hinfo. }
  split.
  { apply Forall_app. split.
    - eapply Forall_impl; [exact Hall|]. intros c' (Hs & Hgone & Hrec).
      split; [done|]. split; [|done].
      apply lookup_delete_None. by right.
    - apply Forall_singleton. split; [done|].
      split; [apply lookup_delete_eq|by exists info]. }
  split.
  { etrans; [apply delete_subseteq|done]. }
  intros Hno. unfold hasRunningTasks in Hno.
  apply Nat.ltb_ge in Hno.
  assert (size (runningTasks r) = 0) as Hz by lia.
  apply map_size_empty_inv in Hz. by rewrite Hz in Hk.
Qed.

End RunnerProps.
